(** * owl2_rs: a shallow embedding of the tableau reasoner and the profile checker

    The abstract syntax follows [src/lib.rs], the completion graph and the
    tableau engine follow [src/reasoner.rs], the profile checks follow
    [src/owl2_profile.rs]. *)

From Stdlib Require Import List String Ascii PeanoNat NArith Lia Bool Decimal DecimalN.
Import ListNotations.
Set Warnings "-register-all,-missing-scheme".


(** ** Abstract syntax ([src/lib.rs]) *)

Inductive IRI : Type := mkIRI (s : string).
Inductive NodeID : Type := mkNodeID (s : string).
Inductive Class : Type := mkClass (i : IRI).
Inductive Datatype : Type := mkDatatype (i : IRI).
Inductive ObjectProperty : Type := mkObjectProperty (i : IRI).
Inductive DataProperty : Type := mkDataProperty (i : IRI).

Inductive Individual : Type :=
| Named (i : IRI)
| Anonymous (n : NodeID).

Record Literal : Type := mkLiteral {
  lit_value : string;
  lit_datatype : Datatype;
  lit_lang : option string
}.

Inductive ObjectPropertyExpression : Type :=
| OPE_ObjectProperty (p : ObjectProperty)
| InverseObjectProperty (p : ObjectProperty)
| ObjectPropertyChain (l : list ObjectPropertyExpression).

(** [u32] cardinalities are kept as [N]; no arithmetic is done on them. *)
Inductive ClassExpression : Type :=
| CE_Class (c : Class)
| ObjectIntersectionOf (l : list ClassExpression)
| ObjectUnionOf (l : list ClassExpression)
| ObjectComplementOf (e : ClassExpression)
| ObjectOneOf (l : list Individual)
| ObjectSomeValuesFrom (property : ObjectPropertyExpression) (filler : ClassExpression)
| ObjectAllValuesFrom (property : ObjectPropertyExpression) (filler : ClassExpression)
| ObjectHasValue (property : ObjectPropertyExpression) (value : Individual)
| ObjectHasSelf (property : ObjectPropertyExpression)
| ObjectMinCardinality (min : N) (property : ObjectPropertyExpression) (filler : option ClassExpression)
| ObjectMaxCardinality (max : N) (property : ObjectPropertyExpression) (filler : option ClassExpression)
| ObjectExactCardinality (cardinality : N) (property : ObjectPropertyExpression) (filler : option ClassExpression).

Inductive ClassAxiom : Type :=
| SubClassOf (sub_class super_class : ClassExpression)
| EquivalentClasses (classes : list ClassExpression)
| DisjointClasses (classes : list ClassExpression)
| DisjointUnion (class : Class) (disjoint_classes : list ClassExpression).

Inductive ObjectPropertyAxiom : Type :=
| SubObjectPropertyOf (sub_property super_property : ObjectPropertyExpression)
| EquivalentObjectProperties (properties : list ObjectPropertyExpression)
| DisjointObjectProperties (properties : list ObjectPropertyExpression)
| InverseObjectProperties (prop1 prop2 : ObjectPropertyExpression)
| ObjectPropertyDomain (property : ObjectPropertyExpression) (domain : ClassExpression)
| ObjectPropertyRange (property : ObjectPropertyExpression) (range : ClassExpression)
| FunctionalObjectProperty (property : ObjectPropertyExpression)
| InverseFunctionalObjectProperty (property : ObjectPropertyExpression)
| ReflexiveObjectProperty (property : ObjectPropertyExpression)
| IrreflexiveObjectProperty (property : ObjectPropertyExpression)
| SymmetricObjectProperty (property : ObjectPropertyExpression)
| AsymmetricObjectProperty (property : ObjectPropertyExpression)
| TransitiveObjectProperty (property : ObjectPropertyExpression).

Inductive DataRange : Type :=
| DR_Datatype (d : Datatype)
| DataIntersectionOf (l : list DataRange)
| DataUnionOf (l : list DataRange)
| DataComplementOf (r : DataRange)
| DataOneOf (l : list Literal)
| DatatypeRestriction (datatype : Datatype) (restrictions : list (IRI * Literal)).

Inductive DataPropertyAxiom : Type :=
| SubDataPropertyOf (sub_property super_property : DataProperty)
| EquivalentDataProperties (properties : list DataProperty)
| DisjointDataProperties (properties : list DataProperty)
| DataPropertyDomain (property : DataProperty) (domain : ClassExpression)
| DataPropertyRange (property : DataProperty) (range : DataRange)
| FunctionalDataProperty (property : DataProperty).

Inductive Assertion : Type :=
| SameIndividual (individuals : list Individual)
| DifferentIndividuals (individuals : list Individual)
| ClassAssertion (class : ClassExpression) (individual : Individual)
| ObjectPropertyAssertion (property : ObjectPropertyExpression) (source target : Individual)
| DataPropertyAssertion (property : DataProperty) (source : Individual) (target : Literal)
| NegativeObjectPropertyAssertion (property : ObjectPropertyExpression) (source target : Individual)
| NegativeDataPropertyAssertion (property : DataProperty) (source : Individual) (target : Literal)
| HasKey (class : Class) (object_property_expression : list ObjectPropertyExpression)
         (data_property : list DataProperty).

Inductive OwlAxiom : Type :=
| Ax_Class (a : ClassAxiom)
| Ax_ObjectProperty (a : ObjectPropertyAxiom)
| Ax_DataProperty (a : DataPropertyAxiom)
| Ax_Assertion (a : Assertion).

Record Ontology : Type := mkOntology {
  direct_imports : list IRI;
  axioms : list OwlAxiom
}.

(** ** Structural equality (the derived [PartialEq] instances) *)

Definition iri_eqb (a b : IRI) : bool :=
  match a, b with mkIRI x, mkIRI y => String.eqb x y end.
Definition nodeid_eqb (a b : NodeID) : bool :=
  match a, b with mkNodeID x, mkNodeID y => String.eqb x y end.
Definition class_eqb (a b : Class) : bool :=
  match a, b with mkClass x, mkClass y => iri_eqb x y end.
Definition op_eqb (a b : ObjectProperty) : bool :=
  match a, b with mkObjectProperty x, mkObjectProperty y => iri_eqb x y end.

Definition individual_eqb (a b : Individual) : bool :=
  match a, b with
  | Named x, Named y => iri_eqb x y
  | Anonymous x, Anonymous y => nodeid_eqb x y
  | _, _ => false
  end.

Fixpoint list_eqb {A} (eqb : A -> A -> bool) (l m : list A) : bool :=
  match l, m with
  | [], [] => true
  | x :: l', y :: m' => eqb x y && list_eqb eqb l' m'
  | _, _ => false
  end.

Fixpoint ope_eqb (a b : ObjectPropertyExpression) : bool :=
  match a, b with
  | OPE_ObjectProperty p, OPE_ObjectProperty q => op_eqb p q
  | InverseObjectProperty p, InverseObjectProperty q => op_eqb p q
  | ObjectPropertyChain l, ObjectPropertyChain m => list_eqb ope_eqb l m
  | _, _ => false
  end.

Definition option_eqb {A} (eqb : A -> A -> bool) (a b : option A) : bool :=
  match a, b with
  | None, None => true
  | Some x, Some y => eqb x y
  | _, _ => false
  end.

Fixpoint ce_eqb (a b : ClassExpression) : bool :=
  match a, b with
  | CE_Class c, CE_Class d => class_eqb c d
  | ObjectIntersectionOf l, ObjectIntersectionOf m => list_eqb ce_eqb l m
  | ObjectUnionOf l, ObjectUnionOf m => list_eqb ce_eqb l m
  | ObjectComplementOf e, ObjectComplementOf f => ce_eqb e f
  | ObjectOneOf l, ObjectOneOf m => list_eqb individual_eqb l m
  | ObjectSomeValuesFrom p e, ObjectSomeValuesFrom q f => ope_eqb p q && ce_eqb e f
  | ObjectAllValuesFrom p e, ObjectAllValuesFrom q f => ope_eqb p q && ce_eqb e f
  | ObjectHasValue p i, ObjectHasValue q j => ope_eqb p q && individual_eqb i j
  | ObjectHasSelf p, ObjectHasSelf q => ope_eqb p q
  | ObjectMinCardinality n p e, ObjectMinCardinality m q f
  | ObjectMaxCardinality n p e, ObjectMaxCardinality m q f
  | ObjectExactCardinality n p e, ObjectExactCardinality m q f =>
      N.eqb n m && ope_eqb p q &&
      match e, f with
      | None, None => true
      | Some e', Some f' => ce_eqb e' f'
      | _, _ => false
      end
  | _, _ => false
  end.

(** [Vec::contains] *)
Definition contains_ce (l : list ClassExpression) (c : ClassExpression) : bool :=
  existsb (fun x => ce_eqb x c) l.

Definition role_eqb (a b : ObjectPropertyExpression * Individual) : bool :=
  ope_eqb (fst a) (fst b) && individual_eqb (snd a) (snd b).

Definition contains_role (l : list (ObjectPropertyExpression * Individual))
  (r : ObjectPropertyExpression * Individual) : bool :=
  existsb (fun x => role_eqb x r) l.

(** ** Panics and loop fuel

    Rust's [unwrap] on [None], out-of-range indexing and [u32] overflow in a
    checked build abort the computation ([Panic]).  The unbounded [while]
    loops of the engine are run with a fuel argument; [OutOfFuel] only means
    that the fuel given was not enough. *)

Inductive Res (A : Type) : Type :=
| Ok (a : A)
| Panic
| OutOfFuel.
Arguments Ok {A} a.
Arguments Panic {A}.
Arguments OutOfFuel {A}.

Definition bind {A B} (m : Res A) (k : A -> Res B) : Res B :=
  match m with
  | Ok a => k a
  | Panic => Panic
  | OutOfFuel => OutOfFuel
  end.

Notation "x <- m ;; k" := (bind m (fun x => k))
  (at level 61, m at next level, right associativity).
Notation "' p <- m ;; k" := (bind m (fun x => match x with p => k end))
  (at level 61, p pattern, m at next level, right associativity).

(** [for x in l { body }] threading a state through a fallible body. *)
Fixpoint foldM {A B} (f : A -> B -> Res A) (l : list B) (a : A) : Res A :=
  match l with
  | [] => Ok a
  | x :: l' => bind (f a x) (foldM f l')
  end.

(** ** The completion graph ([src/reasoner.rs], [CompletionGraph]) *)

Record Node : Type := mkNode {
  individual : Individual;
  concepts : list ClassExpression;
  roles : list (ObjectPropertyExpression * Individual)
}.

Record CompletionGraph : Type := mkGraph {
  nodes : list Node;
  next_fresh_id : N
}.

Definition CompletionGraph_new : CompletionGraph := mkGraph [] 0.

(** [self.nodes.iter().position(|n| &n.individual == individual)] *)
Fixpoint position (i : Individual) (l : list Node) : option nat :=
  match l with
  | [] => None
  | n :: l' =>
      if individual_eqb (individual n) i then Some 0
      else option_map S (position i l')
  end.

(** [&mut self.nodes[k]] followed by an in-place update [f]; the [None]
    case is Rust's out-of-range panic. *)
Fixpoint modify_nth (k : nat) (f : Node -> Node) (l : list Node) : option (list Node) :=
  match l, k with
  | [], _ => None
  | n :: l', 0 => Some (f n :: l')
  | n :: l', S k' => option_map (cons n) (modify_nth k' f l')
  end.

Definition push_concept (c : ClassExpression) (n : Node) : Node :=
  mkNode (individual n) (concepts n ++ [c]) (roles n).
Definition push_role (r : ObjectPropertyExpression * Individual) (n : Node) : Node :=
  mkNode (individual n) (concepts n) (roles n ++ [r]).

Definition set_nodes (g : CompletionGraph) (l : list Node) : CompletionGraph :=
  mkGraph l (next_fresh_id g).

(** [add_node]: push an empty node; the index of the new node is returned
    in place of the [&mut Node]. *)
Definition add_node (g : CompletionGraph) (i : Individual) : CompletionGraph * nat :=
  (set_nodes g (nodes g ++ [mkNode i [] []]), List.length (nodes g)).

(** [get_or_create_node] *)
Definition get_or_create_node (g : CompletionGraph) (i : Individual) : CompletionGraph * nat :=
  match position i (nodes g) with
  | Some k => (g, k)
  | None => add_node g i
  end.

(** [if !node.concepts.contains(&c) { node.concepts.push(c) }] at index [k];
    the boolean says whether the list grew. *)
Definition push_concept_at (g : CompletionGraph) (k : nat) (c : ClassExpression)
  : Res (CompletionGraph * bool) :=
  match nth_error (nodes g) k with
  | None => Panic
  | Some n =>
      if contains_ce (concepts n) c then Ok (g, false)
      else match modify_nth k (push_concept c) (nodes g) with
           | Some l => Ok (set_nodes g l, true)
           | None => Panic
           end
  end.

(** [add_concept] (returns [()] in the source; the index is always valid
    after [get_or_create_node], so the [Panic] branch is unreachable). *)
Definition add_concept (g : CompletionGraph) (i : Individual) (c : ClassExpression)
  : CompletionGraph :=
  let (g1, k) := get_or_create_node g i in
  match push_concept_at g1 k c with
  | Ok (g2, _) => g2
  | _ => g1
  end.

(** [add_role] *)
Definition add_role (g : CompletionGraph) (source : Individual)
  (role : ObjectPropertyExpression) (target : Individual) : CompletionGraph :=
  let (g1, k) := get_or_create_node g source in
  match nth_error (nodes g1) k with
  | None => g1
  | Some n =>
      if contains_role (roles n) (role, target) then g1
      else match modify_nth k (push_role (role, target)) (nodes g1) with
           | Some l => set_nodes g1 l
           | None => g1
           end
  end.

(** Decimal rendering of a [u32] for [format!("_:fresh{}", n)]. *)
Fixpoint string_of_uint (d : uint) : string :=
  match d with
  | Nil => EmptyString
  | D0 d => String "0" (string_of_uint d)
  | D1 d => String "1" (string_of_uint d)
  | D2 d => String "2" (string_of_uint d)
  | D3 d => String "3" (string_of_uint d)
  | D4 d => String "4" (string_of_uint d)
  | D5 d => String "5" (string_of_uint d)
  | D6 d => String "6" (string_of_uint d)
  | D7 d => String "7" (string_of_uint d)
  | D8 d => String "8" (string_of_uint d)
  | D9 d => String "9" (string_of_uint d)
  end.

Definition fresh_name (n : N) : Individual :=
  Anonymous (mkNodeID ("_:fresh" ++ string_of_uint (N.to_uint n))).

Definition u32_max : N := 4294967295.

(** [fresh_individual]: [self.next_fresh_id += 1] on a [u32] (overflow
    aborts in a checked build), then the name [_:fresh{n}]. *)
Definition fresh_individual (g : CompletionGraph) : Res (CompletionGraph * Individual) :=
  if N.eqb (next_fresh_id g) u32_max then Panic
  else let n := N.succ (next_fresh_id g) in
       Ok (mkGraph (nodes g) n, fresh_name n).

(** ** The tableau reasoner ([src/reasoner.rs], [TableauReasoner]) *)

Record TableauReasoner : Type := mkReasoner {
  ontology : Ontology;
  graph : CompletionGraph
}.

Definition TableauReasoner_new (o : Ontology) : TableauReasoner :=
  mkReasoner o CompletionGraph_new.

Definition ensure_node (g : CompletionGraph) (i : Individual) : CompletionGraph :=
  fst (get_or_create_node g i).

(** One step of [initialize]'s loop over the axioms. *)
Definition initialize_axiom (g : CompletionGraph) (ax : OwlAxiom) : CompletionGraph :=
  match ax with
  | Ax_Assertion a =>
      match a with
      | ClassAssertion class individual => add_concept g individual class
      | ObjectPropertyAssertion property source target => add_role g source property target
      | DataPropertyAssertion _ source _ => ensure_node g source
      | SameIndividual individuals => fold_left ensure_node individuals g
      | DifferentIndividuals individuals => fold_left ensure_node individuals g
      | NegativeObjectPropertyAssertion _ source _ => ensure_node g source
      | NegativeDataPropertyAssertion _ source _ => ensure_node g source
      | HasKey _ _ _ => g
      end
  | _ => g
  end.

(** [initialize] *)
Definition initialize (r : TableauReasoner) : TableauReasoner :=
  mkReasoner (ontology r) (fold_left initialize_axiom (axioms (ontology r)) (graph r)).

(** [has_clash] *)
Definition has_clash (g : CompletionGraph) : bool :=
  existsb (fun n =>
    existsb (fun c =>
      match c with
      | ObjectComplementOf complement => contains_ce (concepts n) complement
      | _ => false
      end) (concepts n)) (nodes g).

(** The innermost step of [apply_conjunction_rule] and of
    [apply_disjunction_rule]: [get_or_create_node(individual)], then push
    [c] when absent; the flag is or-ed with whether something was added. *)
Definition add_to_node (st : CompletionGraph * bool) (i : Individual) (c : ClassExpression)
  : Res (CompletionGraph * bool) :=
  let (g, flag) := st in
  let (g1, k) := get_or_create_node g i in
  '(g2, added) <- push_concept_at g1 k c ;;
  Ok (g2, flag || added).

(** The body run for every concept of every node of the snapshot. *)
Definition conjunction_step (i : Individual) (st : CompletionGraph * bool) (c : ClassExpression)
  : Res (CompletionGraph * bool) :=
  match c with
  | ObjectIntersectionOf conjuncts =>
      foldM (fun st' conjunct => add_to_node st' i conjunct) conjuncts st
  | _ => Ok st
  end.

(** One pass of the [while new_concepts_added] loop: iterate over a clone
    of the nodes taken at the start of the pass. *)
Definition conjunction_pass (g : CompletionGraph) : Res (CompletionGraph * bool) :=
  foldM (fun st n => foldM (conjunction_step (individual n)) (concepts n) st)
        (nodes g) (g, false).

Fixpoint conjunction_loop (fuel : nat) (g : CompletionGraph) (any_added : bool)
  : Res (CompletionGraph * bool) :=
  match fuel with
  | O => OutOfFuel
  | S fuel' =>
      '(g1, new_concepts_added) <- conjunction_pass g ;;
      if new_concepts_added then conjunction_loop fuel' g1 true
      else Ok (g1, any_added)
  end.

(** [apply_conjunction_rule] *)
Definition apply_conjunction_rule (fuel : nat) (g : CompletionGraph)
  : Res (CompletionGraph * bool) :=
  conjunction_loop fuel g false.

Definition disjunction_step (i : Individual) (st : CompletionGraph * bool) (c : ClassExpression)
  : Res (CompletionGraph * bool) :=
  match c with
  | ObjectUnionOf (first_disjunct :: _) => add_to_node st i first_disjunct
  | _ => Ok st
  end.

(** [apply_disjunction_rule]: always the first disjunct. *)
Definition apply_disjunction_rule (g : CompletionGraph) : Res (CompletionGraph * bool) :=
  foldM (fun st n => foldM (disjunction_step (individual n)) (concepts n) st)
        (nodes g) (g, false).

(** [roles.iter().find(|(p, _)| p == property).map(|(_, t)| t.clone())] *)
Definition first_target (rs : list (ObjectPropertyExpression * Individual))
  (property : ObjectPropertyExpression) : option Individual :=
  option_map snd (find (fun r => ope_eqb (fst r) property) rs).

(** The body of [apply_existential_rule] for a concept
    [ObjectSomeValuesFrom property filler] of a snapshot node of [i]. *)
Definition existential_step (i : Individual) (st : CompletionGraph * bool) (c : ClassExpression)
  : Res (CompletionGraph * bool) :=
  let (g, flag) := st in
  match c with
  | ObjectSomeValuesFrom property filler =>
      match position i (nodes g) with
      | None => Panic (* [.unwrap()] *)
      | Some node_index =>
          match nth_error (nodes g) node_index with
          | None => Panic
          | Some n =>
              match first_target (roles n) property with
              | Some target =>
                  match position target (nodes g) with
                  | Some target_index =>
                      '(g1, added) <- push_concept_at g target_index filler ;;
                      Ok (g1, flag || added)
                  | None => Ok (g, flag)
                  end
              | None =>
                  '(g1, fresh) <- fresh_individual g ;;
                  match modify_nth node_index (push_role (property, fresh)) (nodes g1) with
                  | None => Panic
                  | Some l =>
                      Ok (mkGraph (l ++ [mkNode fresh [filler] []]) (next_fresh_id g1), true)
                  end
              end
          end
      end
  | _ => Ok st
  end.

(** [apply_existential_rule] *)
Definition apply_existential_rule (g : CompletionGraph) : Res (CompletionGraph * bool) :=
  foldM (fun st n => foldM (existential_step (individual n)) (concepts n) st)
        (nodes g) (g, false).

(** The targets of a [for target in role_assertions] loop of the universal rule. *)
Definition universal_target (filler : ClassExpression) (st : CompletionGraph * bool)
  (target : Individual) : Res (CompletionGraph * bool) :=
  let (g, flag) := st in
  match position target (nodes g) with
  | Some target_index =>
      '(g1, added) <- push_concept_at g target_index filler ;;
      Ok (g1, flag || added)
  | None => Ok (g, flag)
  end.

Definition universal_step (i : Individual) (st : CompletionGraph * bool) (c : ClassExpression)
  : Res (CompletionGraph * bool) :=
  let (g, flag) := st in
  match c with
  | ObjectAllValuesFrom property filler =>
      match position i (nodes g) with
      | None => Ok st
      | Some node_index =>
          match nth_error (nodes g) node_index with
          | None => Panic
          | Some n =>
              let role_assertions :=
                map snd (filter (fun r => ope_eqb (fst r) property) (roles n)) in
              foldM (universal_target filler) role_assertions st
          end
      end
  | _ => Ok st
  end.

(** [apply_universal_rule] *)
Definition apply_universal_rule (g : CompletionGraph) : Res (CompletionGraph * bool) :=
  foldM (fun st n => foldM (universal_step (individual n)) (concepts n) st)
        (nodes g) (g, false).

(** The [while new_added] loop of [is_consistent]; the inner loop of the
    conjunction rule draws on the same fuel. *)
Fixpoint expand (fuel : nat) (g : CompletionGraph) : Res CompletionGraph :=
  match fuel with
  | O => OutOfFuel
  | S fuel' =>
      '(g1, b1) <- apply_conjunction_rule fuel' g ;;
      '(g2, b2) <- apply_disjunction_rule g1 ;;
      '(g3, b3) <- apply_existential_rule g2 ;;
      '(g4, b4) <- apply_universal_rule g3 ;;
      if b1 || b2 || b3 || b4 then expand fuel' g4 else Ok g4
  end.

(** [is_consistent(&mut self)]: the updated reasoner and the answer. *)
Definition is_consistent (fuel : nat) (r : TableauReasoner) : Res (TableauReasoner * bool) :=
  let r1 := initialize r in
  g <- expand fuel (graph r1) ;;
  Ok (mkReasoner (ontology r1) g, negb (has_clash g)).

(** [is_instance_of(&mut self, individual, class)] *)
Definition is_instance_of (fuel : nat) (r : TableauReasoner) (i : Individual) (class : Class)
  : Res (TableauReasoner * bool) :=
  '(r1, consistent) <- is_consistent fuel r ;;
  if negb consistent then Ok (r1, false)
  else
    let asserted :=
      match find (fun n => individual_eqb (individual n) i) (nodes (graph r1)) with
      | Some n =>
          existsb (fun c => match c with CE_Class c' => class_eqb c' class | _ => false end)
                  (concepts n)
      | None => false
      end in
    if asserted then Ok (r1, true)
    else
      let temp := mkReasoner (ontology r1)
                    (add_concept (graph r1) i (ObjectComplementOf (CE_Class class))) in
      '(_, b) <- is_consistent fuel temp ;;
      Ok (r1, negb b).

(** [extract_classes_from_expression] *)
Fixpoint extract_classes_from_expression (e : ClassExpression) : list Class :=
  match e with
  | CE_Class c => [c]
  | ObjectIntersectionOf l | ObjectUnionOf l => flat_map extract_classes_from_expression l
  | ObjectComplementOf e' => extract_classes_from_expression e'
  | ObjectSomeValuesFrom _ f | ObjectAllValuesFrom _ f => extract_classes_from_expression f
  | ObjectMinCardinality _ _ f | ObjectMaxCardinality _ _ f | ObjectExactCardinality _ _ f =>
      match f with Some f' => extract_classes_from_expression f' | None => [] end
  | _ => []
  end.

Definition extract_classes_axiom (ax : OwlAxiom) : list Class :=
  match ax with
  | Ax_Class (SubClassOf sub super) =>
      extract_classes_from_expression sub ++ extract_classes_from_expression super
  | Ax_Class (EquivalentClasses l) | Ax_Class (DisjointClasses l) =>
      flat_map extract_classes_from_expression l
  | Ax_Class (DisjointUnion c l) => c :: flat_map extract_classes_from_expression l
  | Ax_ObjectProperty (ObjectPropertyDomain _ d) => extract_classes_from_expression d
  | Ax_ObjectProperty (ObjectPropertyRange _ d) => extract_classes_from_expression d
  | Ax_DataProperty (DataPropertyDomain _ d) => extract_classes_from_expression d
  | Ax_Assertion (ClassAssertion c _) => extract_classes_from_expression c
  | _ => []
  end.

(** The [HashSet]-based de-duplication keeping first occurrences. *)
Fixpoint dedup_classes (seen : list Class) (l : list Class) : list Class :=
  match l with
  | [] => []
  | c :: l' =>
      if existsb (class_eqb c) seen then dedup_classes seen l'
      else c :: dedup_classes (c :: seen) l'
  end.

(** [extract_classes] *)
Definition extract_classes (o : Ontology) : list Class :=
  dedup_classes [] (flat_map extract_classes_axiom (axioms o)).

Definition test_individual : Individual := Anonymous (mkNodeID "_:test").

(** [is_subsumed_by(&self, class_c, class_d)] *)
Definition is_subsumed_by (fuel : nat) (r : TableauReasoner) (class_c class_d : Class)
  : Res bool :=
  let temp := TableauReasoner_new (ontology r) in
  let e := ObjectIntersectionOf [CE_Class class_c; ObjectComplementOf (CE_Class class_d)] in
  let temp := mkReasoner (ontology temp) (add_concept (graph temp) test_individual e) in
  '(_, b) <- is_consistent fuel temp ;;
  Ok (negb b).

(** A [HashMap<Class, Vec<Class>>] as an association list. *)
Definition ClassMap := list (Class * list Class).

Fixpoint lookup_class (m : ClassMap) (k : Class) : option (list Class) :=
  match m with
  | [] => None
  | (k', v) :: m' => if class_eqb k' k then Some v else lookup_class m' k
  end.

(** [map.entry(k).or_insert_with(Vec::new).push(v)] *)
Fixpoint entry_push (m : ClassMap) (k v : Class) : ClassMap :=
  match m with
  | [] => [(k, [v])]
  | (k', l) :: m' => if class_eqb k' k then (k', l ++ [v]) :: m' else (k', l) :: entry_push m' k v
  end.

Record ClassHierarchy : Type := mkHierarchy {
  subclasses : ClassMap;
  superclasses : ClassMap
}.

Definition ClassHierarchy_new : ClassHierarchy := mkHierarchy [] [].

(** [classify(&mut self)] *)
Definition classify (fuel : nat) (r : TableauReasoner) : Res (TableauReasoner * ClassHierarchy) :=
  '(r1, consistent) <- is_consistent fuel r ;;
  if negb consistent then Ok (r1, ClassHierarchy_new)
  else
    let classes := extract_classes (ontology r1) in
    h <- foldM (fun h class_c =>
           foldM (fun h class_d =>
             if class_eqb class_c class_d then Ok h
             else
               b <- is_subsumed_by fuel r1 class_c class_d ;;
               if b then Ok (mkHierarchy (entry_push (subclasses h) class_d class_c)
                                         (entry_push (superclasses h) class_c class_d))
               else Ok h) classes h) classes ClassHierarchy_new ;;
    Ok (r1, h).

(** [IndividualTypes] *)
Record IndividualTypes : Type := mkIndividualTypes {
  most_specific : list Class;
  all_types : list Class
}.

Definition IndividualTypes_new : IndividualTypes := mkIndividualTypes [] [].

(** The classes named directly among a list of concepts, in order. *)
Definition named_classes (l : list ClassExpression) : list Class :=
  flat_map (fun c => match c with CE_Class c' => [c'] | _ => [] end) l.

(** [find_individual_types]: the named concepts of the first node of the
    individual; the class list argument is unused in the source. *)
Definition find_individual_types (g : CompletionGraph) (i : Individual) (classes : list Class)
  : IndividualTypes :=
  match find (fun n => individual_eqb (individual n) i) (nodes g) with
  | Some n =>
      let all := named_classes (concepts n) in
      mkIndividualTypes all all
  | None => IndividualTypes_new
  end.

(** A [HashMap<Individual, IndividualTypes>] as an association list;
    [insert] replaces the value of a key already present. *)
Definition IndividualMap := list (Individual * IndividualTypes).

Fixpoint map_insert (m : IndividualMap) (k : Individual) (v : IndividualTypes) : IndividualMap :=
  match m with
  | [] => [(k, v)]
  | (k', v') :: m' => if individual_eqb k' k then (k, v) :: m' else (k', v') :: map_insert m' k v
  end.

Fixpoint map_get (m : IndividualMap) (k : Individual) : option IndividualTypes :=
  match m with
  | [] => None
  | (k', v) :: m' => if individual_eqb k' k then Some v else map_get m' k
  end.

(** [realize(&mut self)] *)
Definition realize (fuel : nat) (r : TableauReasoner) : Res (TableauReasoner * IndividualMap) :=
  '(r1, consistent) <- is_consistent fuel r ;;
  if negb consistent then Ok (r1, [])
  else
    let classes := extract_classes (ontology r1) in
    let individuals := map individual (nodes (graph r1)) in
    Ok (r1, fold_left (fun m i => map_insert m i (find_individual_types (graph r1) i classes))
                      individuals []).

(** The inner loop body of [classify] for the class [class_c], with the
    subsumption test [S] as a parameter. *)
Definition classify_inner (S : Class -> Class -> Res bool) (class_c : Class) (h : ClassHierarchy)
  (class_d : Class) : Res ClassHierarchy :=
  if class_eqb class_c class_d then Ok h
  else
    b <- S class_c class_d ;;
    if b then Ok (mkHierarchy (entry_push (subclasses h) class_d class_c)
                              (entry_push (superclasses h) class_c class_d))
    else Ok h.

(** ** Profile checking ([src/owl2_profile.rs]) *)

Inductive OwlProfile : Type := EL | QL | RL | Full.

Record ProfileCheckResult : Type := mkProfileCheckResult {
  profile : OwlProfile;
  conforms : bool;
  violations : list string
}.

(** [if !ok { violations.push(msg) }] *)
Definition unless (ok : bool) (msg : string) : list string := if ok then [] else [msg].

Fixpoint is_el_class_expression (e : ClassExpression) : bool :=
  match e with
  | CE_Class _ => true
  | ObjectIntersectionOf l => forallb is_el_class_expression l
  | ObjectSomeValuesFrom _ f => is_el_class_expression f
  | ObjectHasValue _ _ => true
  | _ => false
  end.

Definition is_el_object_property_expression (e : ObjectPropertyExpression) : bool :=
  match e with
  | OPE_ObjectProperty _ | InverseObjectProperty _ => true
  | ObjectPropertyChain _ => false
  end.

Definition check_el_class_axiom (a : ClassAxiom) : list string :=
  match a with
  | SubClassOf sub super =>
      unless (is_el_class_expression sub) "SubClassOf axiom has non-EL subclass expression" ++
      unless (is_el_class_expression super) "SubClassOf axiom has non-EL superclass expression"
  | EquivalentClasses l =>
      flat_map (fun e => unless (is_el_class_expression e)
                "EquivalentClasses axiom has non-EL class expression") l
  | DisjointClasses l =>
      flat_map (fun e => unless (is_el_class_expression e)
                "DisjointClasses axiom has non-EL class expression") l
  | DisjointUnion _ l =>
      flat_map (fun e => unless (is_el_class_expression e)
                "DisjointUnion axiom has non-EL class expression") l
  end.

Definition check_el_object_property_axiom (a : ObjectPropertyAxiom) : list string :=
  let ok := is_el_object_property_expression in
  match a with
  | SubObjectPropertyOf p q =>
      unless (ok p) "SubObjectPropertyOf axiom has non-EL sub-property expression" ++
      unless (ok q) "SubObjectPropertyOf axiom has non-EL super-property expression"
  | EquivalentObjectProperties l =>
      flat_map (fun p => unless (ok p)
                "EquivalentObjectProperties axiom has non-EL property expression") l
  | DisjointObjectProperties l =>
      flat_map (fun p => unless (ok p)
                "DisjointObjectProperties axiom has non-EL property expression") l
  | InverseObjectProperties p q =>
      unless (ok p) "InverseObjectProperties axiom has non-EL property expression (first)" ++
      unless (ok q) "InverseObjectProperties axiom has non-EL property expression (second)"
  | ObjectPropertyDomain p d =>
      unless (ok p) "ObjectPropertyDomain axiom has non-EL property expression" ++
      unless (is_el_class_expression d) "ObjectPropertyDomain axiom has non-EL domain expression"
  | ObjectPropertyRange p d =>
      unless (ok p) "ObjectPropertyRange axiom has non-EL property expression" ++
      unless (is_el_class_expression d) "ObjectPropertyRange axiom has non-EL range expression"
  | FunctionalObjectProperty p =>
      unless (ok p) "FunctionalObjectProperty axiom has non-EL property expression"
  | InverseFunctionalObjectProperty p =>
      unless (ok p) "InverseFunctionalObjectProperty axiom has non-EL property expression"
  | ReflexiveObjectProperty p =>
      unless (ok p) "ReflexiveObjectProperty axiom has non-EL property expression"
  | IrreflexiveObjectProperty p =>
      unless (ok p) "IrreflexiveObjectProperty axiom has non-EL property expression"
  | SymmetricObjectProperty p =>
      unless (ok p) "SymmetricObjectProperty axiom has non-EL property expression"
  | AsymmetricObjectProperty p =>
      unless (ok p) "AsymmetricObjectProperty axiom has non-EL property expression"
  | TransitiveObjectProperty p =>
      unless (ok p) "TransitiveObjectProperty axiom has non-EL property expression"
  end.

Definition check_el_data_property_axiom (a : DataPropertyAxiom) : list string :=
  match a with
  | DataPropertyDomain _ d =>
      unless (is_el_class_expression d) "DataPropertyDomain axiom has non-EL domain expression"
  | DataPropertyRange _ (DR_Datatype _) => []
  | DataPropertyRange _ _ => ["DataPropertyRange axiom has non-EL range expression"%string]
  | _ => []
  end.

(** The source's match has no arm for [HasKey]; it is taken to add no
    violation here. *)
Definition check_el_assertion (a : Assertion) : list string :=
  match a with
  | ClassAssertion c _ =>
      unless (is_el_class_expression c) "ClassAssertion has non-EL class expression"
  | ObjectPropertyAssertion p _ _ =>
      unless (is_el_object_property_expression p) "ObjectPropertyAssertion has non-EL property expression"
  | NegativeObjectPropertyAssertion p _ _ =>
      unless (is_el_object_property_expression p)
             "NegativeObjectPropertyAssertion has non-EL property expression"
  | _ => []
  end.

Definition check_el_profile (o : Ontology) : list string :=
  flat_map (fun ax =>
    match ax with
    | Ax_Class a => check_el_class_axiom a
    | Ax_ObjectProperty a => check_el_object_property_axiom a
    | Ax_DataProperty a => check_el_data_property_axiom a
    | Ax_Assertion a => check_el_assertion a
    end) (axioms o).

Definition is_ql_subclass_expression (e : ClassExpression) : bool :=
  match e with CE_Class _ => true | _ => false end.

Fixpoint is_ql_valid_class_expression (e : ClassExpression) : bool :=
  match e with
  | CE_Class _ => true
  | ObjectIntersectionOf l => forallb is_ql_valid_class_expression l
  | ObjectComplementOf e' => is_ql_valid_class_expression e'
  | ObjectSomeValuesFrom _ f => is_ql_valid_class_expression f
  | ObjectHasValue _ _ => true
  | _ => false
  end.

Fixpoint is_ql_superclass_expression (e : ClassExpression) : bool :=
  match e with
  | CE_Class _ => true
  | ObjectIntersectionOf l => forallb is_ql_superclass_expression l
  | ObjectComplementOf e' => is_ql_valid_class_expression e'
  | ObjectSomeValuesFrom _ f => is_ql_valid_class_expression f
  | ObjectHasValue _ _ => true
  | _ => false
  end.

Definition check_ql_class_axiom (a : ClassAxiom) : list string :=
  match a with
  | SubClassOf sub super =>
      unless (is_ql_subclass_expression sub) "SubClassOf axiom has non-QL subclass expression" ++
      unless (is_ql_superclass_expression super) "SubClassOf axiom has non-QL superclass expression"
  | EquivalentClasses l =>
      flat_map (fun e => unless (is_ql_valid_class_expression e)
                "EquivalentClasses axiom has non-QL class expression") l
  | DisjointClasses l =>
      flat_map (fun e => unless (is_ql_valid_class_expression e)
                "DisjointClasses axiom has non-QL class expression") l
  | DisjointUnion _ _ => ["DisjointUnion axiom is not allowed in QL profile"%string]
  end.

Definition is_chain (p : ObjectPropertyExpression) : bool :=
  match p with ObjectPropertyChain _ => true | _ => false end.

Definition check_ql_object_property_axiom (a : ObjectPropertyAxiom) : list string :=
  match a with
  | SubObjectPropertyOf p q =>
      unless (negb (is_chain p)) "SubObjectPropertyOf with property chain is not allowed in QL profile" ++
      unless (negb (is_chain q)) "SubObjectPropertyOf with property chain is not allowed in QL profile"
  | TransitiveObjectProperty _ => ["TransitiveObjectProperty axiom is not allowed in QL profile"%string]
  | FunctionalObjectProperty _ => ["FunctionalObjectProperty axiom is not allowed in QL profile"%string]
  | InverseFunctionalObjectProperty _ =>
      ["InverseFunctionalObjectProperty axiom is not allowed in QL profile"%string]
  | _ => []
  end.

Definition check_ql_data_property_axiom (a : DataPropertyAxiom) : list string :=
  match a with
  | FunctionalDataProperty _ => ["FunctionalDataProperty axiom is not allowed in QL profile"%string]
  | _ => []
  end.

Definition check_ql_assertion (a : Assertion) : list string :=
  match a with
  | SameIndividual _ => ["SameIndividual assertion is not allowed in QL profile"%string]
  | NegativeObjectPropertyAssertion _ _ _ =>
      ["NegativeObjectPropertyAssertion is not allowed in QL profile"%string]
  | NegativeDataPropertyAssertion _ _ _ =>
      ["NegativeDataPropertyAssertion is not allowed in QL profile"%string]
  | _ => []
  end.

Definition check_ql_profile (o : Ontology) : list string :=
  flat_map (fun ax =>
    match ax with
    | Ax_Class a => check_ql_class_axiom a
    | Ax_ObjectProperty a => check_ql_object_property_axiom a
    | Ax_DataProperty a => check_ql_data_property_axiom a
    | Ax_Assertion a => check_ql_assertion a
    end) (axioms o).

Definition is_rl_object_property_expression (e : ObjectPropertyExpression) : bool :=
  match e with
  | OPE_ObjectProperty _ | InverseObjectProperty _ => true
  | ObjectPropertyChain _ => false
  end.

(** [filler.as_ref().map_or(true, f)] *)
Definition map_or_true (f : ClassExpression -> bool) (o : option ClassExpression) : bool :=
  match o with None => true | Some e => f e end.

Fixpoint is_rl_class_expression (e : ClassExpression) : bool :=
  match e with
  | CE_Class _ => true
  | ObjectIntersectionOf l | ObjectUnionOf l => forallb is_rl_class_expression l
  | ObjectComplementOf e' => is_rl_class_expression e'
  | ObjectOneOf l => negb (match l with [] => true | _ => false end)
  | ObjectSomeValuesFrom p f | ObjectAllValuesFrom p f =>
      is_rl_object_property_expression p && is_rl_class_expression f
  | ObjectHasValue p _ | ObjectHasSelf p => is_rl_object_property_expression p
  | ObjectMinCardinality n p f | ObjectMaxCardinality n p f | ObjectExactCardinality n p f =>
      N.leb n 1 && is_rl_object_property_expression p &&
      match f with None => true | Some f' => is_rl_class_expression f' end
  end.

Fixpoint is_rl_valid_class_expression (e : ClassExpression) : bool :=
  match e with
  | CE_Class _ => true
  | ObjectIntersectionOf l | ObjectUnionOf l => forallb is_rl_valid_class_expression l
  | ObjectComplementOf e' => is_rl_valid_class_expression e'
  | ObjectOneOf l => negb (match l with [] => true | _ => false end)
  | ObjectSomeValuesFrom _ f | ObjectAllValuesFrom _ f => is_rl_valid_class_expression f
  | ObjectHasValue _ _ | ObjectHasSelf _ => true
  | ObjectMinCardinality n _ f | ObjectMaxCardinality n _ f | ObjectExactCardinality n _ f =>
      N.leb n 1 && match f with None => true | Some f' => is_rl_valid_class_expression f' end
  end.

Fixpoint is_rl_subclass_expression (e : ClassExpression) : bool :=
  match e with
  | CE_Class _ => true
  | ObjectIntersectionOf l | ObjectUnionOf l => forallb is_rl_subclass_expression l
  | ObjectOneOf l => negb (match l with [] => true | _ => false end)
  | ObjectSomeValuesFrom p f => is_rl_object_property_expression p && is_rl_class_expression f
  | ObjectHasValue p _ => is_rl_object_property_expression p
  | _ => false
  end.

Fixpoint is_rl_superclass_expression (e : ClassExpression) : bool :=
  match e with
  | CE_Class _ => true
  | ObjectIntersectionOf l => forallb is_rl_superclass_expression l
  | ObjectComplementOf e' => is_rl_class_expression e'
  | ObjectSomeValuesFrom p f | ObjectAllValuesFrom p f =>
      is_rl_object_property_expression p && is_rl_class_expression f
  | ObjectHasValue p _ => is_rl_object_property_expression p
  | ObjectMaxCardinality n p f =>
      N.leb n 1 && is_rl_object_property_expression p && map_or_true is_rl_class_expression f
  | _ => false
  end.

Fixpoint is_rl_equivalent_expression (e : ClassExpression) : bool :=
  match e with
  | CE_Class _ => true
  | ObjectIntersectionOf l => forallb is_rl_equivalent_expression l
  | ObjectHasValue p _ => is_rl_object_property_expression p
  | _ => false
  end.

Definition check_rl_class_axiom (a : ClassAxiom) : list string :=
  match a with
  | SubClassOf sub super =>
      unless (is_rl_subclass_expression sub) "SubClassOf axiom has non-RL subclass expression" ++
      unless (is_rl_superclass_expression super) "SubClassOf axiom has non-RL superclass expression"
  | EquivalentClasses l =>
      flat_map (fun e => unless (is_rl_equivalent_expression e)
                "EquivalentClasses axiom has non-RL class expression") l
  | DisjointClasses l =>
      flat_map (fun e => unless (is_rl_valid_class_expression e)
                "DisjointClasses axiom has non-RL class expression") l
  | DisjointUnion _ _ => ["DisjointUnion axiom is not allowed in RL profile"%string]
  end.

Definition check_rl_object_property_axiom (a : ObjectPropertyAxiom) : list string :=
  match a with
  | ReflexiveObjectProperty _ => ["ReflexiveObjectProperty axiom is not allowed in RL profile"%string]
  | _ => []
  end.

Definition check_rl_data_property_axiom (a : DataPropertyAxiom) : list string := [].

Definition check_rl_assertion (a : Assertion) : list string :=
  match a with
  | ClassAssertion c _ =>
      unless (is_rl_superclass_expression c) "ClassAssertion has non-RL class expression"
  | _ => []
  end.

Definition check_rl_profile (o : Ontology) : list string :=
  flat_map (fun ax =>
    match ax with
    | Ax_Class a => check_rl_class_axiom a
    | Ax_ObjectProperty a => check_rl_object_property_axiom a
    | Ax_DataProperty a => check_rl_data_property_axiom a
    | Ax_Assertion a => check_rl_assertion a
    end) (axioms o).

(** [check_profile_compliance] *)
Definition check_profile_compliance (o : Ontology) (p : OwlProfile) : ProfileCheckResult :=
  let vs := match p with
            | EL => check_el_profile o
            | QL => check_ql_profile o
            | RL => check_rl_profile o
            | Full => []
            end in
  mkProfileCheckResult p (match vs with [] => true | _ => false end) vs.

(** ** Nested induction principles for the syntax *)

Section ExpressionInduction.
  Variable P : ObjectPropertyExpression -> Prop.
  Hypothesis H_prop : forall p, P (OPE_ObjectProperty p).
  Hypothesis H_inv : forall p, P (InverseObjectProperty p).
  Hypothesis H_chain : forall l, Forall P l -> P (ObjectPropertyChain l).

Fixpoint ope_ind_deep (e : ObjectPropertyExpression) : P e :=
    match e with
    | OPE_ObjectProperty p => H_prop p
    | InverseObjectProperty p => H_inv p
    | ObjectPropertyChain l =>
        H_chain l ((fix go (l : list ObjectPropertyExpression) : Forall P l :=
                      match l with
                      | [] => Forall_nil P
                      | x :: r => Forall_cons x (ope_ind_deep x) (go r)
                      end) l)
    end.
End ExpressionInduction.

Section ClassExpressionInduction.
  Variable P : ClassExpression -> Prop.
Definition OptP (f : option ClassExpression) : Prop :=
    match f with None => True | Some e => P e end.
  Hypothesis H_class : forall c, P (CE_Class c).
  Hypothesis H_inter : forall l, Forall P l -> P (ObjectIntersectionOf l).
  Hypothesis H_union : forall l, Forall P l -> P (ObjectUnionOf l).
  Hypothesis H_compl : forall e, P e -> P (ObjectComplementOf e).
  Hypothesis H_oneof : forall l, P (ObjectOneOf l).
  Hypothesis H_some : forall p e, P e -> P (ObjectSomeValuesFrom p e).
  Hypothesis H_all : forall p e, P e -> P (ObjectAllValuesFrom p e).
  Hypothesis H_value : forall p i, P (ObjectHasValue p i).
  Hypothesis H_self : forall p, P (ObjectHasSelf p).
  Hypothesis H_min : forall n p f, OptP f -> P (ObjectMinCardinality n p f).
  Hypothesis H_max : forall n p f, OptP f -> P (ObjectMaxCardinality n p f).
  Hypothesis H_exact : forall n p f, OptP f -> P (ObjectExactCardinality n p f).

Fixpoint ce_ind_deep (e : ClassExpression) : P e :=
    let fix go (l : list ClassExpression) : Forall P l :=
      match l with
      | [] => Forall_nil P
      | x :: r => Forall_cons x (ce_ind_deep x) (go r)
      end in
    let opt (f : option ClassExpression) : OptP f :=
      match f with None => I | Some e' => ce_ind_deep e' end in
    match e with
    | CE_Class c => H_class c
    | ObjectIntersectionOf l => H_inter l (go l)
    | ObjectUnionOf l => H_union l (go l)
    | ObjectComplementOf e' => H_compl e' (ce_ind_deep e')
    | ObjectOneOf l => H_oneof l
    | ObjectSomeValuesFrom p e' => H_some p e' (ce_ind_deep e')
    | ObjectAllValuesFrom p e' => H_all p e' (ce_ind_deep e')
    | ObjectHasValue p i => H_value p i
    | ObjectHasSelf p => H_self p
    | ObjectMinCardinality n p f => H_min n p f (opt f)
    | ObjectMaxCardinality n p f => H_max n p f (opt f)
    | ObjectExactCardinality n p f => H_exact n p f (opt f)
    end.
End ClassExpressionInduction.

(** ** Example inputs *)

Module Examples.

Definition ex_class (s : string) : Class := mkClass (mkIRI s).
Definition ex_named (s : string) : Individual := Named (mkIRI s).
Definition ex_prop (s : string) : ObjectPropertyExpression :=
  OPE_ObjectProperty (mkObjectProperty (mkIRI s)).
Definition ex_ce (s : string) : ClassExpression := CE_Class (ex_class s).
Definition ex_anon (s : string) : Individual := Anonymous (mkNodeID s).
Definition class_assertion (c : ClassExpression) (i : Individual) : OwlAxiom :=
  Ax_Assertion (ClassAssertion c i).
Definition property_assertion (p : ObjectPropertyExpression) (a b : Individual) : OwlAxiom :=
  Ax_Assertion (ObjectPropertyAssertion p a b).
Definition subclass_axiom (c d : ClassExpression) : OwlAxiom := Ax_Class (SubClassOf c d).

(** Subsumption by transitivity. *)
Definition ont_transitive : Ontology :=
  mkOntology [] [subclass_axiom (ex_ce "u:Student") (ex_ce "u:Person");
                 subclass_axiom (ex_ce "u:GradStudent") (ex_ce "u:Student");
                 class_assertion (ex_ce "u:GradStudent") (ex_named "u:j")].

(** [i : A ⊔ B] and [i : ¬A]. *)
Definition ont_union : Ontology :=
  mkOntology [] [class_assertion (ObjectUnionOf [ex_ce "A"; ex_ce "B"]) (ex_named "i");
                 class_assertion (ObjectComplementOf (ex_ce "A")) (ex_named "i")].

(** The graph obtained from [ont_union] by selecting the second disjunct. *)
Definition graph_union_second : CompletionGraph :=
  mkGraph [mkNode (ex_named "i")
             [ObjectUnionOf [ex_ce "A"; ex_ce "B"]; ObjectComplementOf (ex_ce "A"); ex_ce "B"]
             []] 0.

(** Existential induces fresh. *)
Definition ont_cyclic : Ontology :=
  mkOntology [] [subclass_axiom (ex_ce "u:Person")
                   (ObjectSomeValuesFrom (ex_prop "u:hasParent") (ex_ce "u:Person"));
                 class_assertion (ex_ce "u:Person") (ex_named "u:i")].

(** [i : ∃P.(∃Q.A)] and [i : ∃Q.A]: the successor of [i] carries a subset
    of the concepts of [i]. *)
Definition ont_unblocked : Ontology :=
  let e := ObjectSomeValuesFrom (ex_prop "Q") (ex_ce "A") in
  mkOntology [] [class_assertion (ObjectSomeValuesFrom (ex_prop "P") e) (ex_named "i");
                 class_assertion e (ex_named "i")].

(** [i : A] and [i : ¬A]. *)
Definition ont_clash : Ontology :=
  mkOntology [] [class_assertion (ex_ce "A") (ex_named "i");
                 class_assertion (ObjectComplementOf (ex_ce "A")) (ex_named "i")].

(** Disjointness. *)
Definition ont_disjoint : Ontology :=
  mkOntology [] [Ax_Class (DisjointClasses [ex_ce "u:S"; ex_ce "u:E"]);
                 class_assertion (ex_ce "u:S") (ex_named "u:i");
                 class_assertion (ex_ce "u:E") (ex_named "u:i")].

(** A node [a] with [∃P.A] and a [P]-successor [b] lacking [A]. *)
Definition graph_successor : CompletionGraph :=
  mkGraph [mkNode (ex_named "a") [ObjectSomeValuesFrom (ex_prop "P") (ex_ce "A")]
             [(ex_prop "P", ex_named "b")];
           mkNode (ex_named "b") [] []] 0.

(** [a : ∃P.A], [P(a, b)], [b : ¬A]; the larger ontology also has [P(a, c)]
    in front. *)
Definition ont_small : Ontology :=
  mkOntology [] [class_assertion (ObjectSomeValuesFrom (ex_prop "P") (ex_ce "A")) (ex_named "a");
                 property_assertion (ex_prop "P") (ex_named "a") (ex_named "b");
                 class_assertion (ObjectComplementOf (ex_ce "A")) (ex_named "b")].

Definition ont_large : Ontology :=
  mkOntology [] (property_assertion (ex_prop "P") (ex_named "a") (ex_named "c")
                 :: axioms ont_small).

(** [ont_small] with a class axiom added. *)
Definition ont_small_tbox : Ontology :=
  mkOntology [] (subclass_axiom (ex_ce "A") (ex_ce "B") :: axioms ont_small).

(** EL profile violation. *)
Definition ont_el_union : Ontology :=
  mkOntology [] [subclass_axiom (ObjectUnionOf [ex_ce "u:A"; ex_ce "u:B"]) (ex_ce "u:C")].

(** An input anonymous individual named like the first fresh individual. *)
Definition ont_fresh_collision : Ontology :=
  mkOntology [] [class_assertion (ObjectSomeValuesFrom (ex_prop "P") (ex_ce "A")) (ex_named "a");
                 class_assertion (ex_ce "B") (ex_anon "_:fresh1")].

End Examples.

(** ** Notions used to state properties *)

(** The node of [x] the engine works with: the first one. *)
Definition node_of (g : CompletionGraph) (x : Individual) : option Node :=
  find (fun n => individual_eqb (individual n) x) (nodes g).

(** Every ⊔-concept of every node has one of its disjuncts in the node. *)
Definition union_satisfied (g : CompletionGraph) : bool :=
  forallb (fun n =>
    forallb (fun c =>
      match c with
      | ObjectUnionOf l => existsb (contains_ce (concepts n)) l
      | _ => true
      end) (concepts n)) (nodes g).

(** How many nodes carry the individual [x]. *)
Definition count_nodes (g : CompletionGraph) (x : Individual) : nat :=
  List.length (filter (fun n => individual_eqb (individual n) x) (nodes g)).

(** The assertions of an ontology, in order. *)
Definition assertions_of (o : Ontology) : list OwlAxiom :=
  filter (fun ax => match ax with Ax_Assertion _ => true | _ => false end) (axioms o).

(** The node of [x] carries the concept [c]. *)
Definition carries (g : CompletionGraph) (x : Individual) (c : ClassExpression) : Prop :=
  match node_of g x with Some m => In c (concepts m) | None => False end.

(** What the graph holds once an axiom has been read by [initialize]. *)
Definition recorded (g : CompletionGraph) (ax : OwlAxiom) : Prop :=
  match ax with
  | Ax_Assertion (ClassAssertion c i) => carries g i c
  | Ax_Assertion (ObjectPropertyAssertion p a b) =>
      exists m, node_of g a = Some m /\ In (p, b) (roles m)
  | Ax_Assertion (DataPropertyAssertion _ a _)
  | Ax_Assertion (NegativeObjectPropertyAssertion _ a _)
  | Ax_Assertion (NegativeDataPropertyAssertion _ a _) => node_of g a <> None
  | Ax_Assertion (SameIndividual l) | Ax_Assertion (DifferentIndividuals l) =>
      forall i, In i l -> node_of g i <> None
  | _ => True
  end.

(** No rule can add anything to [g]: the conjuncts and the first disjunct
    are at the node of the individual, an ∃-concept has a successor for
    its property whose node (if any) has the filler, and every successor
    node along a ∀-property has the filler. *)
Definition saturated (g : CompletionGraph) : Prop :=
  forall n c, In n (nodes g) -> In c (concepts n) ->
  match c with
  | ObjectIntersectionOf l => forall e, In e l -> carries g (individual n) e
  | ObjectUnionOf (e :: _) => carries g (individual n) e
  | ObjectSomeValuesFrom p e =>
      exists m t, node_of g (individual n) = Some m /\ first_target (roles m) p = Some t /\
                  (node_of g t = None \/ carries g t e)
  | ObjectAllValuesFrom p e =>
      forall m t, node_of g (individual n) = Some m -> In (p, t) (roles m) ->
                  node_of g t = None \/ carries g t e
  | _ => True
  end.

(** The class expressions an axiom holds (for a [DisjointUnion], its class
    as well); an axiom of another kind, such as [HasKey], holds none. *)
Definition axiom_class_expressions (ax : OwlAxiom) : list ClassExpression :=
  match ax with
  | Ax_Class (SubClassOf sub super) => [sub; super]
  | Ax_Class (EquivalentClasses l) | Ax_Class (DisjointClasses l) => l
  | Ax_Class (DisjointUnion c l) => CE_Class c :: l
  | Ax_ObjectProperty (ObjectPropertyDomain _ d) | Ax_ObjectProperty (ObjectPropertyRange _ d) => [d]
  | Ax_DataProperty (DataPropertyDomain _ d) => [d]
  | Ax_Assertion (ClassAssertion c _) => [c]
  | _ => []
  end.

(** [v] is listed under [k] in a [ClassMap]. *)
Definition mem_class (m : ClassMap) (k v : Class) : Prop :=
  match lookup_class m k with Some l => In v l | None => False end.

(** ** Measures for the termination argument

    These definitions are not part of the program: they describe the
    finite resources the expansion loop consumes. *)

(** Height of a class expression. *)
Fixpoint depth (c : ClassExpression) : nat :=
  match c with
  | ObjectIntersectionOf l | ObjectUnionOf l => S (list_max (map depth l))
  | ObjectComplementOf e | ObjectSomeValuesFrom _ e | ObjectAllValuesFrom _ e => S (depth e)
  | ObjectMinCardinality _ _ (Some e) | ObjectMaxCardinality _ _ (Some e)
  | ObjectExactCardinality _ _ (Some e) => S (depth e)
  | _ => 0
  end.

(** A class expression followed by all its sub-expressions. *)
Fixpoint subterms (c : ClassExpression) : list ClassExpression :=
  c :: match c with
       | ObjectIntersectionOf l | ObjectUnionOf l => flat_map subterms l
       | ObjectComplementOf e | ObjectSomeValuesFrom _ e | ObjectAllValuesFrom _ e => subterms e
       | ObjectMinCardinality _ _ (Some e) | ObjectMaxCardinality _ _ (Some e)
       | ObjectExactCardinality _ _ (Some e) => subterms e
       | _ => []
       end.

(** The sub-expressions of the concepts of a graph. *)
Definition closure (g : CompletionGraph) : list ClassExpression :=
  flat_map subterms (flat_map concepts (nodes g)).

(** The properties of the existential restrictions of a list of concepts. *)
Definition some_properties (sc : list ClassExpression) : list ObjectPropertyExpression :=
  flat_map (fun c => match c with ObjectSomeValuesFrom p _ => [p] | _ => [] end) sc.

(** The individuals a graph mentions: its nodes and its role targets. *)
Definition graph_individuals (g : CompletionGraph) : list Individual :=
  map individual (nodes g) ++ flat_map (fun n => map snd (roles n)) (nodes g).

(** Whether the node of [x] has no [p]-edge, i.e. whether the ∃-rule can
    still mint a successor of [x] for [p]. *)
Definition lacks (g : CompletionGraph) (x : Individual) (p : ObjectPropertyExpression) : bool :=
  match node_of g x with
  | Some n => match first_target (roles n) p with None => true | Some _ => false end
  | None => true
  end.

(** The successors still to be minted, each weighted by the room left
    below it: [Σ_{x ∈ L} Σ_{p ∈ props} [lacks x p] · (|props|+1)^(h x)]. *)
Definition Phi (props : list ObjectPropertyExpression) (g : CompletionGraph)
  (L : list Individual) (h : Individual -> nat) : nat :=
  list_sum (map (fun x =>
    list_sum (map (fun p => if lacks g x p then S (List.length props) ^ h x else 0) props)) L).

(** The elements of [sc] a node does not carry yet. *)
Definition missing (sc : list ClassExpression) (n : Node) : nat :=
  List.length (filter (fun s => negb (contains_ce (concepts n) s)) sc).

Definition Psi (sc : list ClassExpression) (g : CompletionGraph) : nat :=
  list_sum (map (missing sc) (nodes g)).

Definition measure (sc : list ClassExpression) (props : list ObjectPropertyExpression)
  (g : CompletionGraph) (L : list Individual) (h : Individual -> nat) : nat :=
  Phi props g L h * S (List.length sc) + Psi sc g.

(** The invariant of the expansion, for the concepts [sc], the initial
    individuals [I0] and the bound [H], with a list [L] of the individuals
    known so far and a height [h] for each. *)
Record Inv (sc : list ClassExpression) (I0 : list Individual) (H : nat)
  (g : CompletionGraph) (L : list Individual) (h : Individual -> nat) : Prop := {
  inv_nodes : forall n, In n (nodes g) -> In (individual n) L;
  inv_roles : forall n p t, In n (nodes g) -> In (p, t) (roles n) ->
                In t L /\ h (individual n) <= S (h t);
  inv_concepts : forall n c, In n (nodes g) -> In c (concepts n) ->
                   In c sc /\ depth c <= h (individual n);
  inv_fresh : forall y, In y L -> In y I0 \/ exists m, y = fresh_name m /\ (m <= next_fresh_id g)%N;
  inv_init : forall y, In y I0 -> In y L /\ h y = H;
  inv_height : forall y, In y L -> h y <= H
}.

(** [g'] extends [g]: every node of [g] is still at its index with the same
    individual and at least its concepts and roles. *)
Definition Ext (g g' : CompletionGraph) : Prop :=
  forall k n, nth_error (nodes g) k = Some n ->
  exists n', nth_error (nodes g') k = Some n' /\ individual n' = individual n /\
             incl (concepts n) (concepts n') /\ incl (roles n) (roles n').

(** A rule run from [(g, flag)] to [st'] keeps the invariant, only extends
    the graph, does not increase the measure, and decreases it whenever it
    raises the flag. *)
Definition progress (sc : list ClassExpression) (props : list ObjectPropertyExpression)
  (I0 : list Individual) (H : nat) (g : CompletionGraph) (L : list Individual)
  (h : Individual -> nat) (flag : bool) (st' : CompletionGraph * bool) : Prop :=
  exists L' h', Inv sc I0 H (fst st') L' h' /\ Ext g (fst st') /\
    measure sc props (fst st') L' h' <= measure sc props g L h /\
    (snd st' = true -> flag = true \/ measure sc props (fst st') L' h' < measure sc props g L h).

(** * Proofs *)

(** ** Structural equality is equality *)

Lemma iri_eqb_eq (a b : IRI) : iri_eqb a b = true <-> a = b.
Proof.
  destruct a, b; simpl; rewrite String.eqb_eq; split; congruence.
Qed.

Lemma nodeid_eqb_eq (a b : NodeID) : nodeid_eqb a b = true <-> a = b.
Proof.
  destruct a, b; simpl; rewrite String.eqb_eq; split; congruence.
Qed.

Lemma class_eqb_eq (a b : Class) : class_eqb a b = true <-> a = b.
Proof.
  destruct a, b; simpl; rewrite iri_eqb_eq; split; congruence.
Qed.

Lemma op_eqb_eq (a b : ObjectProperty) : op_eqb a b = true <-> a = b.
Proof.
  destruct a, b; simpl; rewrite iri_eqb_eq; split; congruence.
Qed.

Lemma individual_eqb_eq (a b : Individual) : individual_eqb a b = true <-> a = b.
Proof.
  destruct a, b; simpl;
    try (rewrite iri_eqb_eq || rewrite nodeid_eqb_eq); split; congruence.
Qed.

Lemma list_eqb_eq {A} (eqb : A -> A -> bool) (l : list A) :
  Forall (fun x => forall y, eqb x y = true <-> x = y) l ->
  forall m, list_eqb eqb l m = true <-> l = m.
Proof.
  induction 1 as [|x l Hx _ IH]; intros [|y m]; simpl; try (split; congruence).
  rewrite andb_true_iff, Hx, IH. split; [intros [-> ->]; reflexivity | injection 1; auto].
Qed.



Lemma ope_eqb_eq (a b : ObjectPropertyExpression) : ope_eqb a b = true <-> a = b.
Proof.
  revert b; induction a as [p|p|l IH] using ope_ind_deep; intros [q|q|m]; simpl;
    try (split; congruence); try (rewrite op_eqb_eq; split; congruence).
  rewrite (list_eqb_eq _ l IH m). split; congruence.
Qed.



Lemma ce_eqb_eq (a b : ClassExpression) : ce_eqb a b = true <-> a = b.
Proof.
  revert b.
  induction a as [c|l IH|l IH|e IH|l|p e IH|p e IH|p i|p|n p f IH|n p f IH|n p f IH]
    using ce_ind_deep;
    intros [d|m|m|e'|m|q e'|q e'|q j|q|n' q f'|n' q f'|n' q f']; simpl;
    try (split; congruence).
  - rewrite class_eqb_eq; split; congruence.
  - rewrite (list_eqb_eq _ l IH m); split; congruence.
  - rewrite (list_eqb_eq _ l IH m); split; congruence.
  - rewrite IH; split; congruence.
  - assert (Hl : Forall (fun x => forall y, individual_eqb x y = true <-> x = y) l)
      by (apply Forall_forall; intros; apply individual_eqb_eq).
    rewrite (list_eqb_eq _ l Hl m); split; congruence.
  - rewrite andb_true_iff, ope_eqb_eq, IH; split; [intros [-> ->]|injection 1]; auto.
  - rewrite andb_true_iff, ope_eqb_eq, IH; split; [intros [-> ->]|injection 1]; auto.
  - rewrite andb_true_iff, ope_eqb_eq, individual_eqb_eq;
      split; [intros [-> ->]|injection 1]; auto.
  - rewrite ope_eqb_eq; split; congruence.
  - rewrite !andb_true_iff, N.eqb_eq, ope_eqb_eq.
    destruct f as [e|], f' as [e'|]; simpl in *;
      try (rewrite IH); split; try (intros [[-> ->] H]; try congruence);
      try (injection 1; intros; subst; auto); try discriminate; intuition congruence.
  - rewrite !andb_true_iff, N.eqb_eq, ope_eqb_eq.
    destruct f as [e|], f' as [e'|]; simpl in *;
      try (rewrite IH); split; try (intros [[-> ->] H]; try congruence);
      try (injection 1; intros; subst; auto); try discriminate; intuition congruence.
  - rewrite !andb_true_iff, N.eqb_eq, ope_eqb_eq.
    destruct f as [e|], f' as [e'|]; simpl in *;
      try (rewrite IH); split; try (intros [[-> ->] H]; try congruence);
      try (injection 1; intros; subst; auto); try discriminate; intuition congruence.
Qed.

(** ** Concrete runs *)

Import Examples.

(** C1 (counterexample): on the transitive-subsumption ontology,
    [is_instance_of(j, Person)] does not return true. *)
Lemma transitive_example_not_instance :
  ~ exists r, is_instance_of 20 (TableauReasoner_new ont_transitive)
                (ex_named "u:j") (ex_class "u:Person") = Ok (r, true).
Proof. intros [r H]. vm_compute in H. congruence. Qed.

(** C1 (amended): on the transitive-subsumption ontology [is_consistent]
    returns true, but [is_instance_of(j, Person)] returns false and
    [classify] records no link: the [SubClassOf] axioms are never used. *)
Lemma transitive_example_told_only :
  (exists r, is_consistent 20 (TableauReasoner_new ont_transitive) = Ok (r, true)) /\
  (exists r, is_instance_of 20 (TableauReasoner_new ont_transitive)
               (ex_named "u:j") (ex_class "u:Person") = Ok (r, false)) /\
  (exists r, classify 20 (TableauReasoner_new ont_transitive) = Ok (r, ClassHierarchy_new)).
Proof. split; [|split]; eexists; vm_compute; reflexivity. Qed.

(** C2 (counterexample): [is_consistent] returns false on
    [i : A ⊔ B, i : ¬A], although selecting [B] gives a clash-free graph
    in which no rule adds anything and every union has a disjunct. *)
Lemma union_example_no_backtracking :
  (exists r, is_consistent 20 (TableauReasoner_new ont_union) = Ok (r, false)) /\
  add_concept (graph (initialize (TableauReasoner_new ont_union))) (ex_named "i") (ex_ce "B")
    = graph_union_second /\
  has_clash graph_union_second = false /\
  union_satisfied graph_union_second = true /\
  apply_conjunction_rule 1 graph_union_second = Ok (graph_union_second, false) /\
  apply_existential_rule graph_union_second = Ok (graph_union_second, false) /\
  apply_universal_rule graph_union_second = Ok (graph_union_second, false).
Proof. split; [eexists; vm_compute; reflexivity | vm_compute; repeat split]. Qed.

(** C3 (counterexample): on [ont_unblocked], the successor [_:fresh1] of [i]
    carries a subset of the concepts of [i], yet it is expanded: it gets a
    successor of its own (no subset blocking). *)
Lemma unblocked_example_expanded :
  exists r b, is_consistent 20 (TableauReasoner_new ont_unblocked) = Ok (r, b) /\
  match node_of (graph r) (ex_named "i"), node_of (graph r) (ex_anon "_:fresh1") with
  | Some na, Some nj =>
      In (ex_prop "P", ex_anon "_:fresh1") (roles na) /\
      incl (concepts nj) (concepts na) /\ roles nj <> []
  | _, _ => False
  end.
Proof.
  do 2 eexists. split; [vm_compute; reflexivity|].
  vm_compute. split; [left; reflexivity | split; [|discriminate]].
  intros x [<-|[]]. right; left; reflexivity.
Qed.

(** C4 (counterexample): [i : A, i : ¬A] is inconsistent, and
    [is_instance_of(i, A)] does not return true. *)
Lemma clash_example_instance_not_true :
  (exists r, is_consistent 20 (TableauReasoner_new ont_clash) = Ok (r, false)) /\
  ~ exists r, is_instance_of 20 (TableauReasoner_new ont_clash)
                (ex_named "i") (ex_class "A") = Ok (r, true).
Proof.
  split; [eexists; vm_compute; reflexivity|].
  intros [r H]. vm_compute in H. congruence.
Qed.

(** C5 (counterexample): with [DisjointClasses(S, E)], [i : S] and [i : E],
    [is_consistent] does not return false. *)
Lemma disjoint_example_not_inconsistent :
  ~ exists r, is_consistent 20 (TableauReasoner_new ont_disjoint) = Ok (r, false).
Proof. intros [r H]. vm_compute in H. congruence. Qed.

(** C5 (amended): with [DisjointClasses(S, E)], [i : S] and [i : E],
    [is_consistent] returns true: disjointness axioms are not used. *)
Lemma disjoint_example_consistent :
  exists r, is_consistent 20 (TableauReasoner_new ont_disjoint) = Ok (r, true).
Proof. eexists. vm_compute. reflexivity. Qed.

(** C6 (counterexample): [a] has [∃P.A] and a [P]-successor [b] whose label
    lacks [A]; the ∃-rule mints no node (it adds [A] to [b]). *)
Lemma successor_example_no_fresh :
  exists g', apply_existential_rule graph_successor = Ok (g', true) /\
  List.length (nodes g') = List.length (nodes graph_successor) /\
  next_fresh_id g' = next_fresh_id graph_successor /\
  node_of g' (ex_named "b") = Some (mkNode (ex_named "b") [ex_ce "A"] []).
Proof. eexists. vm_compute. repeat split. Qed.

(** C7 (counterexample): [ont_small] is contained in [ont_large],
    [is_consistent] returns true on [ont_large] and false on [ont_small]. *)
Lemma monotonicity_counterexample :
  incl (axioms ont_small) (axioms ont_large) /\
  (exists r, is_consistent 20 (TableauReasoner_new ont_large) = Ok (r, true)) /\
  (exists r, is_consistent 20 (TableauReasoner_new ont_small) = Ok (r, false)).
Proof.
  split; [intros x Hx; right; exact Hx|].
  split; eexists; vm_compute; reflexivity.
Qed.

(** C8 (amended): for [SubClassOf(ObjectUnionOf(A, B), C)], the EL check
    returns [conforms = false] with the single fixed violation about the
    subclass position (it does not name the union), and the RL check
    returns [conforms = true]. *)
Lemma el_union_example :
  check_profile_compliance ont_el_union EL =
    mkProfileCheckResult EL false ["SubClassOf axiom has non-EL subclass expression"%string] /\
  conforms (check_profile_compliance ont_el_union RL) = true.
Proof. split; vm_compute; reflexivity. Qed.

(** C8 (counterexample): the EL violation does not name the union. The
    same single string is reported when the subclass expression is a
    complement instead of a union, and the string contains neither the
    word [Union] nor the classes [u:A] and [u:B]. *)
Lemma el_union_violation_not_naming_union :
  violations (check_profile_compliance ont_el_union EL) =
  violations (check_profile_compliance
                (mkOntology [] [subclass_axiom (ObjectComplementOf (ex_ce "u:A")) (ex_ce "u:C")]) EL) /\
  Forall (fun v => String.index 0 "Union" v = None /\ String.index 0 "u:A" v = None /\
                   String.index 0 "u:B" v = None)
         (violations (check_profile_compliance ont_el_union EL)).
Proof. split; [vm_compute; reflexivity | vm_compute; repeat constructor]. Qed.

(** C9 (counterexample): [add_role] on the empty graph with target [b]
    creates no node for [b]. *)
Lemma add_role_example_no_target :
  count_nodes (add_role CompletionGraph_new (ex_named "a") (ex_prop "P") (ex_named "b"))
    (ex_named "b") = 0.
Proof. vm_compute. reflexivity. Qed.

(** C10: on [ont_fresh_collision] the ∃-rule pushes a node for [_:fresh1]
    although the input individual [_:fresh1] already has one: the final
    graph has two nodes for that individual. *)
Lemma fresh_collision_duplicate_node :
  exists r b, is_consistent 20 (TableauReasoner_new ont_fresh_collision) = Ok (r, b) /\
  count_nodes (graph r) (ex_anon "_:fresh1") = 2.
Proof. do 2 eexists. split; [vm_compute; reflexivity | vm_compute; reflexivity]. Qed.

Lemma contains_ce_In (l : list ClassExpression) (c : ClassExpression) :
  contains_ce l c = true <-> In c l.
Proof.
  unfold contains_ce. rewrite existsb_exists. split.
  - intros [x [Hx He]]. apply ce_eqb_eq in He. subst. exact Hx.
  - intros H. exists c. split; [exact H | apply ce_eqb_eq; reflexivity].
Qed.

Lemma contains_role_In l r : contains_role l r = true <-> In r l.
Proof.
  unfold contains_role. rewrite existsb_exists. split.
  - intros [[p t] [Hx He]]. destruct r as [q u]. unfold role_eqb in He. simpl in He.
    apply andb_true_iff in He as [H1 H2].
    apply ope_eqb_eq in H1. apply individual_eqb_eq in H2. subst. exact Hx.
  - intros H. exists r. split; [exact H|]. destruct r as [q u]. unfold role_eqb. simpl.
    apply andb_true_iff. split; [apply ope_eqb_eq | apply individual_eqb_eq]; reflexivity.
Qed.

(** ** Lists of nodes *)

Lemma position_Some i l k :
  position i l = Some k -> exists n, nth_error l k = Some n /\ individual n = i.
Proof.
  revert k; induction l as [|m l IH]; simpl; intros k H; [discriminate|].
  destruct (individual_eqb (individual m) i) eqn:E.
  - injection H as <-. exists m. split; [reflexivity | apply individual_eqb_eq; exact E].
  - destruct (position i l) as [k'|] eqn:P; simpl in H; [|discriminate].
    injection H as <-. simpl. apply IH. reflexivity.
Qed.

Lemma position_None i l :
  position i l = None -> forall n, In n l -> individual n <> i.
Proof.
  induction l as [|m l IH]; simpl; intros H n Hn; [destruct Hn|].
  destruct (individual_eqb (individual m) i) eqn:E; [discriminate|].
  destruct (position i l) eqn:P; [discriminate|].
  destruct Hn as [<-|Hn].
  - intros Heq. apply individual_eqb_eq in Heq. congruence.
  - apply IH; auto.
Qed.

Lemma position_app_None i l m :
  position i l = None -> position i (l ++ m) = option_map (Nat.add (List.length l)) (position i m).
Proof.
  induction l as [|n l IH]; simpl; intros H.
  - destruct (position i m); reflexivity.
  - destruct (individual_eqb (individual n) i); [discriminate|].
    destruct (position i l); [discriminate|]. rewrite IH by reflexivity.
    destruct (position i m); reflexivity.
Qed.

Lemma position_app_Some i l m k :
  position i l = Some k -> position i (l ++ m) = Some k.
Proof.
  revert k; induction l as [|n l IH]; simpl; intros k H; [discriminate|].
  destruct (individual_eqb (individual n) i); [exact H|].
  destruct (position i l) as [k'|]; simpl in H; [|discriminate].
  rewrite (IH k' eq_refl). exact H.
Qed.

Lemma node_of_position g x :
  node_of g x = match position x (nodes g) with
                | Some k => nth_error (nodes g) k
                | None => None
                end.
Proof.
  unfold node_of. induction (nodes g) as [|n l IH]; simpl; [reflexivity|].
  destruct (individual_eqb (individual n) x); [reflexivity|].
  rewrite IH. destruct (position x l); reflexivity.
Qed.

Lemma modify_nth_Some k f l n :
  nth_error l k = Some n ->
  exists l', modify_nth k f l = Some l'.
Proof.
  revert k; induction l as [|m l IH]; intros [|k] H; simpl in *; try discriminate.
  - eexists; reflexivity.
  - destruct (IH k H) as [l' ->]. eexists; reflexivity.
Qed.

Lemma modify_nth_length k f l l' :
  modify_nth k f l = Some l' -> List.length l' = List.length l.
Proof.
  revert k l'; induction l as [|m l IH]; intros [|k] l' H; simpl in *; try discriminate.
  - injection H as <-. reflexivity.
  - destruct (modify_nth k f l) as [l''|] eqn:E; simpl in H; [|discriminate].
    injection H as <-. simpl. f_equal. eapply IH; eauto.
Qed.

Lemma modify_nth_nth_error k f l l' j :
  modify_nth k f l = Some l' ->
  nth_error l' j = if Nat.eqb j k then option_map f (nth_error l j) else nth_error l j.
Proof.
  revert k l' j; induction l as [|m l IH]; intros [|k] l' j H; simpl in *; try discriminate.
  - injection H as <-. destruct j; reflexivity.
  - destruct (modify_nth k f l) as [l''|] eqn:E; simpl in H; [|discriminate].
    injection H as <-. destruct j as [|j]; simpl; [reflexivity|]. eapply IH; eauto.
Qed.

Lemma modify_nth_position k f l l' i :
  (forall n, individual (f n) = individual n) ->
  modify_nth k f l = Some l' -> position i l' = position i l.
Proof.
  intros Hf. revert k l'; induction l as [|m l IH]; intros [|k] l' H; simpl in *; try discriminate.
  - injection H as <-. simpl. rewrite Hf. reflexivity.
  - destruct (modify_nth k f l) as [l''|] eqn:E; simpl in H; [|discriminate].
    injection H as <-. simpl. erewrite IH by eauto. reflexivity.
Qed.

Lemma push_concept_at_spec g k c n :
  nth_error (nodes g) k = Some n ->
  if contains_ce (concepts n) c then push_concept_at g k c = Ok (g, false)
  else exists l, modify_nth k (push_concept c) (nodes g) = Some l /\
                 push_concept_at g k c = Ok (set_nodes g l, true).
Proof.
  intros H. unfold push_concept_at. rewrite H.
  destruct (contains_ce (concepts n) c); [reflexivity|].
  destruct (modify_nth_Some k (push_concept c) _ _ H) as [l E]. rewrite E.
  exists l. split; reflexivity.
Qed.

(** ** The expansion rules, one step at a time *)

(** C2 (amended): the ⊔-rule on [ObjectUnionOf (E1 :: rest)] at the node of
    [i] adds the first disjunct [E1] to that node when it is absent and
    changes nothing else; it never selects another disjunct (there is no
    choice point to backtrack to). *)
Theorem disjunction_rule_first_disjunct g flag i k n e1 rest :
  position i (nodes g) = Some k ->
  nth_error (nodes g) k = Some n ->
  if contains_ce (concepts n) e1
  then disjunction_step i (g, flag) (ObjectUnionOf (e1 :: rest)) = Ok (g, flag)
  else exists l, modify_nth k (push_concept e1) (nodes g) = Some l /\
       disjunction_step i (g, flag) (ObjectUnionOf (e1 :: rest)) = Ok (set_nodes g l, true).
Proof.
  intros Hp Hn. unfold disjunction_step, add_to_node, get_or_create_node. rewrite Hp.
  pose proof (push_concept_at_spec g k e1 n Hn) as Hs.
  destruct (contains_ce (concepts n) e1).
  - rewrite Hs. simpl. rewrite orb_false_r. reflexivity.
  - destruct Hs as [l [Hl Hs]]. exists l. split; [exact Hl|]. rewrite Hs. simpl.
    rewrite orb_true_r. reflexivity.
Qed.

(** Witness for C2: the node of [i] in the initialized [ont_union]. *)
Lemma disjunction_rule_first_disjunct_witness :
  let g := graph (initialize (TableauReasoner_new ont_union)) in
  position (ex_named "i") (nodes g) = Some 0 /\
  disjunction_step (ex_named "i") (g, false) (ObjectUnionOf [ex_ce "A"; ex_ce "B"]) =
    Ok (set_nodes g [mkNode (ex_named "i")
                       [ObjectUnionOf [ex_ce "A"; ex_ce "B"]; ObjectComplementOf (ex_ce "A");
                        ex_ce "A"] []], true).
Proof.
  intros g. split; [vm_compute; reflexivity|].
  pose proof (disjunction_rule_first_disjunct g false (ex_named "i") 0
                (mkNode (ex_named "i")
                   [ObjectUnionOf [ex_ce "A"; ex_ce "B"]; ObjectComplementOf (ex_ce "A")] [])
                (ex_ce "A") [ex_ce "B"]) as H.
  assert (Hp : position (ex_named "i") (nodes g) = Some 0) by (vm_compute; reflexivity).
  assert (Hn : nth_error (nodes g) 0 =
               Some (mkNode (ex_named "i")
                       [ObjectUnionOf [ex_ce "A"; ex_ce "B"]; ObjectComplementOf (ex_ce "A")] []))
    by (vm_compute; reflexivity).
  specialize (H Hp Hn).
  assert (Hc : contains_ce [ObjectUnionOf [ex_ce "A"; ex_ce "B"]; ObjectComplementOf (ex_ce "A")]
                 (ex_ce "A") = false) by (vm_compute; reflexivity).
  cbv beta iota delta [concepts] in H. rewrite Hc in H. cbv beta iota in H.
  destruct H as [l [Hl H]].
  rewrite H. vm_compute in Hl. injection Hl as Hl. rewrite <- Hl. reflexivity.
Defined.

(** C4 (amended): when [is_consistent] returns false, [is_instance_of]
    returns false for every individual and class, short-circuiting on the
    consistency check. *)
Theorem inconsistent_instance_of_false fuel r i class r' :
  is_consistent fuel r = Ok (r', false) ->
  is_instance_of fuel r i class = Ok (r', false).
Proof. intros H. unfold is_instance_of. rewrite H. reflexivity. Qed.

(** Witness for C4: [ont_clash]. *)
Lemma inconsistent_instance_of_false_witness :
  exists r', is_consistent 20 (TableauReasoner_new ont_clash) = Ok (r', false) /\
  is_instance_of 20 (TableauReasoner_new ont_clash) (ex_named "i") (ex_class "A") = Ok (r', false).
Proof.
  eexists. split.
  - vm_compute. reflexivity.
  - apply inconsistent_instance_of_false. vm_compute. reflexivity.
Defined.

Lemma individual_eqb_refl x : individual_eqb x x = true.
Proof. apply individual_eqb_eq. reflexivity. Qed.

Lemma first_target_None rs p :
  first_target rs p = None <-> forall t, ~ In (p, t) rs.
Proof.
  unfold first_target. split.
  - intros H t Hin. destruct (find (fun r => ope_eqb (fst r) p) rs) eqn:E; [discriminate|].
    pose proof (find_none _ _ E _ Hin) as C. simpl in C.
    rewrite (proj2 (ope_eqb_eq p p) eq_refl) in C. discriminate.
  - intros H. destruct (find (fun r => ope_eqb (fst r) p) rs) as [[q t]|] eqn:E; [|reflexivity].
    apply find_some in E as [Hin Hq]. simpl in Hq. apply ope_eqb_eq in Hq. subst q.
    exfalso. exact (H t Hin).
Qed.

Lemma first_target_Some rs p t :
  first_target rs p = Some t -> In (p, t) rs.
Proof.
  unfold first_target. destruct (find (fun r => ope_eqb (fst r) p) rs) as [[q u]|] eqn:E;
    simpl; intros H; [|discriminate].
  injection H as <-. apply find_some in E as [Hin Hq]. simpl in Hq.
  apply ope_eqb_eq in Hq. subst q. exact Hin.
Qed.

Lemma modify_nth_last f l m :
  modify_nth (List.length l) f (l ++ [m]) = Some (l ++ [f m]).
Proof. induction l as [|n l IH]; simpl; [reflexivity|]. rewrite IH. reflexivity. Qed.

Lemma position_add_node i l m :
  position i l = None -> individual m = i -> position i (l ++ [m]) = Some (List.length l).
Proof.
  intros H <-. rewrite (position_app_None _ _ _ H). simpl. rewrite individual_eqb_refl.
  simpl. rewrite Nat.add_0_r. reflexivity.
Qed.

(** C6 (amended): the ∃-rule on [ObjectSomeValuesFrom P E] at the node of
    [i] mints a fresh individual [j] exactly when that node has no
    [P]-edge at all; it then appends the edge [(P, j)] to the node of [i]
    and a new node for [j] whose only concept is [E].  When the node has a
    [P]-edge, the rule takes the first [P]-successor [t] and adds [E] to the
    node of [t] when that node exists and lacks [E]; no node is minted. *)
Theorem existential_rule_step g flag i k n P E :
  position i (nodes g) = Some k ->
  nth_error (nodes g) k = Some n ->
  (first_target (roles n) P = None -> next_fresh_id g <> u32_max ->
   exists l,
     modify_nth k (push_role (P, fresh_name (N.succ (next_fresh_id g)))) (nodes g) = Some l /\
     existential_step i (g, flag) (ObjectSomeValuesFrom P E) =
       Ok (mkGraph (l ++ [mkNode (fresh_name (N.succ (next_fresh_id g))) [E] []])
                   (N.succ (next_fresh_id g)), true)) /\
  (forall t, first_target (roles n) P = Some t -> position t (nodes g) = None ->
   existential_step i (g, flag) (ObjectSomeValuesFrom P E) = Ok (g, flag)) /\
  (forall t tk m, first_target (roles n) P = Some t ->
   position t (nodes g) = Some tk -> nth_error (nodes g) tk = Some m ->
   if contains_ce (concepts m) E
   then existential_step i (g, flag) (ObjectSomeValuesFrom P E) = Ok (g, flag)
   else exists l, modify_nth tk (push_concept E) (nodes g) = Some l /\
        existential_step i (g, flag) (ObjectSomeValuesFrom P E) = Ok (set_nodes g l, true)).
Proof.
  intros Hp Hn. unfold existential_step. rewrite Hp, Hn. split; [|split].
  - intros Hf Hmax. rewrite Hf. unfold fresh_individual.
    apply N.eqb_neq in Hmax. rewrite Hmax. simpl.
    destruct (modify_nth_Some k (push_role (P, fresh_name (N.succ (next_fresh_id g))))
                _ _ Hn) as [l Hl].
    exists l. rewrite Hl. split; reflexivity.
  - intros t Ht Hpt. rewrite Ht, Hpt. reflexivity.
  - intros t tk m Ht Hpt Hm. rewrite Ht, Hpt.
    pose proof (push_concept_at_spec g tk E m Hm) as Hs.
    destruct (contains_ce (concepts m) E).
    + rewrite Hs. simpl. rewrite orb_false_r. reflexivity.
    + destruct Hs as [l [Hl Hs]]. exists l. split; [exact Hl|]. rewrite Hs. simpl.
      rewrite orb_true_r. reflexivity.
Qed.

(** Witness for C6: [graph_successor], where [a] already has the
    [P]-successor [b]. *)
Lemma existential_rule_step_witness :
  position (ex_named "a") (nodes graph_successor) = Some 0 /\
  existential_step (ex_named "a") (graph_successor, false)
    (ObjectSomeValuesFrom (ex_prop "P") (ex_ce "A")) =
  Ok (set_nodes graph_successor
        [mkNode (ex_named "a") [ObjectSomeValuesFrom (ex_prop "P") (ex_ce "A")]
           [(ex_prop "P", ex_named "b")];
         mkNode (ex_named "b") [ex_ce "A"] []], true).
Proof.
  split; [vm_compute; reflexivity|].
  destruct (existential_rule_step graph_successor false (ex_named "a") 0
              (mkNode (ex_named "a") [ObjectSomeValuesFrom (ex_prop "P") (ex_ce "A")]
                 [(ex_prop "P", ex_named "b")])
              (ex_prop "P") (ex_ce "A")) as [_ [_ H]];
    [vm_compute; reflexivity | vm_compute; reflexivity |].
  specialize (H (ex_named "b") 1 (mkNode (ex_named "b") [] [])).
  assert (Ht : first_target [(ex_prop "P", ex_named "b")] (ex_prop "P") = Some (ex_named "b"))
    by (vm_compute; reflexivity).
  assert (Hpt : position (ex_named "b") (nodes graph_successor) = Some 1)
    by (vm_compute; reflexivity).
  assert (Hm : nth_error (nodes graph_successor) 1 = Some (mkNode (ex_named "b") [] []))
    by (vm_compute; reflexivity).
  specialize (H Ht Hpt Hm). cbv beta iota delta [concepts contains_ce existsb] in H.
  destruct H as [l [Hl H]]. rewrite H. vm_compute in Hl. injection Hl as Hl.
  rewrite <- Hl. reflexivity.
Defined.

(** C9 (amended): [add_role(i, P, j)] makes [(P, j)] one of the roles of
    the node of [i], creating a node for [i] (and for nobody else) when [i]
    has none; it appends [(P, j)] only when it is absent, leaves every other
    node unchanged, creates no node for [j], and returns no value (the
    source's [()]). The node of [i] keeps its concepts and its earlier
    roles, in order: its role list is the old one, followed by [(P, j)]
    when that pair was absent. *)
Theorem add_role_spec g i P j :
  (exists n, node_of (add_role g i P j) i = Some n /\ In (P, j) (roles n) /\
     match node_of g i with
     | Some m => concepts n = concepts m /\
                 roles n = (if contains_role (roles m) (P, j) then roles m else roles m ++ [(P, j)])
     | None => concepts n = [] /\ roles n = [(P, j)]
     end) /\
  List.length (nodes (add_role g i P j)) =
    List.length (nodes g) + match position i (nodes g) with Some _ => 0 | None => 1 end /\
  next_fresh_id (add_role g i P j) = next_fresh_id g /\
  (forall n, node_of g i = Some n -> In (P, j) (roles n) -> add_role g i P j = g) /\
  (forall k, k < List.length (nodes g) -> position i (nodes g) <> Some k ->
   nth_error (nodes (add_role g i P j)) k = nth_error (nodes g) k).
Proof.
  unfold add_role, get_or_create_node.
  destruct (position i (nodes g)) as [k|] eqn:Hp.
  - destruct (position_Some _ _ _ Hp) as [n [Hn Hi]]. rewrite Hn.
    assert (Hg : node_of g i = Some n) by (rewrite node_of_position, Hp; exact Hn).
    destruct (contains_role (roles n) (P, j)) eqn:Hc.
    + pose proof Hc as Hc0. apply contains_role_In in Hc.
      split; [|split; [|split; [|split]]].
      * exists n. rewrite Hg, Hc0. auto.
      * lia.
      * reflexivity.
      * reflexivity.
      * reflexivity.
    + destruct (modify_nth_Some k (push_role (P, j)) _ _ Hn) as [l Hl]. rewrite Hl.
      split; [|split; [|split; [|split]]].
      * exists (push_role (P, j) n). rewrite node_of_position. simpl.
        rewrite (modify_nth_position k (push_role (P, j)) _ _ i (fun _ => eq_refl) Hl), Hp.
        rewrite (modify_nth_nth_error _ _ _ _ k Hl), Nat.eqb_refl, Hn. split; [reflexivity|].
        split; [simpl; apply in_or_app; right; left; reflexivity|].
        rewrite Hg, Hc. split; reflexivity.
      * simpl. rewrite (modify_nth_length _ _ _ _ Hl). lia.
      * reflexivity.
      * intros n' Hn' Hin. rewrite node_of_position, Hp, Hn in Hn'. injection Hn' as <-.
        apply contains_role_In in Hin. congruence.
      * intros k' _ Hk'. simpl. rewrite (modify_nth_nth_error _ _ _ _ k' Hl).
        destruct (Nat.eqb_spec k' k); [subst; congruence | reflexivity].
  - unfold add_node. simpl.
    rewrite nth_error_app2, Nat.sub_diag by lia. simpl.
    rewrite modify_nth_last.
    split; [|split; [|split; [|split]]].
    * assert (Hg : node_of g i = None) by (rewrite node_of_position, Hp; reflexivity).
      exists (push_role (P, j) (mkNode i [] [])). rewrite Hg. rewrite node_of_position. simpl.
      rewrite position_add_node by (exact Hp || reflexivity).
      split; [|split; [left; reflexivity | split; reflexivity]].
      rewrite nth_error_app2, Nat.sub_diag by lia. reflexivity.
    * simpl. rewrite !length_app. reflexivity.
    * reflexivity.
    * rewrite node_of_position, Hp. discriminate.
    * intros k' Hk' _. simpl. rewrite nth_error_app1 by exact Hk'. reflexivity.
Qed.

(** ** Only the assertions reach the engine *)

Lemma initialize_fold_assertions (l : list OwlAxiom) g :
  fold_left initialize_axiom l g =
  fold_left initialize_axiom
    (filter (fun ax => match ax with Ax_Assertion _ => true | _ => false end) l) g.
Proof.
  revert g; induction l as [|ax l IH]; intros g; simpl; [reflexivity|].
  destruct ax; simpl; apply IH.
Qed.

Lemma initialize_graph o g :
  graph (initialize (mkReasoner o g)) = fold_left initialize_axiom (assertions_of o) g.
Proof. unfold initialize, assertions_of. simpl. apply initialize_fold_assertions. Qed.

Lemma is_consistent_same_assertions fuel o o' g r b :
  assertions_of o = assertions_of o' ->
  is_consistent fuel (mkReasoner o g) = Ok (r, b) ->
  is_consistent fuel (mkReasoner o' g) = Ok (mkReasoner o' (graph r), b).
Proof.
  intros Ha. unfold is_consistent. rewrite !initialize_graph, Ha.
  destruct (expand fuel (fold_left initialize_axiom (assertions_of o') g)); simpl;
    try discriminate.
  intros H. injection H as <- <-. reflexivity.
Qed.

(** C7 (amended): for ontologies [O] and [O'] with the same assertions in
    the same order (for instance [O'] is [O] plus class, object-property
    or data-property axioms), [is_consistent(O')] returning true implies
    [is_consistent(O)] returning true, and a subsumption reported for [O]
    is reported for [O']. *)
Theorem monotone_same_assertions fuel o o' :
  assertions_of o = assertions_of o' ->
  (forall r', is_consistent fuel (TableauReasoner_new o') = Ok (r', true) ->
   exists r, is_consistent fuel (TableauReasoner_new o) = Ok (r, true)) /\
  (forall c d, is_subsumed_by fuel (TableauReasoner_new o) c d = Ok true ->
   is_subsumed_by fuel (TableauReasoner_new o') c d = Ok true).
Proof.
  intros Ha. split.
  - intros r' H. eexists. apply (is_consistent_same_assertions fuel o' o _ r' true);
      [symmetry; exact Ha | exact H].
  - intros c d. unfold is_subsumed_by. simpl.
    destruct (is_consistent fuel
                (mkReasoner o (add_concept CompletionGraph_new test_individual
                   (ObjectIntersectionOf [CE_Class c; ObjectComplementOf (CE_Class d)]))))
      as [[r b]| |] eqn:E; simpl; try discriminate.
    rewrite (is_consistent_same_assertions _ _ o' _ _ _ Ha E). simpl. auto.
Qed.

(** Witness for C7: [ont_small] and [ont_small_tbox], which adds
    [SubClassOf(A, B)]. *)
Lemma monotone_same_assertions_witness :
  assertions_of ont_small = assertions_of ont_small_tbox /\
  (exists r, is_consistent 20 (TableauReasoner_new ont_small_tbox) = Ok (r, false)) /\
  is_subsumed_by 20 (TableauReasoner_new ont_small_tbox) (ex_class "X") (ex_class "Y") = Ok true.
Proof.
  assert (Ha : assertions_of ont_small = assertions_of ont_small_tbox)
    by (vm_compute; reflexivity).
  split; [exact Ha | split; [eexists; vm_compute; reflexivity|]].
  apply (proj2 (monotone_same_assertions 20 _ _ Ha)). vm_compute. reflexivity.
Defined.

(** ** Termination of the expansion *)

(** *** Sums *)

Lemma list_sum_map_le {A} (f g : A -> nat) (l : list A) :
  (forall x, In x l -> f x <= g x) -> list_sum (map f l) <= list_sum (map g l).
Proof.
  induction l as [|a l IH]; simpl; intros H; [lia|].
  specialize (H a (or_introl eq_refl)) as Ha.
  assert (list_sum (map f l) <= list_sum (map g l)) by (apply IH; auto). lia.
Qed.

Lemma list_sum_map_le_at {A} (f g : A -> nat) (l : list A) (a : A) (d : nat) :
  In a l -> (forall x, In x l -> f x <= g x) -> f a + d <= g a ->
  list_sum (map f l) + d <= list_sum (map g l).
Proof.
  induction l as [|b l IH]; simpl; intros Ha H Hd; [destruct Ha|].
  destruct Ha as [<-|Ha].
  - assert (list_sum (map f l) <= list_sum (map g l)) by (apply list_sum_map_le; auto). lia.
  - assert (list_sum (map f l) + d <= list_sum (map g l)) by (apply IH; auto).
    specialize (H b (or_introl eq_refl)). lia.
Qed.

Lemma list_sum_map_bound {A} (f : A -> nat) (l : list A) (c : nat) :
  (forall x, In x l -> f x <= c) -> list_sum (map f l) <= List.length l * c.
Proof.
  induction l as [|a l IH]; simpl; intros H; [lia|].
  specialize (H a (or_introl eq_refl)) as Ha.
  assert (list_sum (map f l) <= List.length l * c) by (apply IH; auto). lia.
Qed.

Lemma length_filter_le {A} (p q : A -> bool) (l : list A) :
  (forall x, In x l -> p x = true -> q x = true) ->
  List.length (filter p l) <= List.length (filter q l).
Proof.
  induction l as [|a l IH]; simpl; intros H; [lia|].
  assert (List.length (filter p l) <= List.length (filter q l)) by (apply IH; auto).
  specialize (H a (or_introl eq_refl)).
  destruct (p a), (q a); simpl; try lia; discriminate (H eq_refl).
Qed.

Lemma length_filter_lt {A} (p q : A -> bool) (l : list A) (a : A) :
  In a l -> p a = false -> q a = true ->
  (forall x, In x l -> p x = true -> q x = true) ->
  List.length (filter p l) < List.length (filter q l).
Proof.
  induction l as [|b l IH]; simpl; intros Ha Hp Hq H; [destruct Ha|].
  destruct Ha as [<-|Ha].
  - rewrite Hp, Hq. simpl.
    assert (List.length (filter p l) <= List.length (filter q l))
      by (apply length_filter_le; auto). lia.
  - assert (List.length (filter p l) < List.length (filter q l)) by (apply IH; auto).
    specialize (H b (or_introl eq_refl)).
    destruct (p b), (q b); simpl; try lia; discriminate (H eq_refl).
Qed.

Lemma in_list_max (x : nat) (l : list nat) : In x l -> x <= list_max l.
Proof.
  intros Hx. assert (H : list_max l <= list_max l) by lia.
  apply list_max_le in H. rewrite Forall_forall in H. auto.
Qed.

(** *** Sub-expressions and heights *)

Lemma subterms_self c : In c (subterms c).
Proof. destruct c; left; reflexivity. Qed.

Lemma subterms_trans c d : In d (subterms c) -> incl (subterms d) (subterms c).
Proof.
  induction c as [x|l IH|l IH|e IH|l|p e IH|p e IH|p i|p|n p f IH|n p f IH|n p f IH]
    using ce_ind_deep; simpl;
    intros [<-|Hd]; try (apply incl_refl); simpl in *; try (destruct Hd);
    try (apply incl_tl; apply IH; exact Hd);
    try (destruct f as [e|]; simpl in *; [apply incl_tl; apply IH; exact Hd | destruct Hd]).
  - apply in_flat_map in Hd as [e [He Hd]]. rewrite Forall_forall in IH.
    apply incl_tl. intros z Hz. apply in_flat_map. exists e. split; [exact He|].
    exact (IH e He Hd z Hz).
  - apply in_flat_map in Hd as [e [He Hd]]. rewrite Forall_forall in IH.
    apply incl_tl. intros z Hz. apply in_flat_map. exists e. split; [exact He|].
    exact (IH e He Hd z Hz).
Qed.

Lemma closure_in g c :
  In c (closure g) <-> exists r, In r (flat_map concepts (nodes g)) /\ In c (subterms r).
Proof. unfold closure. rewrite in_flat_map. reflexivity. Qed.

Lemma closure_sub g c d :
  In c (closure g) -> In d (subterms c) -> In d (closure g).
Proof.
  rewrite !closure_in. intros [r [Hr Hc]] Hd. exists r. split; [exact Hr|].
  exact (subterms_trans r c Hc d Hd).
Qed.

Lemma closure_concepts g n c : In n (nodes g) -> In c (concepts n) -> In c (closure g).
Proof.
  intros Hn Hc. apply closure_in. exists c. split; [|apply subterms_self].
  apply in_flat_map. exists n. auto.
Qed.

Lemma depth_child_inter l e : In e l -> depth e < depth (ObjectIntersectionOf l).
Proof. intros He. simpl. apply Nat.lt_succ_r, in_list_max, in_map, He. Qed.

Lemma depth_child_union l e : In e l -> depth e < depth (ObjectUnionOf l).
Proof. intros He. simpl. apply Nat.lt_succ_r, in_list_max, in_map, He. Qed.

(** *** Fresh names are pairwise distinct *)

Lemma string_of_uint_inj (a b : uint) : string_of_uint a = string_of_uint b -> a = b.
Proof.
  revert b; induction a; intros [] H; simpl in H; try discriminate;
    try reflexivity; injection H as H; f_equal; auto.
Qed.

Lemma fresh_name_inj (a b : N) : fresh_name a = fresh_name b -> a = b.
Proof.
  unfold fresh_name. intros H. injection H as H. simpl in H.
  repeat (injection H as H). apply string_of_uint_inj in H.
  rewrite <- (DecimalN.Unsigned.of_to a), <- (DecimalN.Unsigned.of_to b), H. reflexivity.
Qed.

Lemma individual_eq_dec (x y : Individual) : {x = y} + {x <> y}.
Proof.
  destruct (individual_eqb x y) eqn:E; [left | right].
  - apply individual_eqb_eq. exact E.
  - intros Hxy. apply individual_eqb_eq in Hxy. congruence.
Qed.

(** *** Updating one node *)

Lemma modify_nth_In k f l l' n x :
  modify_nth k f l = Some l' -> nth_error l k = Some n -> In x l' -> In x l \/ x = f n.
Proof.
  revert k l'; induction l as [|m l IH]; intros [|k] l' H Hn Hx; simpl in *; try discriminate.
  - injection H as <-. injection Hn as ->. destruct Hx as [<-|Hx]; auto.
  - destruct (modify_nth k f l) as [l''|] eqn:E; simpl in H; [|discriminate].
    injection H as <-. destruct Hx as [<-|Hx]; [auto|].
    destruct (IH k l'' E Hn Hx); auto.
Qed.

Lemma modify_nth_sum (m : Node -> nat) k f l l' n :
  modify_nth k f l = Some l' -> nth_error l k = Some n ->
  list_sum (map m l') + m n = list_sum (map m l) + m (f n).
Proof.
  revert k l'; induction l as [|a l IH]; intros [|k] l' H Hn; simpl in *; try discriminate.
  - injection H as <-. injection Hn as ->. simpl. lia.
  - destruct (modify_nth k f l) as [l''|] eqn:E; simpl in H; [|discriminate].
    injection H as <-. simpl. specialize (IH k l'' E Hn). lia.
Qed.

Lemma ext_refl g : Ext g g.
Proof.
  intros k n H. exists n. split; [exact H | split; [reflexivity | split; apply incl_refl]].
Qed.

Lemma ext_trans g1 g2 g3 : Ext g1 g2 -> Ext g2 g3 -> Ext g1 g3.
Proof.
  intros H12 H23 k n H. destruct (H12 k n H) as [n2 [H2 [I2 [C2 R2]]]].
  destruct (H23 k n2 H2) as [n3 [H3 [I3 [C3 R3]]]].
  exists n3. split; [exact H3 | split; [congruence | split; eapply incl_tran; eauto]].
Qed.

Lemma ext_modify g k f l :
  (forall n, individual (f n) = individual n) -> (forall n, incl (concepts n) (concepts (f n))) ->
  (forall n, incl (roles n) (roles (f n))) ->
  modify_nth k f (nodes g) = Some l -> Ext g (set_nodes g l).
Proof.
  intros Hi Hc Hr Hl j n Hn. simpl. rewrite (modify_nth_nth_error _ _ _ _ j Hl), Hn.
  destruct (Nat.eqb j k); simpl.
  - exists (f n). auto.
  - exists n. split; [reflexivity | split; [reflexivity | split; apply incl_refl]].
Qed.

Lemma ext_app g l m : Ext g (mkGraph (nodes g ++ l) m).
Proof.
  intros k n Hn. exists n. simpl. rewrite nth_error_app1.
  - split; [exact Hn | split; [reflexivity | split; apply incl_refl]].
  - apply nth_error_Some. congruence.
Qed.

Lemma ext_position g g' x k : Ext g g' -> position x (nodes g) = Some k -> position x (nodes g') <> None.
Proof.
  intros He Hp. destruct (position_Some _ _ _ Hp) as [n [Hn Hi]].
  destruct (He k n Hn) as [n' [Hn' [Hi' _]]].
  intros Hnone. apply (position_None _ _ Hnone n'); [eapply nth_error_In; eauto | congruence].
Qed.

Lemma lacks_modify g k f l x p :
  (forall n, individual (f n) = individual n) -> (forall n, roles (f n) = roles n) ->
  modify_nth k f (nodes g) = Some l -> lacks (set_nodes g l) x p = lacks g x p.
Proof.
  intros Hi Hr Hl. unfold lacks. rewrite !node_of_position. simpl.
  rewrite (modify_nth_position _ _ _ _ x Hi Hl).
  destruct (position x (nodes g)) as [j|]; [|reflexivity].
  rewrite (modify_nth_nth_error _ _ _ _ j Hl).
  destruct (Nat.eqb j k); [|reflexivity].
  destruct (nth_error (nodes g) j); simpl; [rewrite Hr|]; reflexivity.
Qed.

Lemma contains_ce_app_one l c s :
  contains_ce (l ++ [c]) s = contains_ce l s || ce_eqb c s.
Proof. unfold contains_ce. rewrite existsb_app. simpl. rewrite orb_false_r. reflexivity. Qed.

Lemma missing_push sc n c :
  In c sc -> contains_ce (concepts n) c = false ->
  S (missing sc (push_concept c n)) <= missing sc n.
Proof.
  intros Hc Hn. unfold missing. simpl. apply length_filter_lt with (a := c).
  - exact Hc.
  - rewrite contains_ce_app_one, (proj2 (ce_eqb_eq c c) eq_refl), orb_true_r. reflexivity.
  - rewrite Hn. reflexivity.
  - intros x _ H. rewrite contains_ce_app_one in H.
    destruct (contains_ce (concepts n) x); [discriminate|reflexivity].
Qed.

Lemma missing_le sc n : missing sc n <= List.length sc.
Proof. unfold missing. apply filter_length_le. Qed.

Lemma position_push_role k r l l' i :
  modify_nth k (push_role r) l = Some l' -> position i l' = position i l.
Proof. apply modify_nth_position. reflexivity. Qed.

Lemma first_target_app rs rs' p :
  first_target (rs ++ rs') p =
  match first_target rs p with Some t => Some t | None => first_target rs' p end.
Proof.
  unfold first_target. induction rs as [|r rs IH]; simpl; [destruct (first_target rs' p); reflexivity|].
  destruct (ope_eqb (fst r) p); simpl; [reflexivity|]. exact IH.
Qed.

Lemma lacks_create g k r l new m y q :
  modify_nth k (push_role r) (nodes g) = Some l ->
  lacks (mkGraph (l ++ [new]) m) y q = true -> lacks g y q = true.
Proof.
  intros Hl. unfold lacks. rewrite !node_of_position. simpl.
  destruct (position y (nodes g)) as [j|] eqn:Hp; [|reflexivity].
  rewrite (position_app_Some _ _ _ j) by (rewrite (position_push_role _ _ _ _ y Hl); exact Hp).
  destruct (position_Some _ _ _ Hp) as [n [Hn _]].
  rewrite nth_error_app1.
  2:{ rewrite (modify_nth_length _ _ _ _ Hl). apply nth_error_Some. congruence. }
  rewrite (modify_nth_nth_error _ _ _ _ j Hl), Hn.
  destruct (Nat.eqb j k); simpl; [|exact (fun H => H)].
  rewrite first_target_app. destruct (first_target (roles n) q); [discriminate | reflexivity].
Qed.

Lemma lacks_create_self g k n r l new m :
  position (individual n) (nodes g) = Some k -> nth_error (nodes g) k = Some n ->
  modify_nth k (push_role r) (nodes g) = Some l ->
  lacks (mkGraph (l ++ [new]) m) (individual n) (fst r) = false.
Proof.
  intros Hp Hn Hl. unfold lacks. rewrite node_of_position. simpl.
  rewrite (position_app_Some _ _ _ k) by (rewrite (position_push_role _ _ _ _ _ Hl); exact Hp).
  rewrite nth_error_app1.
  2:{ rewrite (modify_nth_length _ _ _ _ Hl). apply nth_error_Some. congruence. }
  rewrite (modify_nth_nth_error _ _ _ _ k Hl), Nat.eqb_refl, Hn. simpl.
  rewrite first_target_app. destruct (first_target (roles n) (fst r)); [reflexivity|].
  unfold first_target. simpl. rewrite (proj2 (ope_eqb_eq (fst r) (fst r)) eq_refl). reflexivity.
Qed.

Lemma lacks_first g k n p :
  position (individual n) (nodes g) = Some k -> nth_error (nodes g) k = Some n ->
  first_target (roles n) p = None -> lacks g (individual n) p = true.
Proof.
  intros Hp Hn Hf. unfold lacks. rewrite node_of_position, Hp, Hn, Hf. reflexivity.
Qed.

Section Expansion.

Variable sc : list ClassExpression.
Variable props : list ObjectPropertyExpression.
Variable I0 : list Individual.
Variable H : nat.

Hypothesis sc_inter : forall l e, In (ObjectIntersectionOf l) sc -> In e l -> In e sc.
Hypothesis sc_union : forall l e, In (ObjectUnionOf l) sc -> In e l -> In e sc.
Hypothesis sc_some : forall p e, In (ObjectSomeValuesFrom p e) sc -> In e sc.
Hypothesis sc_all : forall p e, In (ObjectAllValuesFrom p e) sc -> In e sc.
Hypothesis props_some : forall p e, In (ObjectSomeValuesFrom p e) sc -> In p props.

(** The invariant and the measure after a concept [c] is pushed on the
    node at index [k]. *)
Lemma push_concept_preserves g L h k n c l :
  Inv sc I0 H g L h ->
  nth_error (nodes g) k = Some n ->
  contains_ce (concepts n) c = false ->
  In c sc -> depth c <= h (individual n) ->
  modify_nth k (push_concept c) (nodes g) = Some l ->
  Inv sc I0 H (set_nodes g l) L h /\ Ext g (set_nodes g l) /\
  S (measure sc props (set_nodes g l) L h) <= measure sc props g L h.
Proof.
  intros Hinv Hn Hnot Hc Hd Hl.
  assert (Hin : forall x, In x (nodes (set_nodes g l)) -> In x (nodes g) \/ x = push_concept c n)
    by (intros x; apply (modify_nth_In _ _ _ _ _ x Hl Hn)).
  split; [|split].
  - destruct Hinv as [Hnodes Hroles Hconc Hfresh Hinit Hheight].
    constructor; auto.
    + intros x Hx. destruct (Hin x Hx) as [Hx' | ->]; [apply Hnodes; exact Hx'|].
      apply (Hnodes n). eapply nth_error_In; eauto.
    + intros x p t Hx Hr. destruct (Hin x Hx) as [Hx' | ->]; [exact (Hroles x p t Hx' Hr)|].
      apply (Hroles n p t); [eapply nth_error_In; eauto | exact Hr].
    + intros x e Hx He. destruct (Hin x Hx) as [Hx' | ->]; [exact (Hconc x e Hx' He)|].
      simpl in He. apply in_app_or in He as [He|[<-|[]]]; [|auto].
      apply (Hconc n e); [eapply nth_error_In; eauto | exact He].
  - apply (ext_modify g k (push_concept c) l); [reflexivity | intros x; apply incl_appl, incl_refl | intros x; apply incl_refl | exact Hl].
  - assert (HPhi : forall x p, lacks (set_nodes g l) x p = lacks g x p)
      by (intros x p; exact (lacks_modify g k (push_concept c) l x p (fun _ => eq_refl) (fun _ => eq_refl) Hl)).
    assert (HPsi : S (Psi sc (set_nodes g l)) <= Psi sc g).
    { unfold Psi. simpl. pose proof (modify_nth_sum (missing sc) _ _ _ _ _ Hl Hn).
      pose proof (missing_push sc n c Hc Hnot). lia. }
    assert (HPhi' : Phi props (set_nodes g l) L h = Phi props g L h).
    { unfold Phi. f_equal. apply map_ext. intros x. f_equal. apply map_ext.
      intros p. rewrite HPhi. reflexivity. }
    unfold measure. lia.
Qed.


Lemma Phi_consume g g' L h h' x p :
  In x L -> In p props ->
  (forall y, In y L -> h' y = h y) ->
  (forall y q, lacks g' y q = true -> lacks g y q = true) ->
  lacks g x p = true -> lacks g' x p = false ->
  Phi props g' L h' + S (List.length props) ^ h x <= Phi props g L h.
Proof.
  intros Hx Hp Hh Hmono Hl Hl'. unfold Phi.
  apply list_sum_map_le_at with (a := x); [exact Hx | |].
  - intros y Hy. apply list_sum_map_le. intros q _. rewrite (Hh y Hy).
    destruct (lacks g' y q) eqn:E; [rewrite (Hmono _ _ E)|]; lia.
  - rewrite (Hh x Hx). apply list_sum_map_le_at with (a := p); [exact Hp | |].
    + intros q _. destruct (lacks g' x q) eqn:E; [rewrite (Hmono _ _ E)|]; lia.
    + rewrite Hl, Hl'. lia.
Qed.

Lemma Phi_new_individual g h t :
  list_sum (map (fun p => if lacks g t p then S (List.length props) ^ h t else 0) props)
  <= List.length props * S (List.length props) ^ h t.
Proof. apply list_sum_map_bound. intros q _. destruct (lacks g t q); lia. Qed.

(** The invariant and the measure after the ∃-rule mints a successor of
    the node at index [k]. *)
Lemma create_preserves g L h k n p e l :
  Inv sc I0 H g L h ->
  position (individual n) (nodes g) = Some k ->
  nth_error (nodes g) k = Some n ->
  In (ObjectSomeValuesFrom p e) sc ->
  depth (ObjectSomeValuesFrom p e) <= h (individual n) ->
  first_target (roles n) p = None ->
  modify_nth k (push_role (p, fresh_name (N.succ (next_fresh_id g)))) (nodes g) = Some l ->
  exists L' h',
    Inv sc I0 H (mkGraph (l ++ [mkNode (fresh_name (N.succ (next_fresh_id g))) [e] []])
                         (N.succ (next_fresh_id g))) L' h' /\
    Ext g (mkGraph (l ++ [mkNode (fresh_name (N.succ (next_fresh_id g))) [e] []])
                   (N.succ (next_fresh_id g))) /\
    S (measure sc props
         (mkGraph (l ++ [mkNode (fresh_name (N.succ (next_fresh_id g))) [e] []])
                  (N.succ (next_fresh_id g))) L' h')
    <= measure sc props g L h.
Proof.
  intros Hinv Hp Hn Hsc Hd Hf Hl.
  set (t := fresh_name (N.succ (next_fresh_id g))) in *.
  set (g' := mkGraph (l ++ [mkNode t [e] []]) (N.succ (next_fresh_id g))).
  set (x := individual n) in *.
  destruct Hinv as [Hnodes Hroles Hconc Hfresh Hinit Hheight].
  assert (HnIn : In n (nodes g)) by (eapply nth_error_In; eauto).
  assert (HxL : In x L) by (apply Hnodes; exact HnIn).
  assert (Hin : forall y, In y (nodes g') ->
                In y (nodes g) \/ y = push_role (p, t) n \/ y = mkNode t [e] []).
  { intros y Hy. simpl in Hy. apply in_app_or in Hy as [Hy|[<-|[]]]; [|auto].
    destruct (modify_nth_In _ _ _ _ _ y Hl Hn Hy); auto. }
  assert (He : In e sc) by (eapply sc_some; eauto).
  assert (Hde : depth e < depth (ObjectSomeValuesFrom p e)) by (simpl; lia).
  assert (Hpp : In p props) by (eapply props_some; eauto).
  assert (Hext : Ext g g').
  { apply (ext_trans g (set_nodes g l) g').
    - apply (ext_modify g k (push_role (p, t)) l); [reflexivity | intros; apply incl_refl | intros m; apply incl_appl, incl_refl | exact Hl].
    - exact (ext_app (set_nodes g l) _ _). }
  assert (HPsi : Psi sc g' <= Psi sc g + List.length sc).
  { unfold Psi, g'. cbn [nodes]. rewrite map_app, list_sum_app.
    pose proof (modify_nth_sum (missing sc) _ _ _ _ _ Hl Hn) as Hs.
    assert (Hr : missing sc (push_role (p, t) n) = missing sc n) by reflexivity.
    assert (H1 : list_sum (map (missing sc) [mkNode t [e] []]) = missing sc (mkNode t [e] []) + 0)
      by reflexivity.
    pose proof (missing_le sc (mkNode t [e] [])). lia. }
  assert (Hmono : forall y q, lacks g' y q = true -> lacks g y q = true)
    by (intros y q; apply (lacks_create g k (p, t) l _ _ y q Hl)).
  assert (Hlx : lacks g x p = true) by (apply (lacks_first g k n p Hp Hn Hf)).
  assert (Hlx' : lacks g' x p = false) by (apply (lacks_create_self g k n (p, t) l _ _ Hp Hn Hl)).
  destruct (in_dec individual_eq_dec t L) as [HtL|HtL].
  - (* the fresh name is an input individual: a second node for it *)
    assert (HtI : In t I0).
    { destruct (Hfresh t HtL) as [HI|[m [Hm Hle]]]; [exact HI|].
      apply fresh_name_inj in Hm. lia. }
    exists L, h. split; [|split; [exact Hext|]].
    + constructor.
      * intros y Hy. destruct (Hin y Hy) as [Hy'|[->| ->]]; [auto | exact HxL | exact HtL].
      * intros y q u Hy Hr. destruct (Hin y Hy) as [Hy'|[->| ->]];
          [exact (Hroles y q u Hy' Hr) | | destruct Hr].
        simpl in Hr. apply in_app_or in Hr as [Hr|[Hr|[]]]; [exact (Hroles n q u HnIn Hr)|].
        injection Hr as <- <-. split; [exact HtL|].
        rewrite (proj2 (Hinit t HtI)). simpl. pose proof (Hheight x HxL) as HxH; unfold x in *; lia.
      * intros y c Hy Hc. destruct (Hin y Hy) as [Hy'|[->| ->]];
          [exact (Hconc y c Hy' Hc) | exact (Hconc n c HnIn Hc) |].
        simpl in Hc. destruct Hc as [<-|[]]. split; [exact He|].
        simpl. rewrite (proj2 (Hinit t HtI)). pose proof (Hheight x HxL) as HxH; unfold x in *; lia.
      * intros y Hy. destruct (Hfresh y Hy) as [HI|[m [Hm Hle]]]; [auto|].
        right. exists m. split; [exact Hm | simpl; lia].
      * exact Hinit.
      * exact Hheight.
    + pose proof (Phi_consume g g' L h h x p HxL Hpp (fun _ _ => eq_refl) Hmono Hlx Hlx').
      assert (1 <= S (List.length props) ^ h x) by (apply Nat.neq_0_lt_0, Nat.pow_nonzero; lia).
      unfold measure. nia.
  - (* a brand-new individual, one level below [x] *)
    set (h' := fun y => if individual_eqb y t then h x - 1 else h y).
    assert (Hh' : forall y, In y L -> h' y = h y).
    { intros y Hy. unfold h'. destruct (individual_eqb y t) eqn:E; [|reflexivity].
      apply individual_eqb_eq in E. subst. contradiction. }
    assert (Ht' : h' t = h x - 1) by (unfold h'; rewrite individual_eqb_refl; reflexivity).
    exists (L ++ [t]), h'. split; [|split; [exact Hext|]].
    + constructor.
      * intros y Hy. apply in_or_app. destruct (Hin y Hy) as [Hy'|[->| ->]]; [auto | auto | ].
        right. left. reflexivity.
      * intros y q u Hy Hr. destruct (Hin y Hy) as [Hy'|[->| ->]]; [| | destruct Hr].
        -- destruct (Hroles y q u Hy' Hr) as [HuL Hle]. split; [apply in_or_app; auto|].
           rewrite (Hh' _ (Hnodes y Hy')), (Hh' _ HuL). exact Hle.
        -- simpl in Hr. apply in_app_or in Hr as [Hr|[Hr|[]]].
           ++ destruct (Hroles n q u HnIn Hr) as [HuL Hle]. split; [apply in_or_app; auto|].
              simpl. fold x. rewrite (Hh' _ HxL), (Hh' _ HuL). exact Hle.
           ++ injection Hr as <- <-. split; [apply in_or_app; right; left; reflexivity|].
              simpl. fold x. rewrite (Hh' _ HxL), Ht'. lia.
      * intros y c Hy Hc. destruct (Hin y Hy) as [Hy'|[->| ->]].
        -- rewrite (Hh' _ (Hnodes y Hy')). exact (Hconc y c Hy' Hc).
        -- simpl. fold x. rewrite (Hh' _ HxL). exact (Hconc n c HnIn Hc).
        -- simpl in Hc. destruct Hc as [<-|[]]. split; [exact He|]. simpl. rewrite Ht'. lia.
      * intros y Hy. apply in_app_or in Hy as [Hy|[<-|[]]].
        -- destruct (Hfresh y Hy) as [HI|[m [Hm Hle]]]; [auto|].
           right. exists m. split; [exact Hm | simpl; lia].
        -- right. exists (N.succ (next_fresh_id g)). split; [reflexivity | simpl; lia].
      * intros y Hy. destruct (Hinit y Hy) as [HyL Hhy].
        split; [apply in_or_app; auto | rewrite (Hh' _ HyL); exact Hhy].
      * intros y Hy. apply in_app_or in Hy as [Hy|[<-|[]]].
        -- rewrite (Hh' _ Hy). auto.
        -- rewrite Ht'. pose proof (Hheight x HxL) as HxH; unfold x in *; lia.
    + pose proof (Phi_consume g g' L h h' x p HxL Hpp Hh' Hmono Hlx Hlx') as Hc.
      pose proof (Phi_new_individual g' h' t) as Hnew. rewrite Ht' in Hnew.
      assert (HPhi : Phi props g' (L ++ [t]) h' =
                     Phi props g' L h' +
                     list_sum (map (fun q => if lacks g' t q then S (List.length props) ^ h' t
                                             else 0) props)).
      { unfold Phi. rewrite map_app, list_sum_app. simpl. lia. }
      rewrite Ht' in HPhi.
      assert (Hpow : S (List.length props) ^ h x =
                     S (List.length props) * S (List.length props) ^ (h x - 1)).
      { rewrite <- Nat.pow_succ_r'. f_equal. lia. }
      assert (1 <= S (List.length props) ^ (h x - 1)) by (apply Nat.neq_0_lt_0, Nat.pow_nonzero; lia).
      unfold measure. nia.
Qed.

(** *** Runs of the rules *)

Lemma progress_refl g L h flag :
  Inv sc I0 H g L h -> progress sc props I0 H g L h flag (g, flag).
Proof.
  intros Hinv. exists L, h. simpl. split; [exact Hinv|]. split; [apply ext_refl|].
  split; [lia | auto].
Qed.

Lemma progress_trans g L h flag g1 flag1 st2 :
  progress sc props I0 H g L h flag (g1, flag1) ->
  (forall L1 h1, Inv sc I0 H g1 L1 h1 -> progress sc props I0 H g1 L1 h1 flag1 st2) ->
  progress sc props I0 H g L h flag st2.
Proof.
  intros [L1 [h1 [Hi1 [He1 [Hm1 Hf1]]]]] Hnext. simpl in *.
  destruct (Hnext L1 h1 Hi1) as [L2 [h2 [Hi2 [He2 [Hm2 Hf2]]]]].
  exists L2, h2. split; [exact Hi2|]. split; [eapply ext_trans; eauto|]. split; [lia|].
  intros Hs. destruct (Hf2 Hs) as [Hs1|Hlt]; [|right; lia].
  destruct (Hf1 Hs1); [left; assumption | right; lia].
Qed.

Lemma inv_node_concept g L h i c :
  Inv sc I0 H g L h -> (exists n, In n (nodes g) /\ individual n = i /\ In c (concepts n)) ->
  In c sc /\ depth c <= h i.
Proof.
  intros [_ _ Hconc _ _ _] [n [Hn [<- Hc]]]. exact (Hconc n c Hn Hc).
Qed.

Lemma inv_node_role g L h n p t :
  Inv sc I0 H g L h -> In n (nodes g) -> In (p, t) (roles n) ->
  h (individual n) <= S (h t).
Proof.
  intros [_ Hroles _ _ _ _] Hn Hr. exact (proj2 (Hroles n p t Hn Hr)).
Qed.

Lemma ext_snapshot g0 g n0 c :
  Ext g0 g -> In n0 (nodes g0) -> In c (concepts n0) ->
  exists n, In n (nodes g) /\ individual n = individual n0 /\ In c (concepts n).
Proof.
  intros He Hn0 Hc. apply In_nth_error in Hn0 as [k Hk].
  destruct (He k n0 Hk) as [n [Hn [Hi [Hcs _]]]].
  exists n. split; [eapply nth_error_In; eauto | split; [exact Hi | apply Hcs; exact Hc]].
Qed.

Lemma foldM_progress {B} (f : CompletionGraph * bool -> B -> Res (CompletionGraph * bool))
  (P : CompletionGraph -> Prop) (l : list B) :
  (forall x, In x l -> forall g L h flag st', Inv sc I0 H g L h -> P g ->
     f (g, flag) x = Ok st' -> progress sc props I0 H g L h flag st') ->
  (forall g g', P g -> Ext g g' -> P g') ->
  forall g L h flag st', Inv sc I0 H g L h -> P g ->
  foldM f l (g, flag) = Ok st' -> progress sc props I0 H g L h flag st'.
Proof.
  intros Hf HP. revert Hf. induction l as [|x l IH]; intros Hf g L h flag st' Hinv Hg Hrun;
    simpl in Hrun.
  - injection Hrun as <-. apply progress_refl. exact Hinv.
  - destruct (f (g, flag) x) as [[g1 flag1]| |] eqn:E; simpl in Hrun; try discriminate.
    pose proof (Hf x (or_introl eq_refl) g L h flag (g1, flag1) Hinv Hg E) as Hp1.
    apply (progress_trans g L h flag g1 flag1 st' Hp1).
    intros L1 h1 Hi1.
    apply (IH (fun y Hy => Hf y (or_intror Hy)) g1 L1 h1 flag1 st' Hi1); [|exact Hrun].
    destruct Hp1 as [L' [h' [_ [He _]]]]. exact (HP g g1 Hg He).
Qed.

(** The four rules share one loop shape: every concept of every node of the
    snapshot [g] is handed to [step]. *)
Lemma rule_progress
  (step : Individual -> CompletionGraph * bool -> ClassExpression -> Res (CompletionGraph * bool)) :
  (forall g L h flag i c st', Inv sc I0 H g L h ->
     (exists n, In n (nodes g) /\ individual n = i /\ In c (concepts n)) ->
     step i (g, flag) c = Ok st' -> progress sc props I0 H g L h flag st') ->
  forall g L h st', Inv sc I0 H g L h ->
  foldM (fun st n => foldM (step (individual n)) (concepts n) st) (nodes g) (g, false) = Ok st' ->
  progress sc props I0 H g L h false st'.
Proof.
  intros Hstep g L h st' Hinv Hrun.
  assert (HP : forall g1 g2, Ext g g1 -> Ext g1 g2 -> Ext g g2) by (intros; eapply ext_trans; eauto).
  apply (foldM_progress (fun st n => foldM (step (individual n)) (concepts n) st) (Ext g) (nodes g)) with (g := g) (L := L) (h := h);
    [| exact HP | exact Hinv | apply ext_refl | exact Hrun].
  intros n0 Hn0 g1 L1 h1 flag1 st1 Hinv1 Hext1 Hrun1.
  apply (foldM_progress (step (individual n0)) (Ext g) (concepts n0)) with (g := g1);
    [| exact HP | exact Hinv1 | exact Hext1 | exact Hrun1].
  intros c Hc g2 L2 h2 flag2 st2 Hinv2 Hext2 Hrun2.
  exact (Hstep g2 L2 h2 flag2 (individual n0) c st2 Hinv2 (ext_snapshot g g2 n0 c Hext2 Hn0 Hc) Hrun2).
Qed.

(** Pushing a concept of [sc] no deeper than the height of its node. *)
Lemma push_at_progress g L h flag y k c st' :
  Inv sc I0 H g L h ->
  position y (nodes g) = Some k -> In c sc -> depth c <= h y ->
  ('(g1, added) <- push_concept_at g k c ;; Ok (g1, flag || added)) = Ok st' ->
  progress sc props I0 H g L h flag st'.
Proof.
  intros Hinv Hp Hc Hd Hrun.
  destruct (position_Some _ _ _ Hp) as [n [Hn Hy]].
  pose proof (push_concept_at_spec g k c n Hn) as Hs.
  destruct (contains_ce (concepts n) c) eqn:Hcont.
  - rewrite Hs in Hrun. simpl in Hrun. injection Hrun as <-. rewrite orb_false_r.
    apply progress_refl; exact Hinv.
  - destruct Hs as [l [Hl Hs]]. rewrite Hs in Hrun. simpl in Hrun. injection Hrun as <-.
    subst y.
    destruct (push_concept_preserves g L h k n c l Hinv Hn Hcont Hc Hd Hl) as [Hi [He Hm]].
    exists L, h. simpl. split; [exact Hi|]. split; [exact He|]. split; [lia|].
    intros _. right. lia.
Qed.

Lemma add_to_node_progress g L h flag i c st' :
  Inv sc I0 H g L h ->
  (exists n, In n (nodes g) /\ individual n = i) ->
  In c sc -> depth c <= h i ->
  add_to_node (g, flag) i c = Ok st' ->
  progress sc props I0 H g L h flag st'.
Proof.
  intros Hinv [n [Hn Hi]] Hc Hd Hrun. unfold add_to_node, get_or_create_node in Hrun.
  destruct (position i (nodes g)) as [k|] eqn:Hp.
  - exact (push_at_progress g L h flag i k c st' Hinv Hp Hc Hd Hrun).
  - exfalso. exact (position_None _ _ Hp n Hn Hi).
Qed.

Lemma has_concept_ext i c g g' :
  (exists n, In n (nodes g) /\ individual n = i /\ In c (concepts n)) -> Ext g g' ->
  exists n, In n (nodes g') /\ individual n = i /\ In c (concepts n).
Proof.
  intros [n [Hn [<- Hc]]] He. exact (ext_snapshot g g' n c He Hn Hc).
Qed.

Lemma conjunction_step_progress g L h flag i c st' :
  Inv sc I0 H g L h ->
  (exists n, In n (nodes g) /\ individual n = i /\ In c (concepts n)) ->
  conjunction_step i (g, flag) c = Ok st' ->
  progress sc props I0 H g L h flag st'.
Proof.
  intros Hinv Hex Hrun.
  destruct c as [| l | | | | | | | | | |]; simpl in Hrun;
    try (injection Hrun as <-; apply progress_refl; exact Hinv).
  apply (foldM_progress (fun st conjunct => add_to_node st i conjunct)
           (fun g => exists n, In n (nodes g) /\ individual n = i /\
                               In (ObjectIntersectionOf l) (concepts n)) l)
    with (g := g) (L := L) (h := h);
    [| intros; eapply has_concept_ext; eauto | exact Hinv | exact Hex | exact Hrun].
  intros e He g1 L1 h1 flag1 st1 Hinv1 Hex1 Hrun1.
  destruct (inv_node_concept g1 L1 h1 i _ Hinv1 Hex1) as [Hsc Hd].
  apply (add_to_node_progress g1 L1 h1 flag1 i e st1 Hinv1); [| | | exact Hrun1].
  - destruct Hex1 as [n [Hn [Hi _]]]. exists n. auto.
  - exact (sc_inter l e Hsc He).
  - pose proof (depth_child_inter l e He). lia.
Qed.

Lemma disjunction_step_progress g L h flag i c st' :
  Inv sc I0 H g L h ->
  (exists n, In n (nodes g) /\ individual n = i /\ In c (concepts n)) ->
  disjunction_step i (g, flag) c = Ok st' ->
  progress sc props I0 H g L h flag st'.
Proof.
  intros Hinv Hex Hrun.
  destruct c as [| | l | | | | | | | | |]; simpl in Hrun;
    try (injection Hrun as <-; apply progress_refl; exact Hinv).
  destruct l as [|e rest]; [injection Hrun as <-; apply progress_refl; exact Hinv|].
  destruct (inv_node_concept g L h i _ Hinv Hex) as [Hsc Hd].
  apply (add_to_node_progress g L h flag i e st' Hinv); [| | | exact Hrun].
  - destruct Hex as [n [Hn [Hi _]]]. exists n. auto.
  - apply (sc_union (e :: rest) e Hsc). left; reflexivity.
  - pose proof (depth_child_union (e :: rest) e (or_introl eq_refl)). lia.
Qed.

Lemma existential_step_progress g L h flag i c st' :
  Inv sc I0 H g L h ->
  (exists n, In n (nodes g) /\ individual n = i /\ In c (concepts n)) ->
  existential_step i (g, flag) c = Ok st' ->
  progress sc props I0 H g L h flag st'.
Proof.
  intros Hinv Hex Hrun.
  destruct (inv_node_concept g L h i c Hinv Hex) as [Hsc Hd].
  destruct c as [| | | | | p e | | | | | |]; simpl in Hrun;
    try (injection Hrun as <-; apply progress_refl; exact Hinv).
  destruct (position i (nodes g)) as [k|] eqn:Hp; [|discriminate].
  destruct (nth_error (nodes g) k) as [n|] eqn:Hn; [|discriminate].
  destruct (position_Some _ _ _ Hp) as [n' [Hn' Hi]]. rewrite Hn in Hn'. injection Hn' as <-.
  subst i.
  destruct (first_target (roles n) p) as [t|] eqn:Hf.
  - destruct (position t (nodes g)) as [tk|] eqn:Ht.
    + apply (push_at_progress g L h flag t tk e st' Hinv Ht); [exact (sc_some p e Hsc) | | exact Hrun].
      pose proof (inv_node_role g L h n p t Hinv (nth_error_In _ _ Hn) (first_target_Some _ _ _ Hf)).
      simpl in Hd. lia.
    + injection Hrun as <-. apply progress_refl; exact Hinv.
  - unfold fresh_individual in Hrun.
    destruct (N.eqb (next_fresh_id g) u32_max); [discriminate|]. simpl in Hrun.
    destruct (modify_nth k (push_role (p, fresh_name (N.succ (next_fresh_id g)))) (nodes g))
      as [l|] eqn:Hl; [|discriminate].
    injection Hrun as <-.
    destruct (create_preserves g L h k n p e l Hinv Hp Hn Hsc Hd Hf Hl) as [L' [h' [Hi' [He' Hm']]]].
    exists L', h'. simpl. split; [exact Hi'|]. split; [exact He'|]. split; [lia|].
    intros _. right. lia.
Qed.

Lemma universal_step_progress g L h flag i c st' :
  Inv sc I0 H g L h ->
  (exists n, In n (nodes g) /\ individual n = i /\ In c (concepts n)) ->
  universal_step i (g, flag) c = Ok st' ->
  progress sc props I0 H g L h flag st'.
Proof.
  intros Hinv Hex Hrun.
  destruct c as [| | | | | | p e | | | | |]; simpl in Hrun;
    try (injection Hrun as <-; apply progress_refl; exact Hinv).
  destruct (position i (nodes g)) as [k|] eqn:Hp; [|injection Hrun as <-; apply progress_refl; exact Hinv].
  destruct (nth_error (nodes g) k) as [n|] eqn:Hn; [|discriminate].
  destruct (position_Some _ _ _ Hp) as [n' [Hn' Hi]]. rewrite Hn in Hn'. injection Hn' as <-.
  apply (foldM_progress (universal_target e)
           (fun g1 => (exists m, In m (nodes g1) /\ individual m = i /\
                                 In (ObjectAllValuesFrom p e) (concepts m)) /\
                      exists m, In m (nodes g1) /\ individual m = i /\ incl (roles n) (roles m))
           (map snd (filter (fun r => ope_eqb (fst r) p) (roles n))))
    with (g := g) (L := L) (h := h);
    [| | exact Hinv | | exact Hrun].
  - intros t Ht g1 L1 h1 flag1 st1 Hinv1 [Hc1 [m [Hm [Hmi Hmr]]]] Hrun1.
    unfold universal_target in Hrun1.
    destruct (position t (nodes g1)) as [tk|] eqn:Htk;
      [|injection Hrun1 as <-; apply progress_refl; exact Hinv1].
    destruct (inv_node_concept g1 L1 h1 i _ Hinv1 Hc1) as [Hsc Hd].
    apply (push_at_progress g1 L1 h1 flag1 t tk e st1 Hinv1 Htk); [exact (sc_all p e Hsc) | | exact Hrun1].
    apply in_map_iff in Ht as [[q t'] [Ht' Hq]]. simpl in Ht'. subst t'.
    apply filter_In in Hq as [Hq Hqp]. simpl in Hqp. apply ope_eqb_eq in Hqp. subst q.
    pose proof (inv_node_role g1 L1 h1 m p t Hinv1 Hm (Hmr _ Hq)). rewrite Hmi in *.
    simpl in Hd. lia.
  - intros g1 g2 [Hc1 [m [Hm [Hmi Hmr]]]] He. split; [eapply has_concept_ext; eauto|].
    apply In_nth_error in Hm as [j Hj].
    destruct (He j m Hj) as [m' [Hj' [Hi' [_ Hr']]]].
    exists m'. split; [eapply nth_error_In; eauto|]. split; [congruence|].
    eapply incl_tran; eauto.
  - split; [exact Hex|]. exists n. split; [eapply nth_error_In; eauto|].
    split; [exact Hi | apply incl_refl].
Qed.


(** *** The rules never run out of fuel; the loops do so only on a short budget *)

Lemma foldM_not_oof {A B} (f : A -> B -> Res A) l a :
  (forall a x, f a x <> OutOfFuel) -> foldM f l a <> OutOfFuel.
Proof.
  intros Hf. revert a; induction l as [|x l IH]; intros a; simpl; [discriminate|].
  destruct (f a x) eqn:E; simpl; [apply IH | discriminate | destruct (Hf _ _ E)].
Qed.

Lemma push_concept_at_not_oof g k c : push_concept_at g k c <> OutOfFuel.
Proof.
  unfold push_concept_at. destruct (nth_error (nodes g) k); [|discriminate].
  destruct (contains_ce _ c); [discriminate|].
  destruct (modify_nth _ _ _); discriminate.
Qed.

Lemma push_or_not_oof g k c flag :
  ('(g1, added) <- push_concept_at g k c ;; Ok (g1, flag || added)) <> OutOfFuel.
Proof.
  pose proof (push_concept_at_not_oof g k c).
  destruct (push_concept_at g k c) as [[? ?]| |]; simpl; congruence.
Qed.

Lemma add_to_node_not_oof st i c : add_to_node st i c <> OutOfFuel.
Proof.
  destruct st as [g flag]. unfold add_to_node. destruct (get_or_create_node g i).
  apply push_or_not_oof.
Qed.

Lemma rule_not_oof
  (step : Individual -> CompletionGraph * bool -> ClassExpression -> Res (CompletionGraph * bool)) g :
  (forall i st c, step i st c <> OutOfFuel) ->
  foldM (fun st n => foldM (step (individual n)) (concepts n) st) (nodes g) (g, false) <> OutOfFuel.
Proof.
  intros Hs. apply foldM_not_oof. intros st n. apply foldM_not_oof. apply Hs.
Qed.

Lemma conjunction_step_not_oof i st c : conjunction_step i st c <> OutOfFuel.
Proof.
  destruct c; simpl; try discriminate. apply foldM_not_oof. intros; apply add_to_node_not_oof.
Qed.

Lemma disjunction_step_not_oof i st c : disjunction_step i st c <> OutOfFuel.
Proof.
  destruct c as [| | l | | | | | | | | |]; simpl; try discriminate.
  destruct l; [discriminate | apply add_to_node_not_oof].
Qed.

Lemma existential_step_not_oof i st c : existential_step i st c <> OutOfFuel.
Proof.
  destruct st as [g flag]. destruct c as [| | | | | p e | | | | | |]; simpl; try discriminate.
  destruct (position i (nodes g)) as [k|]; [|discriminate].
  destruct (nth_error (nodes g) k) as [n|]; [|discriminate].
  destruct (first_target (roles n) p) as [t|].
  - destruct (position t (nodes g)); [apply push_or_not_oof | discriminate].
  - unfold fresh_individual. destruct (N.eqb (next_fresh_id g) u32_max); simpl; [discriminate|].
    destruct (modify_nth _ _ _); discriminate.
Qed.

Lemma universal_step_not_oof i st c : universal_step i st c <> OutOfFuel.
Proof.
  destruct st as [g flag]. destruct c as [| | | | | | p e | | | | |]; simpl; try discriminate.
  destruct (position i (nodes g)) as [k|]; [|discriminate].
  destruct (nth_error (nodes g) k) as [n|]; [|discriminate].
  apply foldM_not_oof. intros [g1 f1] t. unfold universal_target.
  destruct (position t (nodes g1)); [apply push_or_not_oof | discriminate].
Qed.

Lemma conjunction_pass_progress g L h st' :
  Inv sc I0 H g L h -> conjunction_pass g = Ok st' -> progress sc props I0 H g L h false st'.
Proof. apply rule_progress. exact conjunction_step_progress. Qed.

Lemma disjunction_rule_progress g L h st' :
  Inv sc I0 H g L h -> apply_disjunction_rule g = Ok st' -> progress sc props I0 H g L h false st'.
Proof. apply rule_progress. exact disjunction_step_progress. Qed.

Lemma existential_rule_progress g L h st' :
  Inv sc I0 H g L h -> apply_existential_rule g = Ok st' -> progress sc props I0 H g L h false st'.
Proof. apply rule_progress. exact existential_step_progress. Qed.

Lemma universal_rule_progress g L h st' :
  Inv sc I0 H g L h -> apply_universal_rule g = Ok st' -> progress sc props I0 H g L h false st'.
Proof. apply rule_progress. exact universal_step_progress. Qed.

Lemma conjunction_loop_progress fuel g L h any st' :
  Inv sc I0 H g L h -> conjunction_loop fuel g any = Ok st' ->
  progress sc props I0 H g L h any st'.
Proof.
  revert g L h any; induction fuel as [|fuel IH]; intros g L h any Hinv Hrun; simpl in Hrun;
    [discriminate|].
  destruct (conjunction_pass g) as [[g1 b]| |] eqn:E; simpl in Hrun; try discriminate.
  destruct (conjunction_pass_progress g L h _ Hinv E) as [L1 [h1 [Hi1 [He1 [Hm1 Hf1]]]]].
  simpl in *. destruct b.
  - destruct (Hf1 eq_refl) as [C|Hlt]; [discriminate|].
    apply (progress_trans g L h any g1 true st'); [|intros L2 h2 Hi2; exact (IH g1 L2 h2 true Hi2 Hrun)].
    exists L1, h1. simpl. split; [exact Hi1|]. split; [exact He1|]. split; [lia|]. intros _; right; lia.
  - injection Hrun as <-. exists L1, h1. simpl. split; [exact Hi1|]. split; [exact He1|].
    split; [lia | auto].
Qed.

Lemma conjunction_loop_total fuel g L h any :
  Inv sc I0 H g L h -> measure sc props g L h < fuel -> conjunction_loop fuel g any <> OutOfFuel.
Proof.
  revert g L h any; induction fuel as [|fuel IH]; intros g L h any Hinv Hf; [lia|]. simpl.
  destruct (conjunction_pass g) as [[g1 b]| |] eqn:E; simpl; [| discriminate |].
  - destruct (conjunction_pass_progress g L h _ Hinv E) as [L1 [h1 [Hi1 [_ [Hm1 Hf1]]]]].
    simpl in *. destruct b; [|discriminate].
    destruct (Hf1 eq_refl) as [C|Hlt]; [discriminate|].
    apply (IH g1 L1 h1 true Hi1). lia.
  - destruct (rule_not_oof conjunction_step g conjunction_step_not_oof E).
Qed.

(** [expand] with a budget above the measure always returns or aborts. *)
Lemma expand_total fuel g L h :
  Inv sc I0 H g L h -> measure sc props g L h + 2 <= fuel -> expand fuel g <> OutOfFuel.
Proof.
  revert g L h; induction fuel as [|fuel IH]; intros g L h Hinv Hf; [lia|]. simpl.
  unfold apply_conjunction_rule.
  destruct (conjunction_loop fuel g false) as [[g1 b1]| |] eqn:E1; simpl;
    [| discriminate | destruct (conjunction_loop_total fuel g L h false Hinv ltac:(lia) E1)].
  destruct (conjunction_loop_progress fuel g L h false _ Hinv E1) as [L1 [h1 [Hi1 [_ [Hm1 Hf1]]]]].
  destruct (apply_disjunction_rule g1) as [[g2 b2]| |] eqn:E2; simpl;
    [| discriminate | destruct (rule_not_oof disjunction_step g1 disjunction_step_not_oof E2)].
  destruct (disjunction_rule_progress g1 L1 h1 _ Hi1 E2) as [L2 [h2 [Hi2 [_ [Hm2 Hf2]]]]].
  destruct (apply_existential_rule g2) as [[g3 b3]| |] eqn:E3; simpl;
    [| discriminate | destruct (rule_not_oof existential_step g2 existential_step_not_oof E3)].
  destruct (existential_rule_progress g2 L2 h2 _ Hi2 E3) as [L3 [h3 [Hi3 [_ [Hm3 Hf3]]]]].
  destruct (apply_universal_rule g3) as [[g4 b4]| |] eqn:E4; simpl;
    [| discriminate | destruct (rule_not_oof universal_step g3 universal_step_not_oof E4)].
  destruct (universal_rule_progress g3 L3 h3 _ Hi3 E4) as [L4 [h4 [Hi4 [_ [Hm4 Hf4]]]]].
  simpl in *.
  destruct (b1 || b2 || b3 || b4) eqn:Eb; [|discriminate].
  apply (IH g4 L4 h4 Hi4).
  assert (Hlt : measure sc props g4 L4 h4 < measure sc props g L h).
  { destruct b1; [destruct (Hf1 eq_refl) as [C|C]; [discriminate | lia]|].
    destruct b2; [destruct (Hf2 eq_refl) as [C|C]; [discriminate | lia]|].
    destruct b3; [destruct (Hf3 eq_refl) as [C|C]; [discriminate | lia]|].
    destruct b4; [destruct (Hf4 eq_refl) as [C|C]; [discriminate | lia]|].
    discriminate. }
  lia.
Qed.

End Expansion.

(** *** The initial graph *)

Lemma closure_inter g l e : In (ObjectIntersectionOf l) (closure g) -> In e l -> In e (closure g).
Proof.
  intros Hc He. apply (closure_sub g _ e Hc). simpl. right.
  apply in_flat_map. exists e. split; [exact He | apply subterms_self].
Qed.

Lemma closure_union g l e : In (ObjectUnionOf l) (closure g) -> In e l -> In e (closure g).
Proof.
  intros Hc He. apply (closure_sub g _ e Hc). simpl. right.
  apply in_flat_map. exists e. split; [exact He | apply subterms_self].
Qed.

Lemma closure_some g p e : In (ObjectSomeValuesFrom p e) (closure g) -> In e (closure g).
Proof. intros Hc. apply (closure_sub g _ e Hc). simpl. right. apply subterms_self. Qed.

Lemma closure_all g p e : In (ObjectAllValuesFrom p e) (closure g) -> In e (closure g).
Proof. intros Hc. apply (closure_sub g _ e Hc). simpl. right. apply subterms_self. Qed.

Lemma some_properties_In sc p e :
  In (ObjectSomeValuesFrom p e) sc -> In p (some_properties sc).
Proof.
  intros Hc. unfold some_properties. apply in_flat_map.
  exists (ObjectSomeValuesFrom p e). split; [exact Hc | left; reflexivity].
Qed.

Lemma initial_inv g :
  Inv (closure g) (graph_individuals g) (list_max (map depth (closure g))) g
      (graph_individuals g) (fun _ => list_max (map depth (closure g))).
Proof.
  constructor.
  - intros n Hn. unfold graph_individuals. apply in_or_app. left. apply in_map. exact Hn.
  - intros n p t Hn Hr. split; [|lia].
    unfold graph_individuals. apply in_or_app. right. apply in_flat_map.
    exists n. split; [exact Hn|]. apply in_map_iff. exists (p, t). auto.
  - intros n c Hn Hc. pose proof (closure_concepts g n c Hn Hc) as Hcl.
    split; [exact Hcl|]. apply in_list_max. apply in_map. exact Hcl.
  - intros y Hy. left. exact Hy.
  - intros y Hy. auto.
  - intros y _. lia.
Qed.

(** Every run of [is_consistent] stops, by an answer or an abort, once
    the budget exceeds the measure of the initial graph. *)
Lemma is_consistent_total r :
  exists fuel, is_consistent fuel r <> OutOfFuel.
Proof.
  set (g0 := graph (initialize r)).
  set (sc := closure g0).
  set (Hm := list_max (map depth sc)).
  exists (measure sc (some_properties sc) g0 (graph_individuals g0) (fun _ => Hm) + 2).
  unfold is_consistent. fold g0.
  destruct (expand _ g0) eqn:E; simpl; [discriminate | discriminate |].
  exfalso.
  refine (expand_total sc (some_properties sc) (graph_individuals g0) Hm _ _ _ _ _ _
            g0 (graph_individuals g0) (fun _ => Hm) _ _ E).
  - apply closure_inter.
  - apply closure_union.
  - apply closure_some.
  - apply closure_all.
  - apply some_properties_In.
  - apply initial_inv.
  - lia.
Qed.

(** C3 (amended): [is_consistent] terminates on every input ontology: with a
    large enough budget it returns an answer or aborts with a panic (such as
    the overflow of the [u32] fresh-individual counter), never running out.
    This does not come from blocking; the code has none, and a successor
    whose concepts are a subset of its parent's is still expanded.  It
    comes from the ∃-rule firing at most once per node and property, and
    from every concept being a sub-expression of the initial graph.  On the
    cyclic ontology SubClassOf(Person, ∃hasParent.Person) with
    ClassAssertion(Person, i) it returns true. *)
Theorem is_consistent_terminates :
  (forall r, exists fuel, is_consistent fuel r <> OutOfFuel) /\
  exists r', is_consistent 20 (TableauReasoner_new ont_cyclic) = Ok (r', true).
Proof.
  split; [exact is_consistent_total|].
  eexists. vm_compute. reflexivity.
Qed.

(** * Further properties of the code *)

(** ** Lookups in a growing graph *)

Lemma position_spec x l k :
  position x l = Some k <->
  (exists n, nth_error l k = Some n /\ individual n = x) /\
  (forall j m, j < k -> nth_error l j = Some m -> individual m <> x).
Proof.
  revert k; induction l as [|a l IH]; intros k; simpl.
  - split; [discriminate|]. intros [[n [Hn _]] _]. destruct k; discriminate.
  - destruct (individual_eqb (individual a) x) eqn:E.
    + apply individual_eqb_eq in E. split.
      * intros Hk. injection Hk as <-. split; [exists a; auto | intros j m Hj; lia].
      * intros [_ Hlt]. destruct k as [|k]; [reflexivity|].
        exfalso. apply (Hlt 0 a); [lia | reflexivity | exact E].
    + assert (Ea : individual a <> x) by (intros C; apply individual_eqb_eq in C; congruence).
      destruct k as [|k].
      * split; [destruct (position x l); discriminate|].
        intros [[n [Hn Hi]] _]. simpl in Hn. injection Hn as <-. contradiction.
      * split.
        -- intros Hk.
           assert (P : position x l = Some k)
             by (destruct (position x l); simpl in Hk; congruence).
           apply IH in P as [Hn Hlt]. split; [exact Hn|].
           intros [|j] m Hj Hm; [simpl in Hm; injection Hm as <-; exact Ea|].
           apply (Hlt j m); [lia | exact Hm].
        -- intros [Hn Hlt].
           assert (P : position x l = Some k).
           { apply IH. split; [exact Hn|]. intros j m Hj Hm. apply (Hlt (S j) m); [lia | exact Hm]. }
           rewrite P. reflexivity.
Qed.

Lemma position_ext g g' x k :
  Ext g g' -> position x (nodes g) = Some k -> position x (nodes g') = Some k.
Proof.
  intros He Hp. apply position_spec in Hp as [[n [Hn Hi]] Hlt]. apply position_spec. split.
  - destruct (He k n Hn) as [n' [Hn' [Hi' _]]]. exists n'. split; [exact Hn' | congruence].
  - intros j m Hj Hm.
    destruct (nth_error (nodes g) j) as [m0|] eqn:E0.
    + destruct (He j m0 E0) as [m0' [Hm0' [Hi0 _]]]. rewrite Hm in Hm0'. injection Hm0' as <-.
      rewrite Hi0. exact (Hlt j m0 Hj E0).
    + exfalso. apply nth_error_None in E0.
      assert (k < List.length (nodes g)) by (apply nth_error_Some; congruence). lia.
Qed.

Lemma node_of_ext g g' x n :
  Ext g g' -> node_of g x = Some n ->
  exists n', node_of g' x = Some n' /\ incl (concepts n) (concepts n') /\ incl (roles n) (roles n').
Proof.
  intros He Hn. rewrite node_of_position in *.
  destruct (position x (nodes g)) as [k|] eqn:Hp; [|discriminate].
  rewrite (position_ext g g' x k He Hp).
  destruct (He k n Hn) as [n' [Hn' [_ [Hc Hr]]]]. exists n'. auto.
Qed.

Lemma node_of_ext_some g g' x : Ext g g' -> node_of g x <> None -> node_of g' x <> None.
Proof.
  intros He Hn. destruct (node_of g x) as [n|] eqn:E; [|contradiction].
  destruct (node_of_ext g g' x n He E) as [n' [-> _]]. discriminate.
Qed.

Lemma carries_ext g g' x c : Ext g g' -> carries g x c -> carries g' x c.
Proof.
  unfold carries. intros He Hc. destruct (node_of g x) as [n|] eqn:E; [|contradiction].
  destruct (node_of_ext g g' x n He E) as [n' [-> [Hcs _]]]. apply Hcs. exact Hc.
Qed.

Lemma recorded_ext g g' ax : Ext g g' -> recorded g ax -> recorded g' ax.
Proof.
  intros He. destruct ax as [| | |a]; simpl; auto.
  destruct a; simpl; intros Hr.
  - intros i Hi. exact (node_of_ext_some g g' i He (Hr i Hi)).
  - intros i Hi. exact (node_of_ext_some g g' i He (Hr i Hi)).
  - exact (carries_ext g g' _ _ He Hr).
  - destruct Hr as [m [Hm Hpm]]. destruct (node_of_ext g g' _ m He Hm) as [m' [Hm' [_ Hr']]].
    exists m'. auto.
  - exact (node_of_ext_some g g' _ He Hr).
  - exact (node_of_ext_some g g' _ He Hr).
  - exact (node_of_ext_some g g' _ He Hr).
  - exact I.
Qed.

Lemma node_of_In g x n : node_of g x = Some n -> In n (nodes g) /\ individual n = x.
Proof.
  unfold node_of. intros E. apply find_some in E as [Hn Hi].
  split; [exact Hn | apply individual_eqb_eq; exact Hi].
Qed.

(** ** The graph operations *)

Lemma get_or_create_node_ext g i : Ext g (fst (get_or_create_node g i)).
Proof.
  unfold get_or_create_node. destruct (position i (nodes g)); [apply ext_refl | exact (ext_app g _ _)].
Qed.

Lemma get_or_create_node_position g i :
  position i (nodes (fst (get_or_create_node g i))) = Some (snd (get_or_create_node g i)).
Proof.
  unfold get_or_create_node. destruct (position i (nodes g)) eqn:Hp; [exact Hp|].
  simpl. apply position_add_node; [exact Hp | reflexivity].
Qed.

Lemma node_of_at g i k n :
  position i (nodes g) = Some k -> nth_error (nodes g) k = Some n -> node_of g i = Some n.
Proof. intros Hp Hn. rewrite node_of_position, Hp. exact Hn. Qed.

Lemma push_concept_at_ext g k c st' : push_concept_at g k c = Ok st' -> Ext g (fst st').
Proof.
  unfold push_concept_at. destruct (nth_error (nodes g) k) as [n|]; [|discriminate].
  destruct (contains_ce (concepts n) c); [intros Hr; injection Hr as <-; apply ext_refl|].
  destruct (modify_nth k (push_concept c) (nodes g)) as [l|] eqn:Hl; [|discriminate].
  intros Hr; injection Hr as <-. simpl.
  apply (ext_modify g k (push_concept c) l);
    [reflexivity | intros m; apply incl_appl, incl_refl | intros m; apply incl_refl | exact Hl].
Qed.

(** After [push_concept_at] on the first node of [i], that node carries [c]. *)
Lemma push_concept_at_carries g i k c st' :
  position i (nodes g) = Some k -> push_concept_at g k c = Ok st' -> carries (fst st') i c.
Proof.
  intros Hp Hrun. destruct (position_Some _ _ _ Hp) as [n [Hn Hi]].
  pose proof (push_concept_at_spec g k c n Hn) as Hs. unfold carries.
  destruct (contains_ce (concepts n) c) eqn:Hc.
  - rewrite Hs in Hrun. injection Hrun as <-. simpl.
    rewrite (node_of_at g i k n Hp Hn). apply contains_ce_In. exact Hc.
  - destruct Hs as [l [Hl Hs]]. rewrite Hs in Hrun. injection Hrun as <-. simpl.
    rewrite node_of_position. simpl.
    rewrite (modify_nth_position k (push_concept c) _ _ i (fun _ => eq_refl) Hl), Hp.
    rewrite (modify_nth_nth_error _ _ _ _ k Hl), Nat.eqb_refl, Hn. simpl.
    apply in_or_app. right. left. reflexivity.
Qed.

Lemma add_concept_ext g i c : Ext g (add_concept g i c).
Proof.
  unfold add_concept. pose proof (get_or_create_node_ext g i) as He.
  destruct (get_or_create_node g i) as [g1 k]. simpl in He.
  destruct (push_concept_at g1 k c) as [[g2 b]| |] eqn:E; [|exact He | exact He].
  exact (ext_trans _ _ _ He (push_concept_at_ext g1 k c _ E)).
Qed.

Lemma add_concept_carries g i c : carries (add_concept g i c) i c.
Proof.
  unfold add_concept. pose proof (get_or_create_node_position g i) as Hp.
  destruct (get_or_create_node g i) as [g1 k]. simpl in Hp.
  destruct (position_Some _ _ _ Hp) as [n [Hn _]].
  pose proof (push_concept_at_spec g1 k c n Hn) as Hs.
  destruct (contains_ce (concepts n) c) eqn:Hc.
  - rewrite Hs. exact (push_concept_at_carries g1 i k c _ Hp Hs).
  - destruct Hs as [l [_ Hs]]. rewrite Hs. exact (push_concept_at_carries g1 i k c _ Hp Hs).
Qed.

Lemma add_concept_noop g i c : carries g i c -> add_concept g i c = g.
Proof.
  unfold carries, add_concept, get_or_create_node. rewrite node_of_position.
  destruct (position i (nodes g)) as [k|] eqn:Hp; [|contradiction].
  destruct (nth_error (nodes g) k) as [n|] eqn:Hn; [|contradiction]. intros Hc.
  unfold push_concept_at. rewrite Hn.
  rewrite (proj2 (contains_ce_In (concepts n) c) Hc). reflexivity.
Qed.

Lemma add_role_ext g s p t : Ext g (add_role g s p t).
Proof.
  unfold add_role. pose proof (get_or_create_node_ext g s) as He.
  destruct (get_or_create_node g s) as [g1 k]. simpl in He.
  destruct (nth_error (nodes g1) k) as [n|]; [|exact He].
  destruct (contains_role (roles n) (p, t)); [exact He|].
  destruct (modify_nth k (push_role (p, t)) (nodes g1)) as [l|] eqn:Hl; [|exact He].
  apply (ext_trans _ _ _ He).
  apply (ext_modify g1 k (push_role (p, t)) l);
    [reflexivity | intros m; apply incl_refl | intros m; apply incl_appl, incl_refl | exact Hl].
Qed.

Lemma add_role_has g s p t :
  exists m, node_of (add_role g s p t) s = Some m /\ In (p, t) (roles m).
Proof.
  unfold add_role. pose proof (get_or_create_node_position g s) as Hp.
  destruct (get_or_create_node g s) as [g1 k]. simpl in Hp.
  destruct (position_Some _ _ _ Hp) as [n [Hn _]]. rewrite Hn.
  destruct (contains_role (roles n) (p, t)) eqn:Hc.
  - exists n. split; [exact (node_of_at g1 s k n Hp Hn) | apply contains_role_In; exact Hc].
  - destruct (modify_nth_Some k (push_role (p, t)) _ _ Hn) as [l Hl]. rewrite Hl.
    exists (push_role (p, t) n). split.
    + apply (node_of_at _ s k); simpl.
      * rewrite (position_push_role k (p, t) _ _ s Hl). exact Hp.
      * rewrite (modify_nth_nth_error _ _ _ _ k Hl), Nat.eqb_refl, Hn. reflexivity.
    + simpl. apply in_or_app. right. left. reflexivity.
Qed.

Lemma add_role_noop g s p t m :
  node_of g s = Some m -> In (p, t) (roles m) -> add_role g s p t = g.
Proof.
  unfold add_role, get_or_create_node. rewrite node_of_position.
  destruct (position s (nodes g)) as [k|]; [|discriminate]. intros Hn Hin. rewrite Hn.
  rewrite (proj2 (contains_role_In (roles m) (p, t)) Hin). reflexivity.
Qed.

Lemma ensure_node_ext g i : Ext g (ensure_node g i).
Proof. apply get_or_create_node_ext. Qed.

Lemma ensure_node_has g i : node_of (ensure_node g i) i <> None.
Proof.
  unfold ensure_node. pose proof (get_or_create_node_position g i) as Hp.
  destruct (position_Some _ _ _ Hp) as [n [Hn _]].
  rewrite (node_of_at _ i _ n Hp Hn). discriminate.
Qed.

Lemma ensure_node_noop g i : node_of g i <> None -> ensure_node g i = g.
Proof.
  unfold ensure_node, get_or_create_node. rewrite node_of_position.
  destruct (position i (nodes g)); [reflexivity | contradiction].
Qed.

Lemma fold_left_ext {B} (f : CompletionGraph -> B -> CompletionGraph) l g :
  (forall g x, Ext g (f g x)) -> Ext g (fold_left f l g).
Proof.
  intros Hf. revert g; induction l as [|x l IH]; intros g; simpl; [apply ext_refl|].
  exact (ext_trans _ _ _ (Hf g x) (IH _)).
Qed.

Lemma fold_ensure_has l g i : In i l -> node_of (fold_left ensure_node l g) i <> None.
Proof.
  revert g; induction l as [|a l IH]; intros g Hi; simpl; [destruct Hi|].
  destruct Hi as [<-|Hi]; [|exact (IH _ Hi)].
  apply (node_of_ext_some (ensure_node g a)); [apply fold_left_ext, ensure_node_ext | apply ensure_node_has].
Qed.

Lemma fold_ensure_noop l g : (forall i, In i l -> node_of g i <> None) -> fold_left ensure_node l g = g.
Proof.
  revert g; induction l as [|a l IH]; intros g Hl; simpl; [reflexivity|].
  rewrite (ensure_node_noop g a (Hl a (or_introl eq_refl))). apply IH. intros i Hi. apply Hl. right; exact Hi.
Qed.

Lemma initialize_axiom_ext g ax : Ext g (initialize_axiom g ax).
Proof.
  destruct ax as [| | |a]; simpl; try apply ext_refl.
  destruct a; simpl;
    first [ apply ensure_node_ext | apply add_concept_ext | apply add_role_ext
          | apply fold_left_ext, ensure_node_ext | apply ext_refl ].
Qed.

Lemma initialize_axiom_recorded g ax : recorded (initialize_axiom g ax) ax.
Proof.
  destruct ax as [| | |a]; simpl; try exact I.
  destruct a; simpl.
  - intros i Hi. apply fold_ensure_has. exact Hi.
  - intros i Hi. apply fold_ensure_has. exact Hi.
  - apply add_concept_carries.
  - apply add_role_has.
  - apply ensure_node_has.
  - apply ensure_node_has.
  - apply ensure_node_has.
  - exact I.
Qed.

Lemma initialize_axiom_noop g ax : recorded g ax -> initialize_axiom g ax = g.
Proof.
  destruct ax as [| | |a]; simpl; try reflexivity.
  destruct a; simpl; intros Hr.
  - apply fold_ensure_noop. exact Hr.
  - apply fold_ensure_noop. exact Hr.
  - apply add_concept_noop. exact Hr.
  - destruct Hr as [m [Hm Hin]]. exact (add_role_noop g _ _ _ m Hm Hin).
  - apply ensure_node_noop. exact Hr.
  - apply ensure_node_noop. exact Hr.
  - apply ensure_node_noop. exact Hr.
  - reflexivity.
Qed.

Lemma initialize_fold_ext l g : Ext g (fold_left initialize_axiom l g).
Proof. apply fold_left_ext. apply initialize_axiom_ext. Qed.

Lemma initialize_fold_recorded l g ax : In ax l -> recorded (fold_left initialize_axiom l g) ax.
Proof.
  revert g; induction l as [|a l IH]; intros g Hax; simpl; [destruct Hax|].
  destruct Hax as [<-|Hax]; [|exact (IH _ Hax)].
  apply (recorded_ext (initialize_axiom g a)); [apply initialize_fold_ext | apply initialize_axiom_recorded].
Qed.

Lemma initialize_fold_noop l g : (forall ax, In ax l -> recorded g ax) -> fold_left initialize_axiom l g = g.
Proof.
  revert g; induction l as [|a l IH]; intros g Hl; simpl; [reflexivity|].
  rewrite (initialize_axiom_noop g a (Hl a (or_introl eq_refl))).
  apply IH. intros ax Hax. apply Hl. right; exact Hax.
Qed.

(** ** The rules only extend the graph *)

Lemma foldM_ext {B} (f : CompletionGraph * bool -> B -> Res (CompletionGraph * bool)) l :
  (forall st x st', f st x = Ok st' -> Ext (fst st) (fst st')) ->
  forall st st', foldM f l st = Ok st' -> Ext (fst st) (fst st').
Proof.
  intros Hf. induction l as [|x l IH]; intros st st' Hrun; simpl in Hrun.
  - injection Hrun as <-. apply ext_refl.
  - destruct (f st x) as [st1| |] eqn:E; simpl in Hrun; try discriminate.
    exact (ext_trans _ _ _ (Hf _ _ _ E) (IH _ _ Hrun)).
Qed.

Lemma push_or_ext g k c flag st' :
  ('(g1, added) <- push_concept_at g k c ;; Ok (g1, flag || added)) = Ok st' -> Ext g (fst st').
Proof.
  destruct (push_concept_at g k c) as [[g1 a]| |] eqn:E; simpl; intros Hr; try discriminate.
  injection Hr as <-. exact (push_concept_at_ext g k c _ E).
Qed.

Lemma add_to_node_ext st i c st' : add_to_node st i c = Ok st' -> Ext (fst st) (fst st').
Proof.
  destruct st as [g flag]. unfold add_to_node. pose proof (get_or_create_node_ext g i) as He.
  destruct (get_or_create_node g i) as [g1 k]. intros Hr.
  exact (ext_trans _ _ _ He (push_or_ext g1 k c flag st' Hr)).
Qed.

Lemma conjunction_step_ext i st c st' : conjunction_step i st c = Ok st' -> Ext (fst st) (fst st').
Proof.
  destruct c; simpl; try (intros Hr; injection Hr as <-; apply ext_refl).
  apply foldM_ext. intros st1 x st2. apply add_to_node_ext.
Qed.

Lemma disjunction_step_ext i st c st' : disjunction_step i st c = Ok st' -> Ext (fst st) (fst st').
Proof.
  destruct c as [| | l | | | | | | | | |]; simpl; try (intros Hr; injection Hr as <-; apply ext_refl).
  destruct l; [intros Hr; injection Hr as <-; apply ext_refl | apply add_to_node_ext].
Qed.

Lemma existential_step_ext i st c st' : existential_step i st c = Ok st' -> Ext (fst st) (fst st').
Proof.
  destruct st as [g flag].
  destruct c as [| | | | | p e | | | | | |]; simpl; try (intros Hr; injection Hr as <-; apply ext_refl).
  destruct (position i (nodes g)) as [k|]; [|discriminate].
  destruct (nth_error (nodes g) k) as [n|]; [|discriminate].
  destruct (first_target (roles n) p) as [t|].
  - destruct (position t (nodes g)) as [tk|]; [apply push_or_ext|].
    intros Hr; injection Hr as <-; apply ext_refl.
  - unfold fresh_individual. destruct (N.eqb (next_fresh_id g) u32_max); simpl; [discriminate|].
    destruct (modify_nth k (push_role (p, fresh_name (N.succ (next_fresh_id g)))) (nodes g))
      as [l|] eqn:Hl; [|discriminate].
    intros Hr; injection Hr as <-. simpl.
    apply (ext_trans g (set_nodes g l)).
    + apply (ext_modify g k (push_role (p, fresh_name (N.succ (next_fresh_id g)))) l);
        [reflexivity | intros m; apply incl_refl | intros m; apply incl_appl, incl_refl | exact Hl].
    + exact (ext_app (set_nodes g l) _ _).
Qed.

Lemma universal_step_ext i st c st' : universal_step i st c = Ok st' -> Ext (fst st) (fst st').
Proof.
  destruct st as [g flag].
  destruct c as [| | | | | | p e | | | | |]; simpl; try (intros Hr; injection Hr as <-; apply ext_refl).
  destruct (position i (nodes g)) as [k|]; [|intros Hr; injection Hr as <-; apply ext_refl].
  destruct (nth_error (nodes g) k) as [n|]; [|discriminate].
  apply (foldM_ext (universal_target e)). intros [g1 f1] t st2. unfold universal_target.
  destruct (position t (nodes g1)); [apply push_or_ext | intros Hr; injection Hr as <-; apply ext_refl].
Qed.

Lemma rule_ext
  (step : Individual -> CompletionGraph * bool -> ClassExpression -> Res (CompletionGraph * bool)) g st' :
  (forall i st c st', step i st c = Ok st' -> Ext (fst st) (fst st')) ->
  foldM (fun st n => foldM (step (individual n)) (concepts n) st) (nodes g) (g, false) = Ok st' ->
  Ext g (fst st').
Proof.
  intros Hs Hrun. apply (foldM_ext _ (nodes g) (fun st n st2 => foldM_ext _ (concepts n) (Hs (individual n)) st st2) (g, false) st' Hrun).
Qed.

Lemma conjunction_loop_ext fuel g any st' : conjunction_loop fuel g any = Ok st' -> Ext g (fst st').
Proof.
  revert g any; induction fuel as [|fuel IH]; intros g any Hrun; simpl in Hrun; [discriminate|].
  destruct (conjunction_pass g) as [[g1 b]| |] eqn:E; simpl in Hrun; try discriminate.
  pose proof (rule_ext conjunction_step g _ conjunction_step_ext E) as He. simpl in He.
  destruct b; [exact (ext_trans _ _ _ He (IH _ _ Hrun))|].
  injection Hrun as <-. exact He.
Qed.

Lemma expand_ext fuel g g' : expand fuel g = Ok g' -> Ext g g'.
Proof.
  revert g; induction fuel as [|fuel IH]; intros g Hrun; simpl in Hrun; [discriminate|].
  unfold apply_conjunction_rule in Hrun.
  destruct (conjunction_loop fuel g false) as [[g1 b1]| |] eqn:E1; simpl in Hrun; try discriminate.
  destruct (apply_disjunction_rule g1) as [[g2 b2]| |] eqn:E2; simpl in Hrun; try discriminate.
  destruct (apply_existential_rule g2) as [[g3 b3]| |] eqn:E3; simpl in Hrun; try discriminate.
  destruct (apply_universal_rule g3) as [[g4 b4]| |] eqn:E4; simpl in Hrun; try discriminate.
  pose proof (conjunction_loop_ext _ _ _ _ E1) as He1.
  pose proof (rule_ext disjunction_step g1 _ disjunction_step_ext E2) as He2.
  pose proof (rule_ext existential_step g2 _ existential_step_ext E3) as He3.
  pose proof (rule_ext universal_step g3 _ universal_step_ext E4) as He4.
  simpl in *.
  assert (He : Ext g g4) by eauto using ext_trans.
  destruct (b1 || b2 || b3 || b4); [exact (ext_trans _ _ _ He (IH _ Hrun))|].
  injection Hrun as <-. exact He.
Qed.

(** ** A run that raises no flag changes nothing *)

Lemma foldM_sticky {B} (f : CompletionGraph * bool -> B -> Res (CompletionGraph * bool)) l :
  (forall g x st', f (g, true) x = Ok st' -> snd st' = true) ->
  forall g st', foldM f l (g, true) = Ok st' -> snd st' = true.
Proof.
  intros Hf. induction l as [|x l IH]; intros g st' Hrun; simpl in Hrun.
  - injection Hrun as <-. reflexivity.
  - destruct (f (g, true) x) as [[g1 b1]| |] eqn:E; simpl in Hrun; try discriminate.
    pose proof (Hf _ _ _ E) as Hb. simpl in Hb. subst b1. exact (IH _ _ Hrun).
Qed.

Lemma foldM_quiet {B} (f : CompletionGraph * bool -> B -> Res (CompletionGraph * bool)) l :
  (forall g x st', f (g, true) x = Ok st' -> snd st' = true) ->
  (forall g x g', f (g, false) x = Ok (g', false) -> g' = g) ->
  forall g g', foldM f l (g, false) = Ok (g', false) ->
  g' = g /\ forall x, In x l -> f (g, false) x = Ok (g, false).
Proof.
  intros Hs Hq. induction l as [|x l IH]; intros g g' Hrun; simpl in Hrun.
  - injection Hrun as <-. split; [reflexivity | intros x []].
  - destruct (f (g, false) x) as [[g1 b1]| |] eqn:E; simpl in Hrun; try discriminate.
    destruct b1; [pose proof (foldM_sticky f l Hs _ _ Hrun) as C; discriminate|].
    pose proof (Hq _ _ _ E) as ->. destruct (IH _ _ Hrun) as [-> Hall].
    split; [reflexivity|]. intros y [<-|Hy]; [exact E | exact (Hall y Hy)].
Qed.

Lemma push_or_sticky g k c st' :
  ('(g1, added) <- push_concept_at g k c ;; Ok (g1, true || added)) = Ok st' -> snd st' = true.
Proof.
  destruct (push_concept_at g k c) as [[g1 a]| |]; simpl; intros Hr; try discriminate.
  injection Hr as <-. reflexivity.
Qed.

(** A push that raises no flag found the concept already there. *)
Lemma push_or_quiet g i k c g' :
  position i (nodes g) = Some k ->
  ('(g1, added) <- push_concept_at g k c ;; Ok (g1, false || added)) = Ok (g', false) ->
  g' = g /\ carries g i c.
Proof.
  intros Hp Hrun. destruct (position_Some _ _ _ Hp) as [n [Hn _]].
  pose proof (push_concept_at_spec g k c n Hn) as Hs.
  destruct (contains_ce (concepts n) c) eqn:Hc.
  - rewrite Hs in Hrun. simpl in Hrun. injection Hrun as <-. split; [reflexivity|].
    unfold carries. rewrite (node_of_at g i k n Hp Hn). apply contains_ce_In. exact Hc.
  - destruct Hs as [l [_ Hs]]. rewrite Hs in Hrun. simpl in Hrun. discriminate.
Qed.

Lemma add_to_node_sticky g i c st' : add_to_node (g, true) i c = Ok st' -> snd st' = true.
Proof.
  unfold add_to_node. destruct (get_or_create_node g i) as [g1 k]. apply push_or_sticky.
Qed.

Lemma add_to_node_quiet g i c g' :
  add_to_node (g, false) i c = Ok (g', false) -> g' = g /\ carries g i c.
Proof.
  unfold add_to_node, get_or_create_node.
  destruct (position i (nodes g)) as [k|] eqn:Hp; [apply push_or_quiet; exact Hp|].
  unfold add_node, push_concept_at. simpl.
  rewrite nth_error_app2, Nat.sub_diag by lia. simpl.
  rewrite modify_nth_last. simpl. discriminate.
Qed.

Lemma conjunction_step_sticky i g c st' : conjunction_step i (g, true) c = Ok st' -> snd st' = true.
Proof.
  destruct c; simpl; try (intros Hr; injection Hr as <-; reflexivity).
  apply (foldM_sticky (fun st conjunct => add_to_node st i conjunct)).
  intros g1 x st1. apply add_to_node_sticky.
Qed.

Lemma conjunction_step_quiet i g c g' :
  conjunction_step i (g, false) c = Ok (g', false) ->
  g' = g /\ match c with ObjectIntersectionOf l => forall e, In e l -> carries g i e | _ => True end.
Proof.
  destruct c; simpl; try (intros Hr; injection Hr as <-; split; [reflexivity | exact I]).
  intros Hr.
  destruct (foldM_quiet (fun st conjunct => add_to_node st i conjunct) l
              (fun g1 x st1 => add_to_node_sticky g1 i x st1)
              (fun g1 x g2 E => proj1 (add_to_node_quiet g1 i x g2 E)) g g' Hr) as [-> Hall].
  split; [reflexivity|]. intros e He. exact (proj2 (add_to_node_quiet g i e g (Hall e He))).
Qed.

Lemma disjunction_step_sticky i g c st' : disjunction_step i (g, true) c = Ok st' -> snd st' = true.
Proof.
  destruct c as [| | l | | | | | | | | |]; simpl; try (intros Hr; injection Hr as <-; reflexivity).
  destruct l; [intros Hr; injection Hr as <-; reflexivity | apply add_to_node_sticky].
Qed.

Lemma disjunction_step_quiet i g c g' :
  disjunction_step i (g, false) c = Ok (g', false) ->
  g' = g /\ match c with ObjectUnionOf (e :: _) => carries g i e | _ => True end.
Proof.
  destruct c as [| | l | | | | | | | | |]; simpl;
    try (intros Hr; injection Hr as <-; split; [reflexivity | exact I]).
  destruct l as [|e rest]; [intros Hr; injection Hr as <-; split; [reflexivity | exact I]|].
  apply add_to_node_quiet.
Qed.

Lemma existential_step_sticky i g c st' : existential_step i (g, true) c = Ok st' -> snd st' = true.
Proof.
  destruct c as [| | | | | p e | | | | | |]; simpl; try (intros Hr; injection Hr as <-; reflexivity).
  destruct (position i (nodes g)) as [k|]; [|discriminate].
  destruct (nth_error (nodes g) k) as [n|]; [|discriminate].
  destruct (first_target (roles n) p) as [t|].
  - destruct (position t (nodes g)); [apply push_or_sticky | intros Hr; injection Hr as <-; reflexivity].
  - unfold fresh_individual. destruct (N.eqb (next_fresh_id g) u32_max); simpl; [discriminate|].
    destruct (modify_nth _ _ _); [intros Hr; injection Hr as <-; reflexivity | discriminate].
Qed.

Lemma existential_step_quiet i g c g' :
  existential_step i (g, false) c = Ok (g', false) ->
  g' = g /\ match c with
            | ObjectSomeValuesFrom p e =>
                exists m t, node_of g i = Some m /\ first_target (roles m) p = Some t /\
                            (node_of g t = None \/ carries g t e)
            | _ => True
            end.
Proof.
  destruct c as [| | | | | p e | | | | | |]; simpl;
    try (intros Hr; injection Hr as <-; split; [reflexivity | exact I]).
  destruct (position i (nodes g)) as [k|] eqn:Hp; [|discriminate].
  destruct (nth_error (nodes g) k) as [n|] eqn:Hn; [|discriminate].
  destruct (first_target (roles n) p) as [t|] eqn:Hf.
  - destruct (position t (nodes g)) as [tk|] eqn:Ht.
    + intros Hr. destruct (push_or_quiet g t tk e g' Ht Hr) as [-> Hc].
      split; [reflexivity|]. exists n, t. split; [exact (node_of_at g i k n Hp Hn)|]. auto.
    + intros Hr; injection Hr as <-. split; [reflexivity|].
      exists n, t. split; [exact (node_of_at g i k n Hp Hn)|]. split; [exact Hf|].
      left. rewrite node_of_position, Ht. reflexivity.
  - unfold fresh_individual. destruct (N.eqb (next_fresh_id g) u32_max); simpl; [discriminate|].
    destruct (modify_nth _ _ _); discriminate.
Qed.

Lemma universal_target_sticky e g t st' : universal_target e (g, true) t = Ok st' -> snd st' = true.
Proof.
  unfold universal_target. destruct (position t (nodes g));
    [apply push_or_sticky | intros Hr; injection Hr as <-; reflexivity].
Qed.

Lemma universal_step_sticky i g c st' : universal_step i (g, true) c = Ok st' -> snd st' = true.
Proof.
  destruct c as [| | | | | | p e | | | | |]; simpl; try (intros Hr; injection Hr as <-; reflexivity).
  destruct (position i (nodes g)) as [k|]; [|intros Hr; injection Hr as <-; reflexivity].
  destruct (nth_error (nodes g) k) as [n|]; [|discriminate].
  apply foldM_sticky. intros g1 t st1. apply universal_target_sticky.
Qed.

Lemma universal_step_quiet i g c g' :
  universal_step i (g, false) c = Ok (g', false) ->
  g' = g /\ match c with
            | ObjectAllValuesFrom p e =>
                forall m t, node_of g i = Some m -> In (p, t) (roles m) ->
                            node_of g t = None \/ carries g t e
            | _ => True
            end.
Proof.
  destruct c as [| | | | | | p e | | | | |]; simpl;
    try (intros Hr; injection Hr as <-; split; [reflexivity | exact I]).
  destruct (position i (nodes g)) as [k|] eqn:Hp.
  2:{ intros Hr; injection Hr as <-. split; [reflexivity|].
      intros m t Hm. rewrite node_of_position, Hp in Hm. discriminate. }
  destruct (nth_error (nodes g) k) as [n|] eqn:Hn; [|discriminate].
  intros Hr.
  assert (Hq : forall g1 t g2, universal_target e (g1, false) t = Ok (g2, false) ->
                 g2 = g1 /\ (node_of g1 t = None \/ carries g1 t e)).
  { intros g1 t g2. unfold universal_target.
    destruct (position t (nodes g1)) as [tk|] eqn:Ht.
    - intros Hr1. destruct (push_or_quiet g1 t tk e g2 Ht Hr1) as [-> Hc]. auto.
    - intros Hr1; injection Hr1 as <-. split; [reflexivity|]. left.
      rewrite node_of_position, Ht. reflexivity. }
  destruct (foldM_quiet (universal_target e) _ (universal_target_sticky e)
              (fun g1 t g2 E => proj1 (Hq g1 t g2 E)) g g' Hr) as [-> Hall].
  split; [reflexivity|]. intros m t Hm Hin.
  rewrite (node_of_at g i k n Hp Hn) in Hm. injection Hm as <-.
  apply (proj2 (Hq g t g (Hall t ltac:(apply in_map_iff; exists (p, t); split; [reflexivity|];
                                     apply filter_In; split; [exact Hin|];
                                     simpl; apply ope_eqb_eq; reflexivity)))).
Qed.

Lemma rule_quiet
  (step : Individual -> CompletionGraph * bool -> ClassExpression -> Res (CompletionGraph * bool))
  (P : Individual -> ClassExpression -> Prop) g g' :
  (forall i g1 c st', step i (g1, true) c = Ok st' -> snd st' = true) ->
  (forall i c g1, step i (g, false) c = Ok (g1, false) -> g1 = g /\ P i c) ->
  (forall i g1 c g2, step i (g1, false) c = Ok (g2, false) -> g2 = g1) ->
  foldM (fun st n => foldM (step (individual n)) (concepts n) st) (nodes g) (g, false) = Ok (g', false) ->
  g' = g /\ forall n c, In n (nodes g) -> In c (concepts n) -> P (individual n) c.
Proof.
  intros Hs HP Hq Hrun.
  destruct (foldM_quiet (fun st n => foldM (step (individual n)) (concepts n) st) (nodes g)
              (fun g1 n st1 => foldM_sticky _ (concepts n) (Hs (individual n)) g1 st1)
              (fun g1 n g2 E => proj1 (foldM_quiet _ (concepts n) (Hs (individual n))
                                         (Hq (individual n)) g1 g2 E))
              g g' Hrun) as [-> Hall].
  split; [reflexivity|]. intros n c Hn Hc.
  destruct (foldM_quiet _ (concepts n) (Hs (individual n)) (Hq (individual n)) g g (Hall n Hn))
    as [_ Hc'].
  exact (proj2 (HP _ _ _ (Hc' c Hc))).
Qed.

Lemma conjunction_loop_quiet fuel g g' :
  conjunction_loop fuel g false = Ok (g', false) -> conjunction_pass g = Ok (g', false).
Proof.
  destruct fuel as [|fuel]; simpl; [discriminate|].
  destruct (conjunction_pass g) as [[g1 b]| |]; simpl; try discriminate.
  destruct b; [|exact (fun H => H)].
  intros Hr. exfalso.
  assert (Hs : forall f g0 st, conjunction_loop f g0 true = Ok st -> snd st = true).
  { induction f as [|f IH]; intros g0 st; simpl; [discriminate|].
    destruct (conjunction_pass g0) as [[g2 b2]| |]; simpl; try discriminate.
    destruct b2; [apply IH | intros E; injection E as <-; reflexivity]. }
  pose proof (Hs fuel g1 _ Hr). discriminate.
Qed.

(** The last round of [expand] raised no flag: its graph is a fixed point
    of every rule and is saturated. *)
Lemma expand_fixpoint fuel g g' :
  expand fuel g = Ok g' ->
  conjunction_pass g' = Ok (g', false) /\ apply_disjunction_rule g' = Ok (g', false) /\
  apply_existential_rule g' = Ok (g', false) /\ apply_universal_rule g' = Ok (g', false) /\
  saturated g'.
Proof.
  revert g; induction fuel as [|fuel IH]; intros g Hrun; simpl in Hrun; [discriminate|].
  unfold apply_conjunction_rule in Hrun.
  destruct (conjunction_loop fuel g false) as [[g1 b1]| |] eqn:E1; simpl in Hrun; try discriminate.
  destruct (apply_disjunction_rule g1) as [[g2 b2]| |] eqn:E2; simpl in Hrun; try discriminate.
  destruct (apply_existential_rule g2) as [[g3 b3]| |] eqn:E3; simpl in Hrun; try discriminate.
  destruct (apply_universal_rule g3) as [[g4 b4]| |] eqn:E4; simpl in Hrun; try discriminate.
  destruct (b1 || b2 || b3 || b4) eqn:Eb; [exact (IH _ Hrun)|].
  injection Hrun as <-.
  destruct b1, b2, b3, b4; try discriminate. clear Eb.
  (* the conjunction loop ran one quiet pass *)
  pose proof (conjunction_loop_quiet fuel g g1 E1) as P1.
  destruct (rule_quiet conjunction_step
              (fun i c => match c with ObjectIntersectionOf l => forall e, In e l -> carries g i e
                                       | _ => True end) g g1
              conjunction_step_sticky (fun i c g0 E => conjunction_step_quiet i g c g0 E)
              (fun i g0 c g2 E => proj1 (conjunction_step_quiet i g0 c g2 E)) P1) as [-> Q1].
  destruct (rule_quiet disjunction_step
              (fun i c => match c with ObjectUnionOf (e :: _) => carries g i e | _ => True end) g g2
              disjunction_step_sticky (fun i c g0 E => disjunction_step_quiet i g c g0 E)
              (fun i g0 c g3 E => proj1 (disjunction_step_quiet i g0 c g3 E)) E2) as [-> Q2].
  destruct (rule_quiet existential_step
              (fun i c => match c with
                          | ObjectSomeValuesFrom p e =>
                              exists m t, node_of g i = Some m /\ first_target (roles m) p = Some t /\
                                          (node_of g t = None \/ carries g t e)
                          | _ => True end) g g3
              existential_step_sticky (fun i c g0 E => existential_step_quiet i g c g0 E)
              (fun i g0 c g4 E => proj1 (existential_step_quiet i g0 c g4 E)) E3) as [-> Q3].
  destruct (rule_quiet universal_step
              (fun i c => match c with
                          | ObjectAllValuesFrom p e =>
                              forall m t, node_of g i = Some m -> In (p, t) (roles m) ->
                                          node_of g t = None \/ carries g t e
                          | _ => True end) g g4
              universal_step_sticky (fun i c g0 E => universal_step_quiet i g c g0 E)
              (fun i g0 c g5 E => proj1 (universal_step_quiet i g0 c g5 E)) E4) as [-> Q4].
  split; [exact P1|]. split; [exact E2|]. split; [exact E3|]. split; [exact E4|].
  intros n c Hn Hc.
  specialize (Q1 n c Hn Hc). specialize (Q2 n c Hn Hc). specialize (Q3 n c Hn Hc).
  specialize (Q4 n c Hn Hc). simpl in *.
  destruct c; auto.
Qed.

(** On a fixed point every budget of two or more reproduces the graph. *)
Lemma expand_on_fixpoint fuel g :
  2 <= fuel ->
  conjunction_pass g = Ok (g, false) -> apply_disjunction_rule g = Ok (g, false) ->
  apply_existential_rule g = Ok (g, false) -> apply_universal_rule g = Ok (g, false) ->
  expand fuel g = Ok g.
Proof.
  intros Hf E1 E2 E3 E4. destruct fuel as [|[|fuel]]; [lia | lia|].
  simpl. unfold apply_conjunction_rule. simpl. rewrite E1. simpl.
  rewrite E2. simpl. rewrite E3. simpl. rewrite E4. reflexivity.
Qed.

(** What [is_consistent] returns: the ontology, and the expansion of the
    initialized graph. *)
Lemma is_consistent_result fuel r r' b :
  is_consistent fuel r = Ok (r', b) ->
  exists g', expand fuel (graph (initialize r)) = Ok g' /\
             r' = mkReasoner (ontology r) g' /\ b = negb (has_clash g').
Proof.
  unfold is_consistent. destruct (expand fuel (graph (initialize r))) as [g'| |]; simpl;
    try discriminate.
  intros E. injection E as <- <-. exists g'. auto.
Qed.

Lemma has_clash_intro g n c :
  In n (nodes g) -> In (ObjectComplementOf c) (concepts n) -> In c (concepts n) -> has_clash g = true.
Proof.
  intros Hn Hnc Hc. unfold has_clash. apply existsb_exists. exists n. split; [exact Hn|].
  apply existsb_exists. exists (ObjectComplementOf c). split; [exact Hnc|].
  apply contains_ce_In. exact Hc.
Qed.

(** ** Helpers for the class hierarchy, the class list and the type map *)

Lemma class_eqb_case (a b : Class) : (class_eqb a b = true /\ a = b) \/ (class_eqb a b = false /\ a <> b).
Proof.
  destruct (class_eqb a b) eqn:E; [left; split; [reflexivity | apply class_eqb_eq; exact E]|].
  right. split; [reflexivity|]. intros <-. rewrite (proj2 (class_eqb_eq a a) eq_refl) in E. discriminate.
Qed.

Lemma individual_eqb_case (a b : Individual) :
  (individual_eqb a b = true /\ a = b) \/ (individual_eqb a b = false /\ a <> b).
Proof.
  destruct (individual_eqb a b) eqn:E; [left; split; [reflexivity | apply individual_eqb_eq; exact E]|].
  right. split; [reflexivity|]. intros <-. rewrite individual_eqb_refl in E. discriminate.
Qed.

Lemma mem_entry_push m k v a b : mem_class (entry_push m k v) a b <-> mem_class m a b \/ (a = k /\ b = v).
Proof.
  unfold mem_class. induction m as [|[k' l] m IH]; simpl.
  - destruct (class_eqb_case k a) as [[-> <-] | [-> Hne]]; simpl.
    + split; [intros [<-|[]]; right; auto | intros [[]|[_ ->]]; left; reflexivity].
    + split; [intros []| intros [[]|[-> _]]; congruence].
  - destruct (class_eqb_case k' k) as [[-> <-] | [-> Hne]]; simpl.
    + destruct (class_eqb_case k' a) as [[-> <-] | [-> Hne']].
      * rewrite in_app_iff. simpl. split; [intros [H|[<-|[]]]; auto | intros [H|[_ ->]]; auto].
      * split; [auto | intros [H|[-> _]]; [exact H | congruence]].
    + destruct (class_eqb_case k' a) as [[-> <-] | [-> Hne']].
      * split; [auto | intros [H|[-> _]]; [exact H | congruence]].
      * exact IH.
Qed.

Lemma mem_class_nil a b : ~ mem_class [] a b.
Proof. unfold mem_class. simpl. tauto. Qed.

Section Classify.
Variable S : Class -> Class -> Res bool.

Lemma classify_inner_spec c M h h' :
  foldM (classify_inner S c) M h = Ok h' ->
  forall a b,
    (mem_class (superclasses h') a b <->
     mem_class (superclasses h) a b \/ (a = c /\ In b M /\ c <> b /\ S c b = Ok true)) /\
    (mem_class (subclasses h') b a <->
     mem_class (subclasses h) b a \/ (a = c /\ In b M /\ c <> b /\ S c b = Ok true)).
Proof.
  revert h; induction M as [|d M IH]; intros h Hrun a b; simpl in Hrun.
  - injection Hrun as <-. simpl. tauto.
  - unfold classify_inner at 1 in Hrun.
    destruct (class_eqb_case c d) as [[Ec <-] | [Ec Hne]]; rewrite Ec in Hrun.
    + destruct (IH _ Hrun a b) as [I1 I2]. rewrite I1, I2. simpl.
      split; split; intros H; intuition (subst; auto; try congruence).
    + destruct (S c d) as [[|]| |] eqn:Es; simpl in Hrun; try discriminate.
      * destruct (IH _ Hrun a b) as [I1 I2]. rewrite I1, I2. simpl.
        rewrite !mem_entry_push.
        split; split; intros H; intuition (subst; auto; try congruence).
      * destruct (IH _ Hrun a b) as [I1 I2]. rewrite I1, I2. simpl.
        split; split; intros H; intuition (subst; auto; try congruence).
Qed.

Lemma classify_outer_spec cls L h h' :
  foldM (fun h c => foldM (classify_inner S c) cls h) L h = Ok h' ->
  forall a b,
    (mem_class (superclasses h') a b <->
     mem_class (superclasses h) a b \/ (In a L /\ In b cls /\ a <> b /\ S a b = Ok true)) /\
    (mem_class (subclasses h') b a <->
     mem_class (subclasses h) b a \/ (In a L /\ In b cls /\ a <> b /\ S a b = Ok true)).
Proof.
  revert h; induction L as [|c L IH]; intros h Hrun a b; simpl in Hrun.
  - injection Hrun as <-. simpl. tauto.
  - destruct (foldM (classify_inner S c) cls h) as [h1| |] eqn:E; simpl in Hrun; try discriminate.
    destruct (IH _ Hrun a b) as [I1 I2]. destruct (classify_inner_spec c cls h h1 E a b) as [J1 J2].
    rewrite I1, I2, J1, J2.
    split; split; intros H.
    all: try (destruct H as [[H|[-> ?]]|[? ?]]; [auto | right; simpl; auto | right; simpl; tauto]).
    all: destruct H as [H|[[<-|?] ?]]; [auto | left; right; tauto | right; tauto].
Qed.
End Classify.

Lemma dedup_classes_spec seen l :
  NoDup (dedup_classes seen l) /\ forall c, In c (dedup_classes seen l) <-> In c l /\ ~ In c seen.
Proof.
  revert seen; induction l as [|c l IH]; intros seen; simpl.
  - split; [constructor | tauto].
  - destruct (existsb (class_eqb c) seen) eqn:E.
    + apply existsb_exists in E as [x [Hx Ex]]. apply class_eqb_eq in Ex. subst x.
      destruct (IH seen) as [Hn Hi]. split; [exact Hn|]. intros x. rewrite Hi.
      split; [tauto|]. intros [[<-|H] Hs]; [contradiction | auto].
    + assert (Hc : ~ In c seen).
      { intros Hc. assert (Ht : existsb (class_eqb c) seen = true)
          by (apply existsb_exists; exists c; split; [exact Hc | apply class_eqb_eq; reflexivity]).
        congruence. }
      destruct (IH (c :: seen)) as [Hn Hi]. split.
      * constructor; [rewrite Hi; simpl; tauto | exact Hn].
      * intros x. simpl. rewrite Hi. simpl.
        destruct (class_eqb_case c x) as [[_ <-]|[_ Hne]]; [tauto|].
        split; [intros [<-|[H1 H2]]; [tauto | auto] | intros [[<-|H1] H2]; [tauto | right; split; [exact H1 | tauto]]].
Qed.

Lemma extract_expression_subterms e c :
  In c (extract_classes_from_expression e) <-> In (CE_Class c) (subterms e).
Proof.
  induction e using ce_ind_deep; simpl.
  - split; [intros [<-|[]]; left; reflexivity | intros [E|[]]; injection E as ->; left; reflexivity].
  - rewrite in_flat_map. rewrite Forall_forall in H.
    split; [intros [x [Hx Hc]]; right; apply in_flat_map; exists x; split; [exact Hx | apply H; auto]|].
    intros [E|Hs]; [discriminate|]. apply in_flat_map in Hs as [x [Hx Hs]].
    exists x. split; [exact Hx | apply H; auto].
  - rewrite in_flat_map. rewrite Forall_forall in H.
    split; [intros [x [Hx Hc]]; right; apply in_flat_map; exists x; split; [exact Hx | apply H; auto]|].
    intros [E|Hs]; [discriminate|]. apply in_flat_map in Hs as [x [Hx Hs]].
    exists x. split; [exact Hx | apply H; auto].
  - rewrite IHe. split; [right; auto | intros [E|Hs]; [discriminate | exact Hs]].
  - split; [intros [] | intros [E|[]]; discriminate].
  - rewrite IHe. split; [right; auto | intros [E|Hs]; [discriminate | exact Hs]].
  - rewrite IHe. split; [right; auto | intros [E|Hs]; [discriminate | exact Hs]].
  - split; [intros [] | intros [E|[]]; discriminate].
  - split; [intros [] | intros [E|[]]; discriminate].
  - destruct f as [f|]; simpl in *; [rewrite H|]; split; try (intros [E|Hs]; [discriminate|]); auto; intros [].
  - destruct f as [f|]; simpl in *; [rewrite H|]; split; try (intros [E|Hs]; [discriminate|]); auto; intros [].
  - destruct f as [f|]; simpl in *; [rewrite H|]; split; try (intros [E|Hs]; [discriminate|]); auto; intros [].
Qed.

Lemma extract_classes_axiom_subterms ax c :
  In c (extract_classes_axiom ax) <->
  exists e, In e (axiom_class_expressions ax) /\ In (CE_Class c) (subterms e).
Proof.
  assert (Hl : forall l, In c (flat_map extract_classes_from_expression l) <->
                         exists e, In e l /\ In (CE_Class c) (subterms e)).
  { intros l. rewrite in_flat_map. split; intros [e [He Hc]]; exists e;
      (split; [exact He | apply extract_expression_subterms; exact Hc]). }
  destruct ax as [a|a|a|a]; [destruct a|destruct a|destruct a|destruct a]; simpl;
    try solve [split; [intros [] | intros [e [[] _]]]].
  - rewrite in_app_iff, !extract_expression_subterms. split.
    + intros [H|H]; eexists; split; [left; reflexivity | exact H | right; left; reflexivity | exact H].
    + intros [e [[<-|[<-|[]]] H]]; auto.
  - apply Hl.
  - apply Hl.
  - rewrite Hl. split.
    + intros [<-|[e [He H]]]; [exists (CE_Class class); simpl; auto | exists e; auto].
    + intros [e [[<-|He] H]]; [simpl in H; destruct H as [E|[]]; injection E as ->; left; reflexivity|].
      right; exists e; auto.
  - rewrite extract_expression_subterms. split; [intros H; exists domain; simpl; auto | intros [e [[<-|[]] H]]; exact H].
  - rewrite extract_expression_subterms. split; [intros H; exists range; simpl; auto | intros [e [[<-|[]] H]]; exact H].
  - rewrite extract_expression_subterms. split; [intros H; exists domain; simpl; auto | intros [e [[<-|[]] H]]; exact H].
  - rewrite extract_expression_subterms. split; [intros H; exists class; simpl; auto | intros [e [[<-|[]] H]]; exact H].
Qed.

Lemma map_get_insert m k v x :
  map_get (map_insert m k v) x = if individual_eqb k x then Some v else map_get m x.
Proof.
  induction m as [|[k' v'] m IH]; simpl; [reflexivity|].
  destruct (individual_eqb_case k' k) as [[-> <-]|[-> Hne]]; simpl.
  - destruct (individual_eqb k' x); reflexivity.
  - rewrite IH. destruct (individual_eqb_case k' x) as [[-> <-]|[-> _]].
    + destruct (individual_eqb_case k k') as [[-> <-]|[-> _]]; [congruence | reflexivity].
    + reflexivity.
Qed.

Lemma map_get_fold (F : Individual -> IndividualTypes) l m x :
  map_get (fold_left (fun m i => map_insert m i (F i)) l m) x =
  if existsb (fun i => individual_eqb i x) l then Some (F x) else map_get m x.
Proof.
  revert m; induction l as [|i l IH]; intros m; simpl; [reflexivity|].
  rewrite IH, map_get_insert.
  destruct (individual_eqb_case i x) as [[-> ->]|[-> _]]; simpl;
    destruct (existsb (fun i => individual_eqb i x) l); reflexivity.
Qed.

Lemma existsb_individual_nodes g x :
  existsb (fun i => individual_eqb i x) (map individual (nodes g)) = true <-> node_of g x <> None.
Proof.
  rewrite existsb_exists. unfold node_of. split.
  - intros [i [Hi Ei]]. apply in_map_iff in Hi as [n [<- Hn]].
    destruct (find (fun n => individual_eqb (individual n) x) (nodes g)) eqn:F; [discriminate|].
    rewrite (find_none _ _ F n Hn) in Ei. discriminate.
  - destruct (find (fun n => individual_eqb (individual n) x) (nodes g)) as [n|] eqn:F; [|tauto].
    intros _. apply find_some in F as [Hn Ei]. exists (individual n).
    split; [apply in_map; exact Hn | exact Ei].
Qed.

Lemma filter_nil_In {A} (f : A -> bool) l x : filter f l = [] -> In x l -> f x = false.
Proof.
  intros Hf Hx. destruct (f x) eqn:E; [|reflexivity].
  assert (Hin : In x (filter f l)) by (apply filter_In; auto). rewrite Hf in Hin. destruct Hin.
Qed.

Lemma expand_empty fuel : 2 <= fuel -> expand fuel CompletionGraph_new = Ok CompletionGraph_new.
Proof. intros Hf. apply expand_on_fixpoint; [exact Hf | reflexivity | reflexivity | reflexivity | reflexivity]. Qed.

Lemma is_consistent_complete fuel r r' b :
  is_consistent fuel r = Ok (r', b) ->
  ontology r' = ontology r /\ Ext (graph r) (graph r') /\
  (forall ax, In ax (axioms (ontology r)) -> recorded (graph r') ax) /\
  saturated (graph r') /\ expand fuel (graph (initialize r)) = Ok (graph r') /\
  b = negb (has_clash (graph r')).
Proof.
  intros Hc. destruct (is_consistent_result fuel r r' b Hc) as [g' [Hx [-> ->]]]. simpl.
  pose proof (expand_ext _ _ _ Hx) as He.
  split; [reflexivity|]. split; [exact (ext_trans _ _ _ (initialize_fold_ext _ _) He)|].
  split; [intros ax Hax; exact (recorded_ext _ _ ax He (initialize_fold_recorded _ _ _ Hax))|].
  split; [exact (proj2 (proj2 (proj2 (proj2 (expand_fixpoint _ _ _ Hx)))))|].
  split; [exact Hx | reflexivity].
Qed.

(** ** Properties of the reasoner's operations *)

(** [add_concept] leaves [c] on the node of [i], only extends the graph,
    and a second identical call changes nothing. *)
Lemma add_concept_spec g i c :
  carries (add_concept g i c) i c /\ Ext g (add_concept g i c) /\
  add_concept (add_concept g i c) i c = add_concept g i c.
Proof.
  split; [apply add_concept_carries|]. split; [apply add_concept_ext|].
  apply add_concept_noop, add_concept_carries.
Qed.

(** [initialize] keeps the ontology, only extends the graph, and leaves
    every assertion of the ontology recorded in it. *)
Lemma initialize_records r :
  ontology (initialize r) = ontology r /\ Ext (graph r) (graph (initialize r)) /\
  forall ax, In ax (axioms (ontology r)) -> recorded (graph (initialize r)) ax.
Proof.
  split; [reflexivity|]. split; [apply initialize_fold_ext|].
  intros ax Hax. apply initialize_fold_recorded. exact Hax.
Qed.

(** Running [initialize] twice is the same as running it once. *)
Lemma initialize_idempotent r : initialize (initialize r) = initialize r.
Proof.
  unfold initialize at 1. simpl. rewrite initialize_fold_noop; [destruct r; reflexivity|].
  intros ax Hax. apply initialize_fold_recorded. exact Hax.
Qed.

(** When [expand] returns, its graph extends the input and is saturated:
    every ⊓-, ⊔-, ∃- and ∀-concept of every node is satisfied in the
    engine's sense. *)
Lemma expand_saturates fuel g g' : expand fuel g = Ok g' -> Ext g g' /\ saturated g'.
Proof.
  intros Hx. split; [exact (expand_ext _ _ _ Hx) | exact (proj2 (proj2 (proj2 (proj2 (expand_fixpoint _ _ _ Hx)))))].
Qed.

Lemma expand_saturates_witness :
  exists g', expand 5 (graph (initialize (TableauReasoner_new Examples.ont_union))) = Ok g' /\
             Ext (graph (initialize (TableauReasoner_new Examples.ont_union))) g' /\ saturated g'.
Proof.
  eexists. split; [vm_compute; reflexivity|].
  apply (expand_saturates 5). vm_compute. reflexivity.
Defined.

(** Expanding the result of [expand] again, with any budget of two or
    more, returns it unchanged. *)
Lemma expand_idempotent fuel fuel' g g' :
  expand fuel g = Ok g' -> 2 <= fuel' -> expand fuel' g' = Ok g'.
Proof.
  intros Hx Hf. destruct (expand_fixpoint _ _ _ Hx) as [E1 [E2 [E3 [E4 _]]]].
  exact (expand_on_fixpoint fuel' g' Hf E1 E2 E3 E4).
Qed.

Lemma expand_idempotent_witness :
  exists g', expand 5 (graph (initialize (TableauReasoner_new Examples.ont_union))) = Ok g' /\
             2 <= 3 /\ expand 3 g' = Ok g'.
Proof.
  eexists. split; [vm_compute; reflexivity|]. split; [lia|].
  apply (expand_idempotent 5 3 (graph (initialize (TableauReasoner_new Examples.ont_union)))); [|lia].
  vm_compute. reflexivity.
Defined.

(** A successful [is_consistent] returns the same ontology and a saturated
    graph that extends the input graph and records every assertion; the
    answer is true exactly when that graph has no clash. *)
Lemma is_consistent_result_graph fuel r r' b :
  is_consistent fuel r = Ok (r', b) ->
  ontology r' = ontology r /\ Ext (graph r) (graph r') /\
  (forall ax, In ax (axioms (ontology r)) -> recorded (graph r') ax) /\
  saturated (graph r') /\ (b = true <-> has_clash (graph r') = false).
Proof.
  intros Hc. destruct (is_consistent_complete _ _ _ _ Hc) as [H1 [H2 [H3 [H4 [_ ->]]]]].
  split; [exact H1|]. split; [exact H2|]. split; [exact H3|]. split; [exact H4|].
  destruct (has_clash (graph r')); simpl; split; congruence.
Qed.

Lemma is_consistent_result_graph_witness :
  exists r' b, is_consistent 10 (TableauReasoner_new Examples.ont_union) = Ok (r', b) /\
    (ontology r' = ontology (TableauReasoner_new Examples.ont_union) /\
     Ext (graph (TableauReasoner_new Examples.ont_union)) (graph r') /\
     (forall ax, In ax (axioms (ontology (TableauReasoner_new Examples.ont_union))) -> recorded (graph r') ax) /\
     saturated (graph r') /\ (b = true <-> has_clash (graph r') = false)).
Proof.
  do 2 eexists. split; [vm_compute; reflexivity|].
  apply (is_consistent_result_graph 10). vm_compute. reflexivity.
Defined.

(** Calling [is_consistent] again on the reasoner it returned, with any
    budget of two or more, gives back the same reasoner and answer. *)
Lemma is_consistent_idempotent fuel fuel' r r' b :
  is_consistent fuel r = Ok (r', b) -> 2 <= fuel' -> is_consistent fuel' r' = Ok (r', b).
Proof.
  intros Hc Hf. destruct (is_consistent_complete _ _ _ _ Hc) as [Ho [_ [Hrec [_ [Hx ->]]]]].
  destruct (expand_fixpoint _ _ _ Hx) as [E1 [E2 [E3 [E4 _]]]].
  unfold is_consistent. unfold initialize at 2. simpl.
  rewrite Ho, (initialize_fold_noop _ _ Hrec), (expand_on_fixpoint fuel' _ Hf E1 E2 E3 E4). simpl.
  destruct r' as [o g]. simpl in Ho |- *. subst o. reflexivity.
Qed.

Lemma is_consistent_idempotent_witness :
  exists r' b, is_consistent 10 (TableauReasoner_new Examples.ont_union) = Ok (r', b) /\ 2 <= 2 /\
               is_consistent 2 r' = Ok (r', b).
Proof.
  do 2 eexists. split; [vm_compute; reflexivity|]. split; [lia|].
  apply (is_consistent_idempotent 10 2 (TableauReasoner_new Examples.ont_union)); [|lia].
  vm_compute. reflexivity.
Defined.

(** Told clash: an ontology asserting both [i : C] and [i : ¬C] is
    reported inconsistent, whatever the starting graph. *)
Lemma told_clash_inconsistent fuel r c i r' b :
  In (Ax_Assertion (ClassAssertion c i)) (axioms (ontology r)) ->
  In (Ax_Assertion (ClassAssertion (ObjectComplementOf c) i)) (axioms (ontology r)) ->
  is_consistent fuel r = Ok (r', b) -> b = false.
Proof.
  intros H1 H2 Hc. destruct (is_consistent_complete _ _ _ _ Hc) as [_ [_ [Hrec [_ [_ ->]]]]].
  pose proof (Hrec _ H1) as R1. pose proof (Hrec _ H2) as R2. simpl in R1, R2. unfold carries in R1, R2.
  destruct (node_of (graph r') i) as [m|] eqn:Hm; [|contradiction].
  destruct (node_of_In _ _ _ Hm) as [Hin _].
  rewrite (has_clash_intro (graph r') m c Hin R2 R1). reflexivity.
Qed.

Lemma told_clash_inconsistent_witness :
  exists r' b,
    In (Ax_Assertion (ClassAssertion (Examples.ex_ce "A") (Examples.ex_named "i")))
       (axioms (ontology (TableauReasoner_new Examples.ont_clash))) /\
    In (Ax_Assertion (ClassAssertion (ObjectComplementOf (Examples.ex_ce "A")) (Examples.ex_named "i")))
       (axioms (ontology (TableauReasoner_new Examples.ont_clash))) /\
    is_consistent 10 (TableauReasoner_new Examples.ont_clash) = Ok (r', b) /\ b = false.
Proof.
  do 2 eexists. split; [simpl; tauto|]. split; [simpl; tauto|]. split; [vm_compute; reflexivity|].
  eapply (told_clash_inconsistent 10 (TableauReasoner_new Examples.ont_clash)
           (Examples.ex_ce "A") (Examples.ex_named "i")); [simpl; tauto | simpl; tauto|].
  vm_compute. reflexivity.
Defined.

(** Told instance: on a consistent ontology that asserts [i : A] for a
    named class [A], [is_instance_of(i, A)] answers true without a second
    consistency test. *)
Lemma told_instance fuel r i a r1 :
  In (Ax_Assertion (ClassAssertion (CE_Class a) i)) (axioms (ontology r)) ->
  is_consistent fuel r = Ok (r1, true) ->
  is_instance_of fuel r i a = Ok (r1, true).
Proof.
  intros Ha Hc. destruct (is_consistent_complete _ _ _ _ Hc) as [_ [_ [Hrec _]]].
  pose proof (Hrec _ Ha) as R. simpl in R. unfold carries, node_of in R.
  unfold is_instance_of. rewrite Hc. simpl.
  destruct (find (fun n => individual_eqb (individual n) i) (nodes (graph r1))) as [m|]; [|contradiction].
  replace (existsb _ (concepts m)) with true; [reflexivity|].
  symmetry. apply existsb_exists. exists (CE_Class a). split; [exact R | apply class_eqb_eq; reflexivity].
Qed.

Lemma told_instance_witness :
  exists r1,
    In (Ax_Assertion (ClassAssertion (Examples.ex_ce "u:GradStudent") (Examples.ex_named "u:j")))
       (axioms (ontology (TableauReasoner_new Examples.ont_transitive))) /\
    is_consistent 10 (TableauReasoner_new Examples.ont_transitive) = Ok (r1, true) /\
    is_instance_of 10 (TableauReasoner_new Examples.ont_transitive) (Examples.ex_named "u:j")
                   (Examples.ex_class "u:GradStudent") = Ok (r1, true).
Proof.
  eexists. split; [simpl; tauto|]. split; [vm_compute; reflexivity|].
  apply told_instance; [simpl; tauto|]. vm_compute. reflexivity.
Defined.

(** Every class is reported subsumed by itself: the test node with
    [C ⊓ ¬C] always ends in a clash. *)
Lemma is_subsumed_by_refl fuel r c b : is_subsumed_by fuel r c c = Ok b -> b = true.
Proof.
  unfold is_subsumed_by. simpl.
  set (e := ObjectIntersectionOf [CE_Class c; ObjectComplementOf (CE_Class c)]).
  set (t := mkReasoner (ontology r) (add_concept CompletionGraph_new test_individual e)).
  destruct (is_consistent fuel t) as [[r' b0]| |] eqn:Hc; simpl; try discriminate.
  intros E. injection E as <-.
  destruct (is_consistent_complete _ _ _ _ Hc) as [_ [He [_ [Hs [_ ->]]]]].
  pose proof (carries_ext _ _ _ _ He (add_concept_carries CompletionGraph_new test_individual e)) as Hce.
  unfold carries in Hce. destruct (node_of (graph r') test_individual) as [m|] eqn:Hm; [|contradiction].
  destruct (node_of_In _ _ _ Hm) as [Hin Hi].
  pose proof (Hs m e Hin Hce) as Hsat. simpl in Hsat. rewrite Hi in Hsat.
  pose proof (Hsat _ (or_introl eq_refl)) as C1. pose proof (Hsat _ (or_intror (or_introl eq_refl))) as C2.
  unfold carries in C1, C2. rewrite Hm in C1, C2.
  rewrite (has_clash_intro _ m _ Hin C2 C1). reflexivity.
Qed.

Lemma is_subsumed_by_refl_witness :
  exists b, is_subsumed_by 10 (TableauReasoner_new Examples.ont_transitive)
              (Examples.ex_class "u:Person") (Examples.ex_class "u:Person") = Ok b /\ b = true.
Proof.
  eexists. split; [vm_compute; reflexivity|].
  apply (is_subsumed_by_refl 10 (TableauReasoner_new Examples.ont_transitive) (Examples.ex_class "u:Person")).
  vm_compute. reflexivity.
Defined.

(** An ontology without assertions is consistent: a fresh reasoner keeps
    its empty graph and answers true. *)
Lemma no_assertions_consistent fuel o :
  2 <= fuel -> assertions_of o = [] ->
  is_consistent fuel (TableauReasoner_new o) = Ok (TableauReasoner_new o, true).
Proof.
  intros Hf Ha. unfold is_consistent, initialize. simpl.
  rewrite initialize_fold_noop.
  - rewrite (expand_empty fuel Hf). reflexivity.
  - intros ax Hax. pose proof (filter_nil_In _ _ _ Ha Hax) as E. destruct ax; simpl in *; auto. discriminate.
Qed.

Lemma no_assertions_consistent_witness :
  let o := mkOntology [] [Examples.subclass_axiom (Examples.ex_ce "A") (Examples.ex_ce "B")] in
  2 <= 3 /\ assertions_of o = [] /\
  is_consistent 3 (TableauReasoner_new o) = Ok (TableauReasoner_new o, true).
Proof.
  intros o. split; [lia|]. split; [vm_compute; reflexivity|].
  apply no_assertions_consistent; [lia | vm_compute; reflexivity].
Defined.

(** [classify]: the subclass map is the mirror image of the superclass
    map, and [C ↦ D] is recorded exactly when the ontology is consistent,
    [C] and [D] are distinct extracted classes and [is_subsumed_by(C, D)]
    answers true; in particular no class is recorded above itself. *)
Lemma classify_spec fuel r r' h :
  classify fuel r = Ok (r', h) ->
  exists b, is_consistent fuel r = Ok (r', b) /\
  forall c d,
    (mem_class (superclasses h) c d <-> mem_class (subclasses h) d c) /\
    (mem_class (superclasses h) c d <->
     b = true /\ In c (extract_classes (ontology r')) /\ In d (extract_classes (ontology r')) /\
     c <> d /\ is_subsumed_by fuel r' c d = Ok true).
Proof.
  unfold classify. destruct (is_consistent fuel r) as [[r1 b]| |]; simpl; try discriminate.
  intros E. exists b. destruct b; simpl in E.
  - destruct (foldM _ (extract_classes (ontology r1)) ClassHierarchy_new) as [h1| |] eqn:Hf;
      simpl in E; try discriminate. injection E as <- <-. split; [reflexivity|]. intros c d.
    destruct (classify_outer_spec (is_subsumed_by fuel r1) (extract_classes (ontology r1))
                (extract_classes (ontology r1)) ClassHierarchy_new h1 Hf c d) as [I1 I2].
    rewrite I1, I2. simpl. pose proof (mem_class_nil c d). pose proof (mem_class_nil d c). tauto.
  - injection E as <- <-. split; [reflexivity|]. intros c d. simpl.
    pose proof (mem_class_nil c d). pose proof (mem_class_nil d c). split; [tauto|].
    split; [tauto | intros [Hb _]; discriminate].
Qed.

Lemma classify_spec_witness :
  exists r' h, classify 10 (TableauReasoner_new Examples.ont_transitive) = Ok (r', h) /\
  exists b, is_consistent 10 (TableauReasoner_new Examples.ont_transitive) = Ok (r', b) /\
  forall c d,
    (mem_class (superclasses h) c d <-> mem_class (subclasses h) d c) /\
    (mem_class (superclasses h) c d <->
     b = true /\ In c (extract_classes (ontology r')) /\ In d (extract_classes (ontology r')) /\
     c <> d /\ is_subsumed_by 10 r' c d = Ok true).
Proof.
  do 2 eexists. split; [vm_compute; reflexivity|].
  apply classify_spec. vm_compute. reflexivity.
Defined.

(** [extract_classes] lists each class once. A class is listed exactly
    when it occurs as a named class somewhere inside a class expression of
    a [SubClassOf], [EquivalentClasses], [DisjointClasses], [DisjointUnion],
    [ObjectPropertyDomain], [ObjectPropertyRange], [DataPropertyDomain] or
    [ClassAssertion] axiom, or is the class of a [DisjointUnion]. *)
Lemma extract_classes_spec o :
  NoDup (extract_classes o) /\
  forall c, In c (extract_classes o) <->
            exists ax e, In ax (axioms o) /\ In e (axiom_class_expressions ax) /\
                         In (CE_Class c) (subterms e).
Proof.
  destruct (dedup_classes_spec [] (flat_map extract_classes_axiom (axioms o))) as [Hn Hi].
  split; [exact Hn|]. intros c. unfold extract_classes. rewrite Hi, in_flat_map. simpl.
  split.
  - intros [[ax [Hax Hc]] _]. apply extract_classes_axiom_subterms in Hc as [e [He Hs]].
    exists ax, e. auto.
  - intros [ax [e [Hax [He Hs]]]]. split; [|tauto]. exists ax. split; [exact Hax|].
    apply extract_classes_axiom_subterms. exists e. auto.
Qed.

(** [realize]: on a consistent ontology the map gives each individual that
    has a node the named classes of its first node (as both its most
    specific and its full types), and nothing to the others; on an
    inconsistent one the map is empty. *)
Lemma realize_spec fuel r r' m :
  realize fuel r = Ok (r', m) ->
  exists b, is_consistent fuel r = Ok (r', b) /\ (b = false -> m = []) /\
  (b = true -> forall x,
     map_get m x = option_map (fun n => mkIndividualTypes (named_classes (concepts n))
                                                          (named_classes (concepts n)))
                              (node_of (graph r') x)).
Proof.
  unfold realize. destruct (is_consistent fuel r) as [[r1 b]| |]; simpl; try discriminate.
  intros E. exists b. destruct b; simpl in E; injection E as <- <-.
  - split; [reflexivity|]. split; [discriminate|]. intros _ x.
    rewrite (map_get_fold (fun i => find_individual_types (graph r1) i (extract_classes (ontology r1)))).
    pose proof (existsb_individual_nodes (graph r1) x) as Hx.
    unfold find_individual_types. fold (node_of (graph r1) x).
    destruct (node_of (graph r1) x) as [n|]; simpl.
    + replace (existsb _ _) with true; [reflexivity|]. symmetry. apply Hx. discriminate.
    + replace (existsb _ _) with false; [reflexivity|]. symmetry.
      apply not_true_iff_false. rewrite Hx. tauto.
  - split; [reflexivity|]. split; [reflexivity | discriminate].
Qed.

Lemma realize_spec_witness :
  exists r' m, realize 10 (TableauReasoner_new Examples.ont_transitive) = Ok (r', m) /\
  exists b, is_consistent 10 (TableauReasoner_new Examples.ont_transitive) = Ok (r', b) /\
  (b = false -> m = []) /\
  (b = true -> forall x,
     map_get m x = option_map (fun n => mkIndividualTypes (named_classes (concepts n))
                                                          (named_classes (concepts n)))
                              (node_of (graph r') x)).
Proof.
  do 2 eexists. split; [vm_compute; reflexivity|].
  apply realize_spec. vm_compute. reflexivity.
Defined.

(** [has_clash] holds exactly when some node holds a concept together with
    its complement. *)
Lemma has_clash_iff g :
  has_clash g = true <->
  exists n c, In n (nodes g) /\ In (ObjectComplementOf c) (concepts n) /\ In c (concepts n).
Proof.
  split.
  - unfold has_clash. intros H. apply existsb_exists in H as [n [Hn H]].
    apply existsb_exists in H as [c' [Hc' H]]. destruct c'; try discriminate.
    exists n, c'. split; [exact Hn|]. split; [exact Hc' | apply contains_ce_In; exact H].
  - intros [n [c [Hn [Hnc Hc]]]]. exact (has_clash_intro g n c Hn Hnc Hc).
Qed.

(** The profile check works axiom by axiom: the violations for the
    concatenation of two axiom lists are the violations for the first
    followed by those for the second, and the result conforms exactly when
    both parts do. *)
Lemma check_profile_compliance_app imps a1 a2 p :
  violations (check_profile_compliance (mkOntology imps (a1 ++ a2)) p) =
  violations (check_profile_compliance (mkOntology imps a1) p) ++
  violations (check_profile_compliance (mkOntology imps a2) p) /\
  conforms (check_profile_compliance (mkOntology imps (a1 ++ a2)) p) =
  conforms (check_profile_compliance (mkOntology imps a1) p) &&
  conforms (check_profile_compliance (mkOntology imps a2) p).
Proof.
  destruct p; simpl;
    [unfold check_el_profile | unfold check_ql_profile | unfold check_rl_profile | split; reflexivity];
    simpl; rewrite flat_map_app; split; try reflexivity;
    destruct (flat_map _ a1), (flat_map _ a2); reflexivity.
Qed.

(** Every EL class expression is also accepted by the QL and by the RL
    checks of general class expressions. *)
Lemma el_expression_ql_rl_valid e :
  is_el_class_expression e = true ->
  is_ql_valid_class_expression e = true /\ is_rl_valid_class_expression e = true.
Proof.
  induction e using ce_ind_deep; simpl; intros Hel; try discriminate; auto.
  rewrite forallb_forall in Hel. rewrite Forall_forall in H. rewrite !forallb_forall.
  split; intros x Hx; apply (H x Hx (Hel x Hx)).
Qed.

Lemma el_expression_ql_rl_valid_witness :
  let e := ObjectIntersectionOf [Examples.ex_ce "A"; ObjectSomeValuesFrom (Examples.ex_prop "P") (Examples.ex_ce "B")] in
  is_el_class_expression e = true /\
  (is_ql_valid_class_expression e = true /\ is_rl_valid_class_expression e = true).
Proof.
  intros e. split; [vm_compute; reflexivity|]. apply el_expression_ql_rl_valid. vm_compute. reflexivity.
Defined.

(** The RL expression checks are nested: an expression accepted in an
    equivalence is accepted as subclass and as superclass, both are
    accepted as RL class expressions, and those pass the general RL check. *)
Lemma rl_expression_inclusions e :
  (is_rl_equivalent_expression e = true ->
   is_rl_subclass_expression e = true /\ is_rl_superclass_expression e = true) /\
  (is_rl_subclass_expression e = true -> is_rl_class_expression e = true) /\
  (is_rl_superclass_expression e = true -> is_rl_class_expression e = true) /\
  (is_rl_class_expression e = true -> is_rl_valid_class_expression e = true).
Proof.
  induction e using ce_ind_deep; simpl.
  all: try (rewrite Forall_forall in H; rewrite !forallb_forall).
  all: repeat split; intros; try discriminate; auto.
  all: repeat match goal with
         | [ Hf : forall x, In x ?l -> _ , Hx : In ?y ?l |- _ ] => specialize (Hf y Hx)
         | [ H : _ && _ = true |- _ ] => apply andb_true_iff in H as [? ?]
         | [ |- _ && _ = true ] => apply andb_true_iff; split
         end; try tauto; auto.
  all: try (intros x Hx; match goal with
                         | [ H : forall x, In x ?l -> _ , H1 : forall x, In x ?l -> _ = true |- _ ] =>
                             specialize (H x Hx); specialize (H1 x Hx); tauto end).
  all: try (destruct f; simpl in *; tauto).
Qed.

(** The QL expression checks are nested: a QL subclass expression is a QL
    superclass expression, and that is a QL class expression. *)
Lemma ql_expression_inclusions e :
  (is_ql_subclass_expression e = true -> is_ql_superclass_expression e = true) /\
  (is_ql_superclass_expression e = true -> is_ql_valid_class_expression e = true).
Proof.
  induction e using ce_ind_deep; simpl; split; intros Hx; try discriminate; auto.
  rewrite forallb_forall in Hx |- *. rewrite Forall_forall in H.
  intros x Hin. exact (proj2 (H x Hin) (Hx x Hin)).
Qed.

(** [fresh_individual] panics exactly when the counter is at [u32::MAX];
    otherwise it keeps the nodes, bumps the counter by one, and returns a
    name different from every name minted at a lower counter value. *)
Lemma fresh_individual_spec g :
  (fresh_individual g = Panic <-> next_fresh_id g = u32_max) /\
  forall g1 x, fresh_individual g = Ok (g1, x) ->
    nodes g1 = nodes g /\ next_fresh_id g1 = N.succ (next_fresh_id g) /\
    x = fresh_name (next_fresh_id g1) /\
    forall k, (k <= next_fresh_id g)%N -> x <> fresh_name k.
Proof.
  unfold fresh_individual. destruct (N.eqb_spec (next_fresh_id g) u32_max) as [E|E].
  - split; [tauto | discriminate].
  - split; [split; [discriminate | contradiction]|].
    intros g1 x Hr. injection Hr as <- <-. simpl.
    split; [reflexivity|]. split; [reflexivity|]. split; [reflexivity|].
    intros k Hk Heq. apply fresh_name_inj in Heq. lia.
Qed.
